(** * Navigation core of the maze game: grid index, route planner,
      trajectory recorder and autopilot (maze.py) *)

From stdpp Require Import gmap list strings.
From Stdlib Require Import ZArith Lia.

Local Open Scope Z_scope.

(** ** Grid index (class PathFinder, constructor) *)

(** Module constant [CELL_SIZE = 40]. *)
Definition CELL_SIZE : Z := 40.

(** [pygame.Rect(x, y, w, h)]: integer fields, [right = x + w],
    [bottom = y + h]. *)
Record Rect := mkRect { rx : Z; ry : Z; rw : Z; rh : Z }.

Definition left (r : Rect) : Z := rx r.
Definition top (r : Rect) : Z := ry r.
Definition right (r : Rect) : Z := rx r + rw r.
Definition bottom (r : Rect) : Z := ry r + rh r.

(** The part of [Level] that the path finder reads. *)
Record Level := mkLevel { world_w : Z; world_h : Z; walls : list Rect }.

Abbreviation cell := (Z * Z)%type.
Abbreviation pt := (Z * Z)%type.

Record PathFinder := mkPathFinder {
  cols : Z;
  rows : Z;
  blocked : gset (Z * Z)
}.

(** [range(a, b)] *)
Definition range (a b : Z) : list Z := seqZ a (b - a).

(** The cells one wall marks: the two nested [for] loops of [__init__]. *)
Definition wall_cells (ncols nrows : Z) (w : Rect) : list cell :=
  let x0 := Z.max 0 (left w / CELL_SIZE) in
  let y0 := Z.max 0 (top w / CELL_SIZE) in
  let x1 := Z.min (ncols - 1) ((right w - 1) / CELL_SIZE) in
  let y1 := Z.min (nrows - 1) ((bottom w - 1) / CELL_SIZE) in
  cx ← range x0 (x1 + 1); cy ← range y0 (y1 + 1); [(cx, cy)].

Definition add_wall (ncols nrows : Z) (b : gset (Z * Z)) (w : Rect) : gset (Z * Z) :=
  foldl (λ b c, b ∪ {[ c ]}) b (wall_cells ncols nrows w).

(** [PathFinder.__init__] *)
Definition PathFinder_init (lvl : Level) : PathFinder :=
  let ncols := world_w lvl / CELL_SIZE in
  let nrows := world_h lvl / CELL_SIZE in
  {| cols := ncols; rows := nrows;
     blocked := foldl (add_wall ncols nrows) ∅ (walls lvl) |}.

(** [_pt_to_cell], on integer pixel coordinates (the floor division of
    the code, then the clamp into the grid). *)
Definition pt_to_cell (pf : PathFinder) (p : pt) : cell :=
  (Z.max 0 (Z.min (cols pf - 1) (p.1 / CELL_SIZE)),
   Z.max 0 (Z.min (rows pf - 1) (p.2 / CELL_SIZE))).

(** [_cell_to_pt] *)
Definition cell_to_pt (c : cell) : pt :=
  (c.1 * CELL_SIZE + CELL_SIZE / 2, c.2 * CELL_SIZE + CELL_SIZE / 2).

(** In-bounds and not blocked: the test of [_neighbors]. *)
Definition in_grid (pf : PathFinder) (c : cell) : Prop :=
  0 ≤ c.1 < cols pf ∧ 0 ≤ c.2 < rows pf.

Definition is_free (pf : PathFinder) (c : cell) : Prop :=
  in_grid pf c ∧ c ∉ blocked pf.

#[global] Instance in_grid_dec pf c : Decision (in_grid pf c).
Proof. unfold in_grid. apply _. Defined.

#[global] Instance is_free_dec pf c : Decision (is_free pf c).
Proof. unfold is_free. apply _. Defined.

(** [_neighbors]: candidates in the order +x, -x, +y, -y. *)
Definition neighbors (pf : PathFinder) (c : cell) : list cell :=
  filter (is_free pf) [(c.1 + 1, c.2); (c.1 - 1, c.2); (c.1, c.2 + 1); (c.1, c.2 - 1)].

(** *** Specification-side notions for the grid *)

(** Ceiling of a quotient, as the specification words it. *)
Definition ceil_div (a b : Z) : Z := - ((- a) / b).

(** The pixel rectangle of cell [c] and wall [w] share a region of
    positive area (both taken half-open: the maximal edge is exclusive). *)
Definition overlaps_cell (w : Rect) (c : cell) : Prop :=
  Z.max (left w) (c.1 * CELL_SIZE) < Z.min (right w) ((c.1 + 1) * CELL_SIZE) ∧
  Z.max (top w) (c.2 * CELL_SIZE) < Z.min (bottom w) ((c.2 + 1) * CELL_SIZE).

(** ** Loops

    A [while] loop is iterated on its body: [inl] carries the state into
    the next iteration, [inr] is the value the loop leaves with.
    [while_pow body n] runs at most [2 ^ n] iterations, so that a small
    [n] covers every run; [inl] at the end means the bound was hit. *)

Fixpoint while_pow {S R : Type} (body : S → S + R) (n : nat) (s : S) : S + R :=
  match n with
  | O => body s
  | Datatypes.S n' =>
      match while_pow body n' s with
      | inl s' => while_pow body n' s'
      | inr r => inr r
      end
  end.

(** The same loop with the iterations counted one by one (used to reason
    about [while_pow]). *)
Fixpoint run {S R : Type} (body : S → S + R) (m : nat) (s : S) : S + R :=
  match m with
  | O => inl s
  | Datatypes.S m' =>
      match body s with
      | inl s' => run body m' s'
      | inr r => inr r
      end
  end.

(** What a call produces: a value, a Python exception, or the iteration
    bound of the model. *)
Inductive exn : Type :=
  | KeyError     (* dictionary lookup of an absent key *)
  | IndexError   (* list index out of range *)
  | TypeError    (* unpacking [None] *)
  | NoObject.    (* a reference to no list of the store *)

Inductive outcome (A : Type) : Type :=
  | Ret (a : A)
  | Raise (e : exn)
  | Timeout.
Arguments Ret {A} a.
Arguments Raise {A} e.
Arguments Timeout {A}.

(** ** Route planner: shortest route (PathFinder.shortest) *)

(** Heap entries [(f, d, cur, par)]. *)
Abbreviation entry := (Z * Z * (Z * Z) * option (Z * Z))%type.

Definition e_f (e : entry) : Z := e.1.1.1.
Definition e_d (e : entry) : Z := e.1.1.2.
Definition e_cur (e : entry) : cell := e.1.2.
Definition e_par (e : entry) : option cell := e.2.

(** Tuple comparison on the first three components, in lexicographic
    order ([cur] itself a pair).  Two entries of the heap never agree on
    their cost and cell ([astar_keys_distinct] below), so the comparison
    never reaches the fourth component. *)
Definition entry_ltb (a b : entry) : bool :=
  if decide (e_f a < e_f b) then true
  else if decide (e_f b < e_f a) then false
  else if decide (e_d a < e_d b) then true
  else if decide (e_d b < e_d a) then false
  else if decide ((e_cur a).1 < (e_cur b).1) then true
  else if decide ((e_cur b).1 < (e_cur a).1) then false
  else bool_decide ((e_cur a).2 < (e_cur b).2).

(** [heapq.heappush] and [heapq.heappop] on the multiset of entries:
    [heappop] takes out the least entry. *)
Definition heappush (pq : list entry) (e : entry) : list entry := pq ++ [e].

Fixpoint heappop (pq : list entry) : option (entry * list entry) :=
  match pq with
  | [] => None
  | e :: rest =>
      match heappop rest with
      | None => Some (e, [])
      | Some (m, rest') =>
          if entry_ltb m e then Some (m, e :: rest') else Some (e, rest)
      end
  end.

(** [h(a, b)]: Manhattan distance. *)
Definition h (a b : cell) : Z := Z.abs (a.1 - b.1) + Z.abs (a.2 - b.2).

(** The default of [gscore.get(n, 1e9)]. *)
Definition BIG : Z := 1000000000.

Definition gget (gscore : gmap (Z * Z) Z) (n : cell) : Z :=
  default BIG (gscore !! n).

Record astar_state := mkAstar {
  a_pq : list entry;
  a_came : gmap (Z * Z) (option (Z * Z));
  a_gscore : gmap (Z * Z) Z
}.

(** Body of [for n in self._neighbors(cur)]. *)
Definition relax (g : cell) (d : Z) (cur : cell)
    (acc : list entry * gmap (Z * Z) Z) (n : cell) : list entry * gmap (Z * Z) Z :=
  let nd := d + 1 in
  if decide (nd < gget acc.2 n)
  then (heappush acc.1 (nd + h n g, nd, n, Some cur), <[n := nd]> acc.2)
  else acc.

(** Body of [while pq]; [inr] is [came] when the loop is left. *)
Definition astar_body (pf : PathFinder) (g : cell) (st : astar_state)
    : astar_state + gmap (Z * Z) (option (Z * Z)) :=
  match heappop (a_pq st) with
  | None => inr (a_came st)
  | Some (e, pq') =>
      let cur := e_cur e in
      let came' :=
        match a_came st !! cur with
        | None => <[cur := e_par e]> (a_came st)
        | Some _ => a_came st
        end in
      if decide (cur = g) then inr came'
      else
        let acc := foldl (relax g (e_d e) cur) (pq', a_gscore st) (neighbors pf cur) in
        inl (mkAstar acc.1 came' acc.2)
  end.

Definition astar_init (s g : cell) : astar_state :=
  mkAstar (heappush [] (h s g, 0, s, None)) ∅ {[ s := 0 ]}.

(** Body of [while c is not None: path.append(c); c = came[c]]. *)
Definition trace_body (came : gmap (Z * Z) (option (Z * Z)))
    (st : option cell * list cell) : (option cell * list cell) + option (list cell) :=
  match st.1 with
  | None => inr (Some st.2)
  | Some c =>
      match came !! c with
      | None => inr None
      | Some par => inl (par, st.2 ++ [c])
      end
  end.

(** Iteration bounds of the two loops, as exponents of two.  Every
    accumulated cost stays below [BIG], which bounds both. *)
Definition astar_fuel (pf : PathFinder) : nat :=
  Datatypes.S (Z.to_nat (Z.log2_up (2 + 2 * BIG * (Z.max 0 (cols pf) * Z.max 0 (rows pf))))).

Definition trace_fuel : nat := 30%nat.

(** [PathFinder.shortest] *)
Definition shortest (pf : PathFinder) (start_px goal_px : pt) : outcome (list pt) :=
  let s := pt_to_cell pf start_px in
  let g := pt_to_cell pf goal_px in
  if decide (s ∈ blocked pf ∨ g ∈ blocked pf) then Ret []
  else
    match while_pow (astar_body pf g) (astar_fuel pf) (astar_init s g) with
    | inl _ => Timeout
    | inr came =>
        match came !! g with
        | None => Ret []
        | Some _ =>
            match while_pow (trace_body came) trace_fuel (Some g, []) with
            | inl _ => Timeout
            | inr None => Raise KeyError
            | inr (Some path) => Ret (cell_to_pt <$> reverse path)
            end
        end
    end.

(** *** Specification-side notions for routes *)

(** A path in the cell graph: each cell is a neighbour of the one before. *)
Fixpoint is_path (pf : PathFinder) (l : list cell) : Prop :=
  match l with
  | [] => True
  | a :: l' =>
      match l' with
      | [] => True
      | b :: _ => b ∈ neighbors pf a ∧ is_path pf l'
      end
  end.

(** [l] is a path from [s] to [g]. *)
Definition path_from_to (pf : PathFinder) (s g : cell) (l : list cell) : Prop :=
  head l = Some s ∧ last l = Some g ∧ is_path pf l.

(** Number of steps of a route or path: one less than its length. *)
Definition steps {A : Type} (l : list A) : Z := Z.of_nat (length l) - 1.

#[global] Instance is_path_dec pf l : Decision (is_path pf l).
Proof.
  induction l as [|a l IH]; [left; exact I|].
  destruct l as [|b l]; [left; exact I|].
  simpl. simpl in IH. apply _.
Defined.

#[global] Instance path_from_to_dec pf s g l : Decision (path_from_to pf s g l).
Proof. unfold path_from_to. apply _. Defined.

(** [walk pf a c k]: [c] is reached from [a] in [k] steps of [neighbors]. *)
Inductive walk (pf : PathFinder) (a : cell) : cell → Z → Prop :=
  | walk_here : walk pf a a 0
  | walk_step c n k : walk pf a c k → n ∈ neighbors pf c → walk pf a n (k + 1).

(** *** Invariants of the search loop *)

(** [chain came c l]: following the predecessor links of [came] from [c]
    ends at a cell without predecessor; [l] lists the cells met, oldest
    first. *)
Inductive chain (came : gmap (Z * Z) (option (Z * Z))) : cell → list cell → Prop :=
  | chain_root c : came !! c = Some None → chain came c [c]
  | chain_link c p l :
      came !! c = Some (Some p) → chain came p l → chain came c (l ++ [c]).

(** Every heap entry is well formed: its priority is cost plus heuristic,
    its cost is that of a walk through its predecessor, and the
    predecessor is finalized. *)
Definition entries_ok (pf : PathFinder) (s g : cell)
    (pq : list entry) (came : gmap (Z * Z) (option (Z * Z))) : Prop :=
  ∀ e, e ∈ pq →
    e_f e = e_d e + h (e_cur e) g ∧ 0 ≤ e_d e < BIG ∧
    match e_par e with
    | None => e_cur e = s ∧ e_d e = 0
    | Some p => is_Some (came !! p) ∧ e_cur e ∈ neighbors pf p ∧ walk pf s p (e_d e - 1)
    end.

(** Recorded costs are costs of walks. *)
Definition gscore_ok (pf : PathFinder) (s : cell) (gscore : gmap (Z * Z) Z) : Prop :=
  ∀ c k, gscore !! c = Some k → walk pf s c k ∧ k < BIG.

(** A cell with a recorded cost is still queued with that cost, or it is
    finalized and its neighbours have been relaxed from it; while [cur]
    is being expanded at cost [d], the neighbours in [pend] are still to
    be relaxed. *)
Definition closed_ok (pf : PathFinder) (g : cell) (pend : list cell) (d : Z) (cur : cell)
    (pq : list entry) (came : gmap (Z * Z) (option (Z * Z)))
    (gscore : gmap (Z * Z) Z) : Prop :=
  ∀ c k, gscore !! c = Some k →
    (∃ par, (k + h c g, k, c, par) ∈ pq) ∨
    (is_Some (came !! c) ∧
     ∀ n, n ∈ neighbors pf c →
       gget gscore n ≤ k + 1 ∨ (c = cur ∧ k = d ∧ n ∈ pend)).

(** The predecessor links of a finalized cell spell a path from the
    start that no walk beats. *)
Definition came_ok (pf : PathFinder) (s : cell)
    (came : gmap (Z * Z) (option (Z * Z))) : Prop :=
  ∀ c par, came !! c = Some par →
    ∃ l, chain came c l ∧ path_from_to pf s c l ∧ steps l < BIG ∧
         ∀ m, walk pf s c m → steps l ≤ m.

Record fold_inv (pf : PathFinder) (s g : cell) (pend : list cell) (d : Z) (cur : cell)
    (came : gmap (Z * Z) (option (Z * Z)))
    (acc : list entry * gmap (Z * Z) Z) : Prop := {
  fi_entries : entries_ok pf s g acc.1 came;
  fi_gscore : gscore_ok pf s acc.2;
  fi_closed : closed_ok pf g pend d cur acc.1 came acc.2;
  fi_start : acc.2 !! s = Some 0
}.

Record astar_inv (pf : PathFinder) (s g : cell) (st : astar_state) : Prop := {
  ai_fold : fold_inv pf s g [] 0 s (a_came st) (a_pq st, a_gscore st);
  ai_came : came_ok pf s (a_came st)
}.

(** What is known of [came] when the loop is left. *)
Definition astar_post (pf : PathFinder) (s g : cell)
    (came : gmap (Z * Z) (option (Z * Z))) : Prop :=
  came_ok pf s came ∧ (came !! g = None → ∀ m, walk pf s g m → BIG ≤ m).

(** The entries of the heap differ pairwise in (cost, cell), and no
    entry is cheaper than the recorded cost of its cell: [heappop] never
    has to compare two entries beyond their third component. *)
Definition e_key (e : entry) : Z * (Z * Z) := (e_d e, e_cur e).

Definition keys_ok (acc : list entry * gmap (Z * Z) Z) : Prop :=
  NoDup (e_key <$> acc.1) ∧
  ∀ e, e ∈ acc.1 → ∃ k, acc.2 !! e_cur e = Some k ∧ k ≤ e_d e.

(** All cells of the grid, and the quantity that decreases with every
    iteration of the search loop. *)
Definition cells (pf : PathFinder) : list cell :=
  cx ← range 0 (cols pf); cy ← range 0 (rows pf); [(cx, cy)].

Definition sumZ (l : list Z) : Z := foldr Z.add 0 l.

Definition potential (pf : PathFinder) (acc : list entry * gmap (Z * Z) Z) : Z :=
  Z.of_nat (length acc.1) + 2 * sumZ (gget acc.2 <$> cells pf).

(** *** A long corridor

    One row of [BIG + 1] free cells, walked from its first to its last
    cell: the grid on which the default of [gscore.get] is reached. *)
Definition corridor : PathFinder := mkPathFinder (BIG + 1) 1 ∅.

Definition corridor_start : pt := (0, 0).
Definition corridor_goal : pt := (CELL_SIZE * BIG, 0).

(** The state of the search in the corridor when cell [(k, 0)] is about
    to leave the heap. *)
Definition corridor_state (k : Z) (st : astar_state) : Prop :=
  (∃ par, a_pq st = [(BIG, k, (k, 0), par)]) ∧
  (∀ j, a_gscore st !! (j, 0) = if decide (0 ≤ j ≤ k) then Some j else None) ∧
  (∀ j, k ≤ j → a_came st !! (j, 0) = None).

(** ** Route planner: approximate longest route (PathFinder.longest_approx) *)

(** [dist] keeps its keys in insertion order, which [max] iterates. *)
Fixpoint dist_get (dist : list (cell * Z)) (c : cell) : option Z :=
  match dist with
  | [] => None
  | (k, v) :: rest => if decide (k = c) then Some v else dist_get rest c
  end.

Record bfs_state := mkBfs {
  b_q : list cell;
  b_dist : list (cell * Z);
  b_par : gmap (Z * Z) (option (Z * Z))
}.

(** Body of [for n in self._neighbors(c)]; [None] is the [KeyError] of
    [dist[c]]. *)
Definition visit (c : cell) (st : bfs_state) (n : cell) : option bfs_state :=
  match dist_get (b_dist st) n with
  | Some _ => Some st
  | None =>
      match dist_get (b_dist st) c with
      | None => None
      | Some dc =>
          Some (mkBfs (b_q st ++ [n]) (b_dist st ++ [(n, dc + 1)])
                      (<[n := Some c]> (b_par st)))
      end
  end.

(** Body of [while q]. *)
Definition bfs_body (pf : PathFinder) (st : bfs_state)
    : bfs_state + option (list (cell * Z) * gmap (Z * Z) (option (Z * Z))) :=
  match b_q st with
  | [] => inr (Some (b_dist st, b_par st))
  | c :: q' =>
      match foldl (λ acc n, acc ≫= λ st', visit c st' n)
                  (Some (mkBfs q' (b_dist st) (b_par st))) (neighbors pf c) with
      | None => inr None
      | Some st' => inl st'
      end
  end.

(** [max(dist, key=lambda k: dist[k])]: the first key of greatest value. *)
Definition far_of (start : cell) (dist : list (cell * Z)) : cell :=
  (foldl (λ best kv, if decide (best.2 < kv.2) then kv else best) (start, 0) dist).1.

Definition bfs_fuel (pf : PathFinder) : nat :=
  Datatypes.S (Z.to_nat (Z.log2_up (2 + Z.max 0 (cols pf) * Z.max 0 (rows pf)))).

(** The local function [bfs]. *)
Definition bfs (pf : PathFinder) (start : cell)
    : outcome (cell * gmap (Z * Z) (option (Z * Z))) :=
  match while_pow (bfs_body pf) (bfs_fuel pf)
          (mkBfs [start] [(start, 0)] {[ start := None ]}) with
  | inl _ => Timeout
  | inr None => Raise KeyError
  | inr (Some (dist, par)) => Ret (far_of start dist, par)
  end.

(** The scan for a free cell: rows outermost, the first hit ends it. *)
Definition first_free (pf : PathFinder) : option cell :=
  head (filter (λ c, c ∉ blocked pf)
          (cy ← range 0 (rows pf); cx ← range 0 (cols pf); [(cx, cy)])).

(** [PathFinder.longest_approx] *)
Definition longest_approx (pf : PathFinder) (start_px : pt) : outcome (list pt) :=
  let s0 := pt_to_cell pf start_px in
  let s := if decide (s0 ∈ blocked pf) then default s0 (first_free pf) else s0 in
  match bfs pf s with
  | Ret (A, _) =>
      match bfs pf A with
      | Ret (B, par) =>
          match while_pow (trace_body par) (bfs_fuel pf) (Some B, []) with
          | inl _ => Timeout
          | inr None => Raise KeyError
          | inr (Some path) => Ret (cell_to_pt <$> reverse path)
          end
      | Raise e => Raise e
      | Timeout => Timeout
      end
  | Raise e => Raise e
  | Timeout => Timeout
  end.

(** *** Invariants of the breadth-first search *)

(** 1 for a cell not yet in [dist], 0 otherwise. *)
Definition unseen (dist : list (cell * Z)) (c : cell) : Z :=
  match dist_get dist c with Some _ => 0 | None => 1 end.

(** The quantity that decreases with every iteration of [while q]. *)
Definition bfs_potential (pf : PathFinder) (st : bfs_state) : Z :=
  Z.of_nat (length (b_q st)) + 2 * sumZ (unseen (b_dist st) <$> cells pf).

Record bfs_inv (pf : PathFinder) (start : cell) (st : bfs_state) : Prop := {
  bi_start : is_Some (dist_get (b_dist st) start);
  bi_queue : ∀ c, c ∈ b_q st → is_Some (dist_get (b_dist st) c);
  bi_chain : ∀ c v, dist_get (b_dist st) c = Some v →
               ∃ l, chain (b_par st) c l ∧ Z.of_nat (length l) = v + 1;
  bi_par : ∀ c, dist_get (b_dist st) c = None → b_par st !! c = None;
  bi_bound : ∀ c v, dist_get (b_dist st) c = Some v →
               v < Z.of_nat (length (b_dist st));
  bi_nodup : NoDup (b_dist st).*1;
  bi_keys : ∀ c, c ∈ (b_dist st).*1 → c = start ∨ in_grid pf c
}.

(** *** Distances of the breadth-first search *)

(** The queue holds cells of distance [d], then cells of distance
    [d + 1], and no cell seen so far is farther than [d + 1]. *)
Definition layered (d : Z) (q : list cell) (dist : list (cell * Z)) : Prop :=
  (∃ q1 q2, q = q1 ++ q2 ∧
            (∀ m, m ∈ q1 → dist_get dist m = Some d) ∧
            (∀ m, m ∈ q2 → dist_get dist m = Some (d + 1))) ∧
  ∀ c v, dist_get dist c = Some v → v ≤ d + 1.

(** A cell seen is still queued, or each of its neighbours is seen at most
    one step farther; while [cur] is being expanded, its neighbours in
    [pend] are still to be visited. *)
Definition bfs_closed (pf : PathFinder) (pend : list cell) (cur : cell)
    (st : bfs_state) : Prop :=
  ∀ c v, dist_get (b_dist st) c = Some v →
    c ∈ b_q st ∨
    ∀ n, n ∈ neighbors pf c →
      (∃ w, dist_get (b_dist st) n = Some w ∧ w ≤ v + 1) ∨ (c = cur ∧ n ∈ pend).

Record bfs_dist_inv (pf : PathFinder) (start : cell) (pend : list cell) (cur : cell)
    (st : bfs_state) : Prop := {
  bd_start : dist_get (b_dist st) start = Some 0;
  bd_walk : ∀ c v, dist_get (b_dist st) c = Some v → walk pf start c v;
  bd_root : ∀ c, b_par st !! c = Some None → c = start;
  bd_link : ∀ c p, b_par st !! c = Some (Some p) → c ∈ neighbors pf p;
  bd_closed : bfs_closed pf pend cur st
}.

(** The cell [s] the two sweeps of [longest_approx] start from: the cell
    of the start point, or the first free cell when that one is blocked. *)
Definition sweep_start (pf : PathFinder) (start_px : pt) : cell :=
  let s0 := pt_to_cell pf start_px in
  if decide (s0 ∈ blocked pf) then default s0 (first_free pf) else s0.

(** *** Routes in pixels *)

(** Consecutive waypoints lie one cell size apart along one axis. *)
Definition axis_steps (r : list pt) : Prop :=
  ∀ i p q, r !! i = Some p → r !! Datatypes.S i = Some q →
    (p.1 = q.1 ∧ Z.abs (p.2 - q.2) = CELL_SIZE) ∨
    (p.2 = q.2 ∧ Z.abs (p.1 - q.1) = CELL_SIZE).

(** ** Numbers of the recorder and the autopilot

    Positions, distances and the steering vector are Python floats.  The
    model is stated over any type [F] with the operations the code uses;
    what is proved holds for every such arithmetic. *)
Class Float (F : Type) := {
  fadd : F → F → F;
  fsub : F → F → F;
  fmul : F → F → F;
  fdiv : F → F → F;
  fhypot : F → F → F;     (* math.hypot *)
  flt : F → F → bool;     (* a < b *)
  fle : F → F → bool;     (* a <= b *)
  feq : F → F → bool;     (* a == b *)
  f0 : F;                 (* 0.0 *)
  finf : F                (* float('inf') *)
}.

(** ** The store of list objects

    Python lists are objects reached through references: a slice makes a
    new list, [append], item assignment and [reverse] change a list in
    place. *)
Definition new_list {A : Type} (σ : gmap nat (list A)) (l : list A)
    : nat * gmap nat (list A) :=
  let r := fresh (dom σ) in (r, <[r := l]> σ).

(** [l[start:]] *)
Definition py_slice_from {A : Type} (start : Z) (l : list A) : list A :=
  if decide (start < 0)
  then drop (Z.to_nat (Z.of_nat (length l) + start)) l
  else drop (Z.to_nat start) l.

(** [l[i]] *)
Definition py_index {A : Type} (l : list A) (i : Z) : option A :=
  if decide (0 ≤ i) then l !! Z.to_nat i
  else if decide (- Z.of_nat (length l) ≤ i) then l !! Z.to_nat (Z.of_nat (length l) + i)
  else None.

(** ** Level generation (Level.generate) *)

(** [range(a, b, s)] for a positive step [s]. *)
Definition range_step (a b s : Z) : list Z :=
  (λ i, a + s * i) <$> seqZ 0 ((b - a + s - 1) / s).

(** The walls of [generate]: the border of the world, then the blocks
    inside.  [dense x y] is the outcome of the test
    [random.random() < self.density] made for the block at [(x, y)]; the
    loops make it once for each such block. *)
Definition generate_walls (w h : Z) (dense : Z → Z → bool) : list Rect :=
  (x ← range_step 0 w CELL_SIZE;
     [mkRect x 0 CELL_SIZE CELL_SIZE; mkRect x (h - CELL_SIZE) CELL_SIZE CELL_SIZE]) ++
  (y ← range_step 0 h CELL_SIZE;
     [mkRect 0 y CELL_SIZE CELL_SIZE; mkRect (w - CELL_SIZE) y CELL_SIZE CELL_SIZE]) ++
  (x ← range_step (CELL_SIZE * 2) (w - CELL_SIZE * 2) CELL_SIZE;
   y ← range_step (CELL_SIZE * 2) (h - CELL_SIZE * 2) CELL_SIZE;
   if dense x y then [mkRect x y CELL_SIZE CELL_SIZE] else []).

(** [self.start] and [self.end] *)
Definition level_start : pt := (50, 50).
Definition level_end (lvl : Level) : pt := (world_w lvl - 120, world_h lvl - 120).

(** The label of a progress flag: one of [labels], or the text of a
    percentage. *)
Inductive flag_label : Type :=
  | Named (s : string)
  | Percent (idx n : Z).       (* f"{int(idx/n*100)}%" *)

Record Flag := mkFlag { flag_pos : pt; flag_text : flag_label; flag_hit : bool }.

(** [sorted(set([a, b]))] *)
Definition sorted_set2 (a b : Z) : list Z :=
  if decide (a = b) then [a] else if decide (a < b) then [a; b] else [b; a].

(** The loop [for i, idx in enumerate(idxs[:2])]; an [IndexError] ends it
    and is swallowed by the [except] clause, the flags appended so far
    stay. *)
Fixpoint flag_loop (sp : list pt) (n : Z) (labels : list string) (i : nat)
    (idxs : list Z) (flags : list Flag) : list Flag :=
  match idxs with
  | [] => flags
  | idx :: rest =>
      match py_index sp (Z.min (Z.max 1 idx) (n - 2)) with
      | None => flags
      | Some pos =>
          let label := match labels !! i with
                       | Some s => Named s
                       | None => Percent idx n
                       end in
          flag_loop sp n labels (Datatypes.S i) rest (flags ++ [mkFlag pos label false])
      end
  end.

(** The flags for a route [sp].  [int(n*0.25)] and [int(n/3)] are the
    quotients rounded down: [n] is the length of a list, far below 2^53,
    where the floating-point product and quotient round to no other
    integer. *)
Definition place_flags (sp : list pt) : list Flag :=
  let n := Z.of_nat (length sp) in
  if decide (8 < n) then
    flag_loop sp n ["1/4"; "1/3"] 0 (take 2 (sorted_set2 (n / 4) (n / 3))) []
  else [].

(** [Level.generate], for a world of [w] by [h] pixels: the level the
    path finder reads and the flags (enemies, portals and collectibles
    are placed at random and read by neither; an exception of the route
    search leaves the flags empty). *)
Definition generate (w h : Z) (dense : Z → Z → bool) : Level * list Flag :=
  let lvl := mkLevel w h (generate_walls w h dense) in
  (lvl,
   match shortest (PathFinder_init lvl) level_start (level_end lvl) with
   | Ret sp => place_flags sp
   | _ => []
   end).

(** ** Trajectory recorder (class MoveRecorder) *)

Record MoveRecorder (F : Type) := mkRecorder {
  sample_dist : F;
  max_points : Z;
  points : nat;                 (* reference to the list of samples *)
  last_ : option (F * F)        (* [_last] *)
}.
Arguments mkRecorder {F}.
Arguments sample_dist {F}.
Arguments max_points {F}.
Arguments points {F}.
Arguments last_ {F}.

Section recorder_model.
Context {F : Type} `{Float F}.

(** [(px - cx) * (px - cx) + (py - cy) * (py - cy)] *)
Definition sqdist (p c : F * F) : F :=
  fadd (fmul (fsub p.1 c.1) (fsub p.1 c.1)) (fmul (fsub p.2 c.2) (fsub p.2 c.2)).

(** [MoveRecorder.__init__] *)
Definition MoveRecorder_init (σ : gmap nat (list (F * F))) (sd : F) (mp : Z)
    : gmap nat (list (F * F)) * MoveRecorder F :=
  let '(r, σ') := new_list σ [] in (σ', mkRecorder sd mp r None).

(** [MoveRecorder.add] *)
Definition add (σ : gmap nat (list (F * F))) (rec : MoveRecorder F) (pos : F * F)
    : outcome (gmap nat (list (F * F)) * MoveRecorder F) :=
  match σ !! points rec with
  | None => Raise NoObject
  | Some [] =>
      Ret (<[points rec := [pos]]> σ,
           mkRecorder (sample_dist rec) (max_points rec) (points rec) (Some pos))
  | Some pts =>
      match last_ rec with
      | None => Raise TypeError
      | Some l =>
          if fle (fmul (sample_dist rec) (sample_dist rec)) (sqdist pos l) then
            let pts1 := pts ++ [pos] in
            let σ1 := <[points rec := pts1]> σ in
            if decide (max_points rec < Z.of_nat (length pts1)) then
              let '(r2, σ2) := new_list σ1 (py_slice_from (- max_points rec) pts1) in
              Ret (σ2, mkRecorder (sample_dist rec) (max_points rec) r2 (Some pos))
            else
              Ret (σ1, mkRecorder (sample_dist rec) (max_points rec) (points rec) (Some pos))
          else Ret (σ, rec)
      end
  end.

(** A sequence of [add] calls. *)
Fixpoint add_all (σ : gmap nat (list (F * F))) (rec : MoveRecorder F)
    (ps : list (F * F)) : outcome (gmap nat (list (F * F)) * MoveRecorder F) :=
  match ps with
  | [] => Ret (σ, rec)
  | p :: ps' =>
      match add σ rec p with
      | Ret (σ', rec') => add_all σ' rec' ps'
      | Raise e => Raise e
      | Timeout => Timeout
      end
  end.

(** The [for i, (px, py) in enumerate(self.points)] loop: [i] counts the
    samples seen, [best] is [(best_i, best_d2)]. *)
Fixpoint nearest_scan (cur : F * F) (i : nat) (best : nat * F) (pts : list (F * F))
    : nat * F :=
  match pts with
  | [] => best
  | p :: rest =>
      let d2 := sqdist p cur in
      nearest_scan cur (Datatypes.S i) (if flt d2 best.2 then (i, d2) else best) rest
  end.

(** [MoveRecorder.backtrack_from]: the reference of the list returned
    and the store after the call. *)
Definition backtrack_from (σ : gmap nat (list (F * F))) (rec : MoveRecorder F)
    (current_pos : F * F) (include_current : bool)
    : outcome (nat * gmap nat (list (F * F))) :=
  match σ !! points rec with
  | None => Raise NoObject
  | Some [] => Ret (new_list σ [])
  | Some pts =>
      let best_i := (nearest_scan current_pos 0 (0%nat, finf) pts).1 in
      let back := take (best_i + 1) pts in
      let '(rb, σ1) := new_list σ back in
      let back' :=
        if include_current && bool_decide (back ≠ [])
        then <[(length back - 1)%nat := current_pos]> back
        else back in
      let σ2 := <[rb := back']> σ1 in
      Ret (rb, <[rb := reverse back']> σ2)
  end.

(** *** Specification-side notions for the recorder *)

(** Consecutive samples pass the spacing test of [add]. *)
Definition spaced (sd : F) (pts : list (F * F)) : Prop :=
  ∀ i p q, pts !! i = Some p → pts !! Datatypes.S i = Some q →
           fle (fmul sd sd) (sqdist q p) = true.

(** Sample [i] is the nearest to [cur], the first one among equals. *)
Definition first_nearest (pts : list (F * F)) (cur : F * F) (i : nat) : Prop :=
  ∃ q, pts !! i = Some q ∧
       (∀ j q', pts !! j = Some q' → flt (sqdist q' cur) (sqdist q cur) = false) ∧
       (∀ j q', (j < i)%nat → pts !! j = Some q' →
                flt (sqdist q cur) (sqdist q' cur) = true).

(** What the recorder keeps true between calls: [_last] is the newest
    sample, consecutive samples are spaced, and a positive [max_points]
    bounds their number. *)
Definition recorder_ok (sd : F) (mp : Z) (σ : gmap nat (list (F * F)))
    (rec : MoveRecorder F) : Prop :=
  sample_dist rec = sd ∧ max_points rec = mp ∧
  ∃ pts, σ !! points rec = Some pts ∧ (pts ≠ [] → last_ rec = last pts) ∧
         spaced sd pts ∧ (1 ≤ mp → Z.of_nat (length pts) ≤ mp).

(** What [nearest_scan] knows after the samples [seen]: nothing was
    nearer than infinity yet, or [best] is the first nearest of [seen]. *)
Definition scan_inv (cur : F * F) (seen : list (F * F)) (best : nat * F) : Prop :=
  (best = (0%nat, finf) ∧
   ∀ j q', seen !! j = Some q' → flt (sqdist q' cur) finf = false) ∨
  (best.2 = default finf ((λ q, sqdist q cur) <$> seen !! best.1) ∧
   first_nearest seen cur best.1).

End recorder_model.

(** *** More of the recorder *)

(** The last [k] elements of a list (all of it when it is shorter). *)
Definition last_n {A : Type} (k : Z) (l : list A) : list A :=
  drop (length l - Z.to_nat k) l.

Section recorder_more.
Context {F : Type} `{Float F}.

(** [MoveRecorder.clear]: the list is emptied in place. *)
Definition clear (σ : gmap nat (list (F * F))) (rec : MoveRecorder F)
    : outcome (gmap nat (list (F * F)) * MoveRecorder F) :=
  match σ !! points rec with
  | None => Raise NoObject
  | Some _ =>
      Ret (<[points rec := []]> σ,
           mkRecorder (sample_dist rec) (max_points rec) (points rec) None)
  end.

(** The positions of [ps] that pass the spacing test of [add] one after
    the other, [l] being the sample accepted last. *)
Fixpoint accepted (sd : F) (l : option (F * F)) (ps : list (F * F)) : list (F * F) :=
  match ps with
  | [] => []
  | p :: ps' =>
      match l with
      | None => p :: accepted sd (Some p) ps'
      | Some q =>
          if fle (fmul sd sd) (sqdist p q)
          then p :: accepted sd (Some p) ps'
          else accepted sd l ps'
      end
  end.

End recorder_more.

(** ** Autopilot (the AUTO FOLLOW part of QuantumMazeGame.update) *)

Record Game (F : Type) := mkGame {
  auto_mode : bool;
  reverse_mode : bool;
  auto_path : list (F * F);
  auto_index : Z
}.
Arguments mkGame {F}.
Arguments auto_mode {F}.
Arguments reverse_mode {F}.
Arguments auto_path {F}.
Arguments auto_index {F}.

(** States of the autopilot as the specification names them. *)
Inductive ap_state (F : Type) : Type :=
  | Idle
  | Following (route : list (F * F)) (cursor : nat).
Arguments Idle {F}.
Arguments Following {F}.

Section autopilot_model.
Context {F : Type} `{Float F}.

(** The arrival threshold [max(8, CELL_SIZE * 0.2)]. *)
Variable arrive : F.

(** The block that sets [dx, dy]: [center] is the player's centre,
    [manual] the vector the keys give when the autopilot is off.  Returns
    the game fields after the block and [(dx, dy)]. *)
Definition auto_follow (gm : Game F) (center manual : F * F)
    : outcome (Game F * (F * F)) :=
  let len := Z.of_nat (length (auto_path gm)) in
  if auto_mode gm && bool_decide (2 ≤ len) && bool_decide (auto_index gm < len) then
    match py_index (auto_path gm) (auto_index gm) with
    | None => Raise IndexError
    | Some t =>
        let vx := fsub t.1 center.1 in
        let vy := fsub t.2 center.2 in
        let d := fhypot vx vy in
        if flt d arrive then
          let idx := auto_index gm + 1 in
          if decide (len ≤ idx)
          then Ret (mkGame false false (auto_path gm) idx, (f0, f0))
          else Ret (mkGame (auto_mode gm) (reverse_mode gm) (auto_path gm) idx, (f0, f0))
        else
          if negb (feq d f0)
          then Ret (gm, (fdiv vx d, fdiv vy d))
          else Ret (gm, (vx, vy))
    end
  else Ret (gm, manual).

(** *** The tick as the specification words it (section 4.5) *)

(** Following: [n] bounds the waypoints still to be passed in this tick. *)
Fixpoint spec_follow (n : nat) (route : list (F * F)) (cursor : nat) (agent : F * F)
    : ap_state F * option (F * F) :=
  match n with
  | O => (Idle, None)
  | Datatypes.S n' =>
      match route !! cursor with
      | None => (Idle, None)
      | Some t =>
          let vx := fsub t.1 agent.1 in
          let vy := fsub t.2 agent.2 in
          let d := fhypot vx vy in
          if flt d arrive then
            if decide (length route ≤ Datatypes.S cursor)%nat then (Idle, None)
            else spec_follow n' route (Datatypes.S cursor) agent
          else (Following route cursor, Some (fdiv vx d, fdiv vy d))
      end
  end.

Definition spec_tick (st : ap_state F) (agent : F * F) (manual_input : bool)
    : ap_state F * option (F * F) :=
  if manual_input then (Idle, None)
  else match st with
       | Idle => (Idle, None)
       | Following route cursor => spec_follow (length route) route cursor agent
       end.

End autopilot_model.

(** ** Switching the autopilot on and off (QuantumMazeGame) *)

Section game_model.
Context {F : Type} `{Float F}.

(** An int of a waypoint where a float is computed with. *)
Variable of_int : Z → F.

Definition waypoint (p : pt) : F * F := (of_int p.1, of_int p.2).

(** [_auto_select]: [start_px] is the player's centre in whole pixels
    (the floor division of [_pt_to_cell] reads no more of it), [st] the
    autopilot fields and [auto_type].  The burst of particles of the
    [else] branch is not part of the state modelled. *)
Definition auto_select (lvl : Level) (key : string) (start_px : pt)
    (st : Game F * option string) : outcome (Game F * option string) :=
  let pf := PathFinder_init lvl in
  let planned :=
    if decide (key = "short")
    then (shortest pf start_px (level_end lvl), "short")
    else (longest_approx pf start_px, "long") in
  match planned.1 with
  | Ret path =>
      if decide (2 ≤ Z.of_nat (length path))
      then Ret (mkGame true false (waypoint <$> path) 1, Some planned.2)
      else Ret (st.1, Some planned.2)
  | Raise e => Raise e
  | Timeout => Timeout
  end.

(** [_reverse_moves] *)
Definition reverse_moves (σ : gmap nat (list (F * F))) (rec : MoveRecorder F)
    (start_center : F * F) (st : Game F * option string)
    : outcome (gmap nat (list (F * F)) * (Game F * option string)) :=
  match backtrack_from σ rec start_center true with
  | Ret (rb, σ') =>
      match σ' !! rb with
      | None => Raise NoObject
      | Some path =>
          if decide (2 ≤ Z.of_nat (length path))
          then Ret (σ', (mkGame true true path 1, Some "reverse"))
          else Ret (σ', st)
      end
  | Raise e => Raise e
  | Timeout => Timeout
  end.

(** The part of [start_level] that resets the autopilot and restarts
    the recording at the player's centre. *)
Definition start_level (σ : gmap nat (list (F * F))) (rec : MoveRecorder F)
    (center : F * F)
    : outcome (gmap nat (list (F * F)) * MoveRecorder F * (Game F * option string)) :=
  match clear σ rec with
  | Ret (σ1, rec1) =>
      match add σ1 rec1 center with
      | Ret (σ2, rec2) => Ret (σ2, rec2, (mkGame false false [] 0, None))
      | Raise e => Raise e
      | Timeout => Timeout
      end
  | Raise e => Raise e
  | Timeout => Timeout
  end.

(** Switching off: a movement key pressed ([handle_events]), time or
    health run out, the end zone reached ([update]). *)
Definition auto_off (gm : Game F) : Game F :=
  mkGame false false (auto_path gm) (auto_index gm).

Variable arrive : F.

(** The autopilot fields through a session: set by [__init__], then
    changed by the functions above and by the ticks of [update]. *)
Inductive reachable : Game F → Prop :=
  | reach_init : reachable (mkGame false false [] 0)
  | reach_start gm : reachable gm → reachable (mkGame false false [] 0)
  | reach_select gm ty lvl key px gm' ty' :
      reachable gm → auto_select lvl key px (gm, ty) = Ret (gm', ty') → reachable gm'
  | reach_reverse gm ty σ rec c σ' gm' ty' :
      reachable gm → reverse_moves σ rec c (gm, ty) = Ret (σ', (gm', ty')) → reachable gm'
  | reach_follow gm center manual gm' v :
      reachable gm → auto_follow arrive gm center manual = Ret (gm', v) → reachable gm'
  | reach_off gm : reachable gm → reachable (auto_off gm).

(** What holds of the autopilot fields all along. *)
Definition auto_ok (gm : Game F) : Prop :=
  0 ≤ auto_index gm ≤ Z.of_nat (length (auto_path gm)) ∧
  (auto_mode gm = true →
   2 ≤ Z.of_nat (length (auto_path gm)) ∧
   1 ≤ auto_index gm < Z.of_nat (length (auto_path gm))) ∧
  (reverse_mode gm = true → auto_mode gm = true).

End game_model.

(** ** Slow motion (class TimeManipulator) *)

Record TimeManipulator (F : Type) := mkTime {
  active : bool;
  time_scale : F;
  cooldown : Z;
  max_cooldown : Z
}.
Arguments mkTime {F}.
Arguments active {F}.
Arguments time_scale {F}.
Arguments cooldown {F}.
Arguments max_cooldown {F}.

Section time_model.
Context {F : Type}.

(** The floats [0.3] and [1.0]. *)
Variables (slow full : F).

(** [TimeManipulator.__init__] *)
Definition TimeManipulator_init : TimeManipulator F := mkTime false full 0 300.

(** [TimeManipulator.activate]: the object after the call and the value
    returned. *)
Definition activate (tm : TimeManipulator F) : TimeManipulator F * bool :=
  if decide (cooldown tm ≤ 0) then
    let a := negb (active tm) in
    (mkTime a (if a then slow else full) (if a then max_cooldown tm else 0)
            (max_cooldown tm), true)
  else (tm, false).

(** [TimeManipulator.update] *)
Definition TimeManipulator_update (tm : TimeManipulator F) : TimeManipulator F :=
  if decide (0 < cooldown tm) then
    let c := cooldown tm - 1 in
    if bool_decide (c ≤ 0) && active tm
    then mkTime false full c (max_cooldown tm)
    else mkTime (active tm) (time_scale tm) c (max_cooldown tm)
  else tm.

(** The states a manipulator goes through. *)
Inductive tm_reachable : TimeManipulator F → Prop :=
  | tm_init : tm_reachable TimeManipulator_init
  | tm_activate tm : tm_reachable tm → tm_reachable (activate tm).1
  | tm_tick tm : tm_reachable tm → tm_reachable (TimeManipulator_update tm).

End time_model.

(** ** The player (class Player) *)

(** [class Reality(Enum)] *)
Inductive Reality : Type := NORMAL | SPECTRAL | TIME_SHIFT | GRAVITY_SHIFT | QUANTUM.

#[global] Instance Reality_eq_dec : EqDecision Reality.
Proof. solve_decision. Defined.

(** The fields [move] and [damage] read or write ([speed] as the float
    it is multiplied into). *)
Record Player (F : Type) := mkPlayer {
  p_x : F;
  p_y : F;
  p_speed : F;
  health : Z;
  invuln : Z;
  trail : list (F * F);
  trail_max : Z;
  gravity_dir : Z
}.
Arguments mkPlayer {F}.
Arguments p_x {F}.
Arguments p_y {F}.
Arguments p_speed {F}.
Arguments health {F}.
Arguments invuln {F}.
Arguments trail {F}.
Arguments trail_max {F}.
Arguments gravity_dir {F}.

Section player_model.
Context {F : Type} `{Float F}.

(** The float [0.7] and the negation of a float. *)
Variable slowdown : F.
Variable fneg : F → F.

(** [any(fut.colliderect(w) for w in walls)] for the rectangle of the
    player's size placed with its corner at the given point. *)
Variable collides : F → F → bool.

(** [Player.move]: the player after the call and the value returned. *)
Definition move (p : Player F) (dx dy : F) (reality : Reality) (dt_scale : F)
    : Player F * bool :=
  let inv := if decide (0 < invuln p) then invuln p - 1 else invuln p in
  let spd := fmul (p_speed p) dt_scale in
  let spd := if decide (reality = TIME_SHIFT) then fmul spd slowdown else spd in
  let dy := if bool_decide (reality = GRAVITY_SHIFT) && bool_decide (gravity_dir p = -1)
            then fneg dy else dy in
  let nx := fadd (p_x p) (fmul dx spd) in
  let ny := fadd (p_y p) (fmul dy spd) in
  if negb (collides nx ny) then
    let tr := trail p ++ [(p_x p, p_y p)] in
    let tr := if decide (trail_max p < Z.of_nat (length tr)) then drop 1 tr else tr in
    (mkPlayer nx ny (p_speed p) (health p) inv tr (trail_max p) (gravity_dir p), true)
  else
    (mkPlayer (p_x p) (p_y p) (p_speed p) (health p) inv (trail p) (trail_max p)
              (gravity_dir p), false).

(** [Player.damage] *)
Definition damage (p : Player F) (n : Z) : Player F * bool :=
  if decide (invuln p ≤ 0) then
    (mkPlayer (p_x p) (p_y p) (p_speed p) (health p - n) 24 (trail p) (trail_max p)
              (gravity_dir p), true)
  else (p, false).

(** A sequence of [move] calls, each with its arguments. *)
Fixpoint move_all (p : Player F) (args : list (F * F * Reality * F)) : Player F :=
  match args with
  | [] => p
  | (dx, dy, r, dt) :: rest => move_all (move p dx dy r dt).1 rest
  end.

End player_model.

(** ** Volume (SoundManager.set_volume) *)

Section volume_model.
Context {F : Type} `{Float F}.

(** The float [1.0]. *)
Variable f1 : F.

(** [min(a, b)] and [max(a, b)] of two arguments: the first one unless
    the second is smaller (greater). *)
Definition py_min (a b : F) : F := if flt b a then b else a.
Definition py_max (a b : F) : F := if flt a b then b else a.

(** [set_volume]: the value stored in [self.volume]. *)
Definition set_volume (volume : F) : F := py_max f0 (py_min f1 volume).

End volume_model.

(** ** An arithmetic to compute examples with: integers and an infinity *)

Inductive xnum : Type := Fin (z : Z) | Inf.

Definition xlift (f : Z → Z → Z) (a b : xnum) : xnum :=
  match a, b with
  | Fin x, Fin y => Fin (f x y)
  | _, _ => Inf
  end.

Definition xlt (a b : xnum) : bool :=
  match a, b with
  | Fin x, Fin y => bool_decide (x < y)
  | Fin _, Inf => true
  | Inf, _ => false
  end.

Definition xle (a b : xnum) : bool := negb (xlt b a).

Definition xeq (a b : xnum) : bool :=
  match a, b with
  | Fin x, Fin y => bool_decide (x = y)
  | Inf, Inf => true
  | _, _ => false
  end.

#[global] Instance xnum_float : Float xnum := {|
  fadd := xlift Z.add;
  fsub := xlift Z.sub;
  fmul := xlift Z.mul;
  fdiv := xlift Z.div;
  fhypot := xlift (λ x y, Z.sqrt (x * x + y * y));
  flt := xlt;
  fle := xle;
  feq := xeq;
  f0 := Fin 0;
  finf := Inf
|}.

(** ** Examples

    Small grids, a recorder and a game to evaluate the definitions on. *)

(** Three by three cells with the middle one walled. *)
Definition ring_level : Level := mkLevel 120 120 [mkRect 40 40 40 40].

(** A world whose width and height are not multiples of the cell size. *)
Definition ragged_level : Level := mkLevel 1500 1000 [].

(** Two by two cells and a rectangle of no extent inside cell (1, 1). *)
Definition speck_level : Level := mkLevel 80 80 [mkRect 45 45 0 0].

(** One cell, walled. *)
Definition walled_level : Level := mkLevel 40 40 [mkRect 0 0 40 40].

Definition sample_line : list (xnum * xnum) :=
  [(Fin 0, Fin 0); (Fin 8, Fin 0); (Fin 16, Fin 0); (Fin 24, Fin 0)].

(** A store whose list 0 holds [sample_line], and the recorder on it. *)
Definition line_store : gmap nat (list (xnum * xnum)) := {[ 0%nat := sample_line ]}.

Definition line_recorder : MoveRecorder xnum :=
  mkRecorder (Fin 8) 20000 0%nat (Some (Fin 24, Fin 0)).

(** Three waypoints in a row and a game following them towards the
    second one. *)
Definition row_route : list (xnum * xnum) :=
  [(Fin 0, Fin 0); (Fin 40, Fin 0); (Fin 80, Fin 0)].

Definition row_game : Game xnum := mkGame true false row_route 1.

(** A player as [Player.__init__] makes it, at the start of a level,
    in a world without walls. *)
Definition new_player : Player xnum := mkPlayer (Fin 50) (Fin 50) (Fin 5) 100 0 [] 14 1.

Definition no_wall (x y : xnum) : bool := false.

Definition xneg (a : xnum) : xnum := fsub f0 a.

(** ** Facts about the grid index *)

Lemma elem_of_range (a b x : Z) : x ∈ range a b ↔ a ≤ x < b.
Proof. unfold range. rewrite elem_of_seqZ. lia. Qed.

Lemma elem_of_wall_cells (ncols nrows : Z) (w : Rect) (c : cell) :
  c ∈ wall_cells ncols nrows w ↔
  (Z.max 0 (left w / CELL_SIZE) ≤ c.1 ≤ Z.min (ncols - 1) ((right w - 1) / CELL_SIZE)) ∧
  (Z.max 0 (top w / CELL_SIZE) ≤ c.2 ≤ Z.min (nrows - 1) ((bottom w - 1) / CELL_SIZE)).
Proof.
  unfold wall_cells. destruct c as [cx cy]. simpl.
  rewrite list_elem_of_bind. split.
  - intros (x & Hin & Hx). apply list_elem_of_bind in Hin as (y & Hin & Hy).
    apply list_elem_of_singleton in Hin. inversion Hin; subst.
    apply elem_of_range in Hx, Hy. lia.
  - intros [Hx Hy]. exists cx. split.
    + apply list_elem_of_bind. exists cy. split; [apply list_elem_of_singleton; done|].
      apply elem_of_range. lia.
    + apply elem_of_range. lia.
Qed.

Lemma elem_of_add_cells (l : list cell) (b : gset (Z * Z)) (c : cell) :
  c ∈ foldl (λ b c, b ∪ {[ c ]}) b l ↔ c ∈ b ∨ c ∈ l.
Proof.
  revert b. induction l as [|x l IH]; intros b; simpl.
  - rewrite elem_of_nil. tauto.
  - rewrite IH, elem_of_cons, elem_of_union, elem_of_singleton. intuition congruence.
Qed.

Lemma elem_of_add_walls (ncols nrows : Z) (ws : list Rect) (b : gset (Z * Z)) (c : cell) :
  c ∈ foldl (add_wall ncols nrows) b ws ↔
  c ∈ b ∨ ∃ w, w ∈ ws ∧ c ∈ wall_cells ncols nrows w.
Proof.
  revert b. induction ws as [|w ws IH]; intros b; simpl.
  - split; [auto|]. intros [?|(w & Hw & _)]; [done|]. by apply elem_of_nil in Hw.
  - rewrite IH. unfold add_wall. rewrite elem_of_add_cells. split.
    + intros [[?|?]|(w' & ? & ?)]; [auto| |].
      * right. exists w. split; [left|done].
      * right. exists w'. split; [by right|done].
    + intros [?|(w' & Hw' & ?)]; [auto|].
      apply elem_of_cons in Hw' as [->|?]; [auto|]. right. eauto.
Qed.

Lemma elem_of_blocked_init (lvl : Level) (c : cell) :
  c ∈ blocked (PathFinder_init lvl) ↔
  ∃ w, w ∈ walls lvl ∧
       c ∈ wall_cells (world_w lvl / CELL_SIZE) (world_h lvl / CELL_SIZE) w.
Proof.
  simpl. rewrite elem_of_add_walls. split; [|eauto].
  intros [H|H]; [|done]. by apply not_elem_of_empty in H.
Qed.

(** One coordinate: the clamped index range of a wall against a cell
    inside the grid, for a wall of positive extent. *)
Lemma axis_overlap (lo len n k : Z) :
  0 < len → 0 ≤ k < n →
  (Z.max 0 (lo / CELL_SIZE) ≤ k ≤ Z.min (n - 1) ((lo + len - 1) / CELL_SIZE)) ↔
  Z.max lo (k * CELL_SIZE) < Z.min (lo + len) ((k + 1) * CELL_SIZE).
Proof.
  unfold CELL_SIZE. intros Hlen Hk.
  pose proof (Z.div_mod lo 40 ltac:(lia)) as E1.
  pose proof (Z.mod_pos_bound lo 40 ltac:(lia)) as B1.
  pose proof (Z.div_mod (lo + len - 1) 40 ltac:(lia)) as E2.
  pose proof (Z.mod_pos_bound (lo + len - 1) 40 ltac:(lia)) as B2.
  lia.
Qed.

(** * Claims about the grid index *)

(** C8 as stated fails: a world 1500 wide has 37 columns, not
    ceil(1500 / 40) = 38. *)
Lemma ragged_not_ceil :
  ¬ (cols (PathFinder_init ragged_level) = ceil_div (world_w ragged_level) CELL_SIZE ∧
     rows (PathFinder_init ragged_level) = ceil_div (world_h ragged_level) CELL_SIZE).
Proof. intros [H _]. vm_compute in H. discriminate. Qed.

(** C8, as the code has it: the numbers of columns and rows are the
    quotients rounded down, the numbers of whole cells that fit; they are
    the ceilings exactly when the cell size divides the dimension. *)
Theorem grid_dimensions_floor (lvl : Level) :
  let pf := PathFinder_init lvl in
  (CELL_SIZE * cols pf ≤ world_w lvl < CELL_SIZE * (cols pf + 1)) ∧
  (CELL_SIZE * rows pf ≤ world_h lvl < CELL_SIZE * (rows pf + 1)) ∧
  (cols pf = ceil_div (world_w lvl) CELL_SIZE ↔ world_w lvl `mod` CELL_SIZE = 0) ∧
  (rows pf = ceil_div (world_h lvl) CELL_SIZE ↔ world_h lvl `mod` CELL_SIZE = 0).
Proof.
  simpl. unfold ceil_div, CELL_SIZE.
  pose proof (Z.div_mod (world_w lvl) 40 ltac:(lia)).
  pose proof (Z.mod_pos_bound (world_w lvl) 40 ltac:(lia)).
  pose proof (Z.div_mod (world_h lvl) 40 ltac:(lia)).
  pose proof (Z.mod_pos_bound (world_h lvl) 40 ltac:(lia)).
  pose proof (Z.div_mod (- world_w lvl) 40 ltac:(lia)).
  pose proof (Z.mod_pos_bound (- world_w lvl) 40 ltac:(lia)).
  pose proof (Z.div_mod (- world_h lvl) 40 ltac:(lia)).
  pose proof (Z.mod_pos_bound (- world_h lvl) 40 ltac:(lia)).
  lia.
Qed.

(** C2 as stated fails: a rectangle of width and height zero placed
    inside cell (1, 1) marks that cell blocked although it overlaps no
    cell by a positive area. *)
Lemma speck_blocks_cell :
  in_grid (PathFinder_init speck_level) (1, 1) ∧
  ¬ ((1, 1) ∈ blocked (PathFinder_init speck_level) ↔
     ∃ w, w ∈ walls speck_level ∧ overlaps_cell w (1, 1)).
Proof.
  split; [vm_compute; intuition discriminate|].
  intros [H _]. destruct H as (w & Hw & Ho).
  - apply (bool_decide_unpack _). vm_compute. exact I.
  - apply list_elem_of_singleton in Hw as ->. destruct Ho as [Ho _].
    vm_compute in Ho. discriminate.
Qed.

(** C2, as the code has it: for walls of positive width and height, a
    cell of the grid is blocked exactly when its pixel square shares a
    region of positive area with some wall (the maximal edges being
    exclusive); a cell that overlaps no wall is free, and only cells of
    the grid are ever blocked. *)
Theorem blocked_iff_overlap (lvl : Level) (c : cell) :
  (∀ w, w ∈ walls lvl → 0 < rw w ∧ 0 < rh w) →
  let pf := PathFinder_init lvl in
  (in_grid pf c →
   (c ∈ blocked pf ↔ ∃ w, w ∈ walls lvl ∧ overlaps_cell w c)) ∧
  (in_grid pf c → (∀ w, w ∈ walls lvl → ¬ overlaps_cell w c) → is_free pf c) ∧
  (c ∈ blocked pf → in_grid pf c).
Proof.
  intros Hpos pf.
  assert (Hiff : in_grid pf c →
            (c ∈ blocked pf ↔ ∃ w, w ∈ walls lvl ∧ overlaps_cell w c)).
  { intros [Hx Hy]. unfold pf. rewrite elem_of_blocked_init.
    split; intros (w & Hw & H); exists w; (split; [done|]);
      destruct (Hpos _ Hw) as [Hrw Hrh];
      pose proof (axis_overlap (rx w) (rw w) _ _ Hrw Hx) as Ax;
      pose proof (axis_overlap (ry w) (rh w) _ _ Hrh Hy) as Ay.
    - apply elem_of_wall_cells in H as [H1 H2]. split; [by apply Ax|by apply Ay].
    - destruct H as [H1 H2]. apply elem_of_wall_cells.
      split; [by apply Ax|by apply Ay]. }
  split; [done|]. split.
  - intros Hin Hno. split; [done|]. rewrite (Hiff Hin).
    intros (w & Hw & Ho). by eapply Hno.
  - unfold pf. rewrite elem_of_blocked_init. intros (w & _ & H).
    apply elem_of_wall_cells in H as [H1 H2]. unfold in_grid. simpl. lia.
Qed.

Example blocked_iff_overlap_witness :
  (∀ w, w ∈ walls ring_level → 0 < rw w ∧ 0 < rh w) ∧
  in_grid (PathFinder_init ring_level) (1, 1) ∧
  ((1, 1) ∈ blocked (PathFinder_init ring_level) ↔
   ∃ w, w ∈ walls ring_level ∧ overlaps_cell w (1, 1)).
Proof.
  assert (H : ∀ w, w ∈ walls ring_level → 0 < rw w ∧ 0 < rh w).
  { intros w Hw. apply list_elem_of_singleton in Hw as ->. simpl. lia. }
  assert (Hin : in_grid (PathFinder_init ring_level) (1, 1)).
  { apply (bool_decide_unpack _). vm_compute. exact I. }
  split; [exact H|]. split; [exact Hin|].
  exact (proj1 (blocked_iff_overlap ring_level (1, 1) H) Hin).
Defined.

(** ** Facts about loops *)

Lemma run_add {S R : Type} (body : S → S + R) (a b : nat) (s : S) :
  run body (a + b) s =
  match run body a s with inl s' => run body b s' | inr r => inr r end.
Proof.
  revert s. induction a as [|a IH]; intros s; simpl; [done|].
  destruct (body s); [apply IH|done].
Qed.

Lemma while_pow_run {S R : Type} (body : S → S + R) (n : nat) (s : S) :
  while_pow body n s = run body (2 ^ n) s.
Proof.
  revert s. induction n as [|n IH]; intros s.
  - simpl. by destruct (body s).
  - cbn [while_pow]. replace (2 ^ Datatypes.S n)%nat with (2 ^ n + 2 ^ n)%nat
      by (rewrite Nat.pow_succ_r'; lia).
    rewrite run_add, IH. destruct (run body (2 ^ n) s); [apply IH|done].
Qed.

Lemma run_mono {S R : Type} (body : S → S + R) (m m' : nat) (s : S) (r : R) :
  run body m s = inr r → (m ≤ m')%nat → run body m' s = inr r.
Proof.
  intros Hr Hle. replace m' with (m + (m' - m))%nat by lia.
  by rewrite run_add, Hr.
Qed.

Section loop_rules.
Context {S R : Type} (body : S → S + R) (I : S → Prop).
Hypothesis I_step : ∀ s s', I s → body s = inl s' → I s'.

Lemma run_inv_inl (m : nat) (s s' : S) :
  I s → run body m s = inl s' → I s'.
Proof.
  revert s. induction m as [|m IH]; intros s Hs; simpl.
  - by intros [= <-].
  - destruct (body s) as [s1|r] eqn:E; [|done]. apply IH. eauto.
Qed.

Lemma run_inv_inr (m : nat) (s : S) (r : R) :
  I s → run body m s = inr r → ∃ s0, I s0 ∧ body s0 = inr r.
Proof.
  revert s. induction m as [|m IH]; intros s Hs; simpl; [done|].
  destruct (body s) as [s1|r'] eqn:E.
  - apply IH. eauto.
  - intros [= <-]. eauto.
Qed.

Variable mu : S → Z.
Hypothesis mu_step : ∀ s s', I s → body s = inl s' → 0 ≤ mu s' ≤ mu s - 1.

Lemma run_terminates (m : nat) (s : S) :
  I s → mu s < Z.of_nat m → (0 < m)%nat → ∃ r, run body m s = inr r.
Proof.
  revert s. induction m as [|m IH]; intros s Hs Hlt Hm; [lia|]. simpl.
  destruct (body s) as [s1|r] eqn:E; [|eauto].
  pose proof (mu_step _ _ Hs E). apply IH; [eauto|lia|lia].
Qed.
End loop_rules.

(** ** Facts about heaps, the heuristic and walks *)

Lemma entry_ltb_true (a b : entry) : entry_ltb a b = true → e_f a ≤ e_f b.
Proof. unfold entry_ltb. repeat case_decide; try done; lia. Qed.

Lemma entry_ltb_false (a b : entry) : entry_ltb a b = false → e_f b ≤ e_f a.
Proof. unfold entry_ltb. repeat case_decide; try done; lia. Qed.

Lemma heappop_None (pq : list entry) : heappop pq = None → pq = [].
Proof.
  destruct pq as [|e rest]; [done|]. simpl.
  destruct (heappop rest) as [[m rest']|]; [|done]. by destruct (entry_ltb m e).
Qed.

Lemma heappop_Some (pq pq' : list entry) (e : entry) :
  heappop pq = Some (e, pq') →
  pq ≡ₚ e :: pq' ∧ ∀ e', e' ∈ pq → e_f e ≤ e_f e'.
Proof.
  revert e pq'. induction pq as [|a rest IH]; intros e pq'; simpl; [done|].
  destruct (heappop rest) as [[m rest']|] eqn:E.
  - destruct (IH _ _ eq_refl) as [Hp Hmin].
    destruct (entry_ltb m a) eqn:Hlt; intros [= <- <-].
    + split.
      * rewrite Hp. apply Permutation_swap.
      * intros e' [->|Hin]%elem_of_cons; [by apply entry_ltb_true|auto].
    + split; [done|].
      intros e' [->|Hin]%elem_of_cons; [lia|].
      apply entry_ltb_false in Hlt. specialize (Hmin _ Hin). lia.
  - apply heappop_None in E as ->. intros [= <- <-]. split; [done|].
    intros e' ->%list_elem_of_singleton. lia.
Qed.

Lemma elem_of_neighbors (pf : PathFinder) (c n : cell) :
  n ∈ neighbors pf c ↔
  is_free pf n ∧
  (n = (c.1 + 1, c.2) ∨ n = (c.1 - 1, c.2) ∨ n = (c.1, c.2 + 1) ∨ n = (c.1, c.2 - 1)).
Proof.
  unfold neighbors. rewrite list_elem_of_filter, !elem_of_cons, elem_of_nil. tauto.
Qed.

(** The heuristic is consistent: it drops by at most one along an edge. *)
Lemma h_consistent (pf : PathFinder) (c n g : cell) :
  n ∈ neighbors pf c → h c g ≤ 1 + h n g.
Proof.
  rewrite elem_of_neighbors. unfold h. destruct c, n, g; simpl.
  intros [_ [E|[E|[E|E]]]]; inversion E; subst; lia.
Qed.

Lemma walk_nonneg (pf : PathFinder) (a c : cell) (k : Z) : walk pf a c k → 0 ≤ k.
Proof. induction 1; lia. Qed.

Lemma walk_cons (pf : PathFinder) (a b c : cell) (k : Z) :
  b ∈ neighbors pf a → walk pf b c k → walk pf a c (k + 1).
Proof.
  intros Hb. induction 1 as [|c n k Hw IH Hn].
  - eapply walk_step; [apply walk_here|done].
  - eapply walk_step; eauto.
Qed.

Lemma steps_cons {A : Type} (a : A) (l : list A) : steps (a :: l) = steps l + 1.
Proof. unfold steps. simpl. lia. Qed.

Lemma steps_snoc {A : Type} (a : A) (l : list A) : steps (l ++ [a]) = steps l + 1.
Proof. unfold steps. rewrite length_app. simpl. lia. Qed.

Lemma is_path_walk (pf : PathFinder) (l : list cell) (a c : cell) :
  is_path pf (a :: l) → last (a :: l) = Some c → walk pf a c (steps (a :: l)).
Proof.
  revert a. induction l as [|b l IH]; intros a Hp Hl.
  - simpl in Hl. injection Hl as <-. apply walk_here.
  - destruct Hp as [Hb Hp]. rewrite steps_cons.
    eapply walk_cons; [done|]. apply IH; [done|]. by rewrite last_cons_cons in Hl.
Qed.

Lemma path_walk (pf : PathFinder) (s c : cell) (l : list cell) :
  path_from_to pf s c l → walk pf s c (steps l).
Proof.
  intros (Hh & Hl & Hp). destruct l as [|a l]; [done|].
  injection Hh as ->. by apply is_path_walk.
Qed.

Lemma is_path_snoc (pf : PathFinder) (l : list cell) (p c : cell) :
  is_path pf l → last l = Some p → c ∈ neighbors pf p → is_path pf (l ++ [c]).
Proof.
  induction l as [|a l IH]; intros Hp Hl Hc; [done|].
  destruct l as [|b l].
  - simpl in Hl. injection Hl as ->. simpl. auto.
  - destruct Hp as [Hb Hp]. split; [done|]. apply IH; [done| |done].
    by rewrite last_cons_cons in Hl.
Qed.

Lemma path_snoc (pf : PathFinder) (s p c : cell) (l : list cell) :
  path_from_to pf s p l → c ∈ neighbors pf p → path_from_to pf s c (l ++ [c]).
Proof.
  intros (Hh & Hl & Hp) Hc. split; [|split].
  - destruct l; [done|]. done.
  - by rewrite last_snoc.
  - by eapply is_path_snoc.
Qed.

(** ** The search loop keeps its invariants *)

Section astar.
Variables (pf : PathFinder) (s g : cell).

Lemma gget_bounds (gs : gmap (Z * Z) Z) (n : cell) :
  gscore_ok pf s gs → 0 ≤ gget gs n ≤ BIG.
Proof.
  intros Hg. unfold gget. destruct (gs !! n) as [k|] eqn:E; simpl.
  - destruct (Hg _ _ E) as [Hw ?]. apply walk_nonneg in Hw. lia.
  - unfold BIG. lia.
Qed.

Lemma chain_insert (came : gmap (Z * Z) (option (Z * Z))) (cur c : cell)
    (par : option cell) (l : list cell) :
  came !! cur = None → chain came c l → chain (<[cur := par]> came) c l.
Proof.
  intros Hn. induction 1 as [c Hc|c p l Hc _ IH].
  - apply chain_root. rewrite lookup_insert_ne; [done|congruence].
  - apply chain_link with p; [|done]. rewrite lookup_insert_ne; [done|congruence].
Qed.

(** Along any walk short of [BIG], either the recorded cost is at most
    the length walked, or some queued entry has priority at most that
    length plus the heuristic. *)
Lemma frontier (pq : list entry) (came : gmap (Z * Z) (option (Z * Z)))
    (gs : gmap (Z * Z) Z) (c : cell) (m : Z) :
  fold_inv pf s g [] 0 s came (pq, gs) →
  walk pf s c m → m < BIG →
  gget gs c ≤ m ∨ ∃ e, e ∈ pq ∧ e_f e ≤ m + h c g.
Proof.
  intros [HE HW HK H0]. simpl in *.
  induction 1 as [|c n k Hw IH Hn]; intros Hm.
  - left. unfold gget. by rewrite H0.
  - pose proof (walk_nonneg _ _ _ _ Hw) as Hk.
    pose proof (h_consistent _ _ _ g Hn) as Hc.
    destruct IH as [Hle|(e & He & Hf)]; [lia| |].
    + unfold gget in Hle. destruct (gs !! c) as [k'|] eqn:E; simpl in Hle;
        [|unfold BIG in *; lia].
      destruct (HK _ _ E) as [[par Hin]|[_ Hcl]].
      * right. eexists. split; [exact Hin|]. unfold e_f. simpl. lia.
      * destruct (Hcl _ Hn) as [?|(_ & _ & Hnil)]; [left; lia|].
        by apply elem_of_nil in Hnil.
    + right. exists e. split; [done|lia].
Qed.

(** The first time a cell leaves the heap, its cost is minimal. *)
Lemma first_pop (st : astar_state) (e : entry) (pq' : list entry) (m : Z) :
  astar_inv pf s g st →
  heappop (a_pq st) = Some (e, pq') →
  a_came st !! e_cur e = None →
  walk pf s (e_cur e) m → e_d e ≤ m.
Proof.
  intros [Hf _] Hpop Hnone Hw.
  destruct (heappop_Some _ _ _ Hpop) as [Hperm Hmin].
  assert (He : e ∈ a_pq st) by (rewrite Hperm; left).
  destruct (fi_entries _ _ _ _ _ _ _ _ Hf e He) as (Hef & Hd & _). simpl in *.
  destruct (decide (m < BIG)) as [Hm|]; [|lia].
  destruct (frontier _ _ _ _ _ Hf Hw Hm) as [Hle|(e' & He' & Hf')].
  - unfold gget in Hle. destruct (a_gscore st !! e_cur e) as [k|] eqn:E; simpl in Hle;
      [|unfold BIG in *; lia].
    destruct (fi_closed _ _ _ _ _ _ _ _ Hf _ _ E) as [[par Hin]|[Hs _]]; simpl in *.
    + specialize (Hmin _ Hin). unfold e_f in Hmin at 2. simpl in Hmin. lia.
    + rewrite Hnone in Hs. by destruct Hs.
  - specialize (Hmin _ He'). lia.
Qed.

Lemma entry_walk (pq : list entry) (came : gmap (Z * Z) (option (Z * Z))) (e : entry) :
  entries_ok pf s g pq came → e ∈ pq → walk pf s (e_cur e) (e_d e).
Proof.
  intros HE He. destruct (HE _ He) as (_ & _ & Hp).
  destruct (e_par e) as [p|].
  - destruct Hp as (_ & Hn & Hw). replace (e_d e) with (e_d e - 1 + 1) by lia.
    by eapply walk_step.
  - destruct Hp as [-> ->]. apply walk_here.
Qed.

(** Finalizing the popped cell keeps [came] sound. *)
Lemma came_ok_pop (st : astar_state) (e : entry) (pq' : list entry) :
  astar_inv pf s g st →
  heappop (a_pq st) = Some (e, pq') →
  a_came st !! e_cur e = None →
  came_ok pf s (<[e_cur e := e_par e]> (a_came st)).
Proof.
  intros Hinv Hpop Hnone.
  pose proof (λ m, first_pop _ _ _ m Hinv Hpop Hnone) as Hfirst.
  destruct Hinv as [Hf HM].
  destruct (heappop_Some _ _ _ Hpop) as [Hperm _].
  assert (He : e ∈ a_pq st) by (rewrite Hperm; left).
  destruct (fi_entries _ _ _ _ _ _ _ _ Hf e He) as (_ & Hd & Hp). simpl in *.
  intros c par Hc. destruct (decide (c = e_cur e)) as [->|Hne].
  - rewrite lookup_insert_eq in Hc. injection Hc as <-.
    destruct (e_par e) as [p|] eqn:Epar.
    + destruct Hp as ([pp Hpp] & Hn & Hw).
      destruct (HM _ _ Hpp) as (l & Hch & Hpath & Hst & Hopt).
      exists (l ++ [e_cur e]). split; [|split; [|split]].
      * apply chain_link with p; [by rewrite lookup_insert_eq|].
        by apply chain_insert.
      * by eapply path_snoc.
      * rewrite steps_snoc. specialize (Hopt _ Hw). lia.
      * intros m Hm. rewrite steps_snoc. specialize (Hopt _ Hw).
        specialize (Hfirst _ Hm). lia.
    + destruct Hp as [Hs H0]. exists [e_cur e]. split; [|split; [|split]].
      * apply chain_root. by rewrite lookup_insert_eq.
      * rewrite Hs. done.
      * unfold steps, BIG. simpl. lia.
      * intros m Hm. apply walk_nonneg in Hm. unfold steps. simpl. lia.
  - rewrite lookup_insert_ne in Hc by done.
    destruct (HM _ _ Hc) as (l & Hch & Hrest). exists l. split; [|done].
    by apply chain_insert.
Qed.

(** One neighbour relaxed. *)
Lemma relax_inv (pend : list cell) (d : Z) (cur n : cell)
    (came : gmap (Z * Z) (option (Z * Z))) (acc : list entry * gmap (Z * Z) Z) :
  is_Some (came !! cur) → walk pf s cur d → n ∈ neighbors pf cur →
  fold_inv pf s g (n :: pend) d cur came acc →
  fold_inv pf s g pend d cur came (relax g d cur acc n).
Proof.
  intros Hcur Hw Hn [HE HW HK H0]. destruct acc as [pq gs]. simpl in *.
  pose proof (walk_nonneg _ _ _ _ Hw) as Hd.
  pose proof (gget_bounds gs n HW) as Hb.
  unfold relax. simpl. case_decide as Hlt; simpl.
  - split; simpl.
    + intros e [He|He]%elem_of_app; [auto|].
      apply list_elem_of_singleton in He as ->. unfold e_f, e_d, e_cur, e_par. simpl.
      split; [done|]. split; [lia|]. split; [done|]. split; [done|].
      by replace (d + 1 - 1) with d by lia.
    + intros c k. destruct (decide (c = n)) as [->|Hne].
      * rewrite lookup_insert_eq. intros [= <-]. split; [by eapply walk_step|lia].
      * rewrite lookup_insert_ne by done. apply HW.
    + intros c k. destruct (decide (c = n)) as [->|Hne].
      * rewrite lookup_insert_eq. intros [= <-]. left. exists (Some cur).
        apply elem_of_app. right. by apply list_elem_of_singleton.
      * rewrite lookup_insert_ne by done. intros Hc.
        destruct (HK _ _ Hc) as [[par Hin]|[Hs Hcl]].
        -- left. exists par. apply elem_of_app. by left.
        -- right. split; [done|]. intros n' Hn'.
           assert (Hmono : gget (<[n:=d + 1]> gs) n' ≤ gget gs n').
           { unfold gget at 1. destruct (decide (n' = n)) as [->|Hne'].
             - rewrite lookup_insert_eq. simpl. lia.
             - rewrite lookup_insert_ne by done. done. }
           destruct (Hcl _ Hn') as [?|(-> & -> & Hin)]; [left; lia|].
           apply elem_of_cons in Hin as [->|Hin]; [|by right].
           left. unfold gget. rewrite lookup_insert_eq. simpl. lia.
    + rewrite lookup_insert_ne; [done|]. intros <-.
      unfold gget in Hlt. rewrite H0 in Hlt. simpl in Hlt. lia.
  - split; simpl; [done|done| |done].
    intros c k Hc. destruct (HK _ _ Hc) as [?|[Hs Hcl]]; [by left|].
    right. split; [done|]. intros n' Hn'.
    destruct (Hcl _ Hn') as [?|(-> & -> & Hin)]; [by left|].
    apply elem_of_cons in Hin as [->|Hin]; [left; lia|by right].
Qed.

Lemma fold_relax_inv (pend : list cell) (d : Z) (cur : cell)
    (came : gmap (Z * Z) (option (Z * Z))) (acc : list entry * gmap (Z * Z) Z) :
  is_Some (came !! cur) → walk pf s cur d →
  (∀ n, n ∈ pend → n ∈ neighbors pf cur) →
  fold_inv pf s g pend d cur came acc →
  fold_inv pf s g [] d cur came (foldl (relax g d cur) acc pend).
Proof.
  intros Hcur Hw. revert acc. induction pend as [|n pend IH]; intros acc Hsub Hinv.
  - done.
  - simpl. apply IH.
    + intros n' Hn'. apply Hsub. by right.
    + apply relax_inv; [done|done| |done]. apply Hsub. by left.
Qed.

Lemma closed_ok_irrel (d d' : Z) (cur cur' : cell) (pq : list entry)
    (came : gmap (Z * Z) (option (Z * Z))) (gs : gmap (Z * Z) Z) :
  closed_ok pf g [] d cur pq came gs → closed_ok pf g [] d' cur' pq came gs.
Proof.
  intros HK c k Hc. destruct (HK _ _ Hc) as [?|[Hs Hcl]]; [by left|].
  right. split; [done|]. intros n Hn.
  destruct (Hcl _ Hn) as [?|(_ & _ & Hin)]; [by left|]. by apply elem_of_nil in Hin.
Qed.

(** The state right after the pop, with every neighbour of the popped
    cell still to be relaxed. *)
Lemma pop_fold_inv (st : astar_state) (e : entry) (pq' : list entry)
    (came' : gmap (Z * Z) (option (Z * Z))) :
  astar_inv pf s g st →
  heappop (a_pq st) = Some (e, pq') →
  came' = match a_came st !! e_cur e with
          | None => <[e_cur e := e_par e]> (a_came st)
          | Some _ => a_came st
          end →
  is_Some (came' !! e_cur e) ∧
  (∀ c, is_Some (a_came st !! c) → is_Some (came' !! c)) ∧
  fold_inv pf s g (neighbors pf (e_cur e)) (e_d e) (e_cur e) came' (pq', a_gscore st).
Proof.
  intros [[HE HW HK H0] HM] Hpop ->. simpl in *.
  destruct (heappop_Some _ _ _ Hpop) as [Hperm _].
  set (came' := match a_came st !! e_cur e with
                | None => <[e_cur e := e_par e]> (a_came st)
                | Some _ => a_came st end).
  assert (Hcur : is_Some (came' !! e_cur e)).
  { subst came'. destruct (a_came st !! e_cur e) eqn:E; [by rewrite E|].
    by rewrite lookup_insert_eq. }
  assert (Hmono : ∀ c, is_Some (a_came st !! c) → is_Some (came' !! c)).
  { subst came'. intros c Hc. destruct (a_came st !! e_cur e) eqn:E; [done|].
    destruct (decide (c = e_cur e)) as [->|Hne]; [by rewrite lookup_insert_eq|].
    by rewrite lookup_insert_ne. }
  split; [done|]. split; [done|]. split; simpl.
  - intros e' He'. assert (Hin : e' ∈ a_pq st) by (rewrite Hperm; by right).
    destruct (HE _ Hin) as (? & ? & Hp). split; [done|]. split; [done|].
    destruct (e_par e'); [|done]. destruct Hp as (? & ? & ?). auto.
  - done.
  - intros c k Hc. destruct (HK _ _ Hc) as [[par Hin]|[Hs Hcl]].
    + rewrite Hperm in Hin. apply elem_of_cons in Hin as [Heq|Hin].
      * right. subst e. unfold e_cur, e_d. simpl. split; [done|].
        intros n Hn. right. done.
      * left. eauto.
    + right. split; [auto|]. intros n Hn.
      destruct (Hcl _ Hn) as [?|(_ & _ & Hin)]; [by left|]. by apply elem_of_nil in Hin.
  - done.
Qed.

Lemma came_ok_step (st : astar_state) (e : entry) (pq' : list entry) :
  astar_inv pf s g st →
  heappop (a_pq st) = Some (e, pq') →
  came_ok pf s (match a_came st !! e_cur e with
                | None => <[e_cur e := e_par e]> (a_came st)
                | Some _ => a_came st
                end).
Proof.
  intros Hinv Hpop. destruct (a_came st !! e_cur e) eqn:E.
  - apply Hinv.
  - by eapply came_ok_pop.
Qed.

Lemma astar_body_inl (st st' : astar_state) :
  astar_inv pf s g st → astar_body pf g st = inl st' → astar_inv pf s g st'.
Proof.
  intros Hinv. unfold astar_body.
  destruct (heappop (a_pq st)) as [[e pq']|] eqn:Hpop; [|done].
  cbv zeta. case_decide as Hg; [done|]. intros [= <-].
  destruct (pop_fold_inv _ _ _ _ Hinv Hpop eq_refl) as (Hcur & Hmono & Hf).
  assert (Hw : walk pf s (e_cur e) (e_d e)).
  { destruct Hinv as [[HE _ _ _] _]. eapply entry_walk; [exact HE|].
    destruct (heappop_Some _ _ _ Hpop) as [Hperm _]. rewrite Hperm. left. }
  pose proof (fold_relax_inv _ _ _ _ _ Hcur Hw (λ n H, H) Hf) as [HE HW HK H0].
  split; simpl.
  - split; simpl; [done|done| |done]. by eapply closed_ok_irrel.
  - by eapply came_ok_step.
Qed.

Lemma astar_body_inr (st : astar_state) (came : gmap (Z * Z) (option (Z * Z))) :
  astar_inv pf s g st → astar_body pf g st = inr came → astar_post pf s g came.
Proof.
  intros Hinv. unfold astar_body.
  destruct (heappop (a_pq st)) as [[e pq']|] eqn:Hpop.
  - cbv zeta. case_decide as Hg; [|done]. intros [= <-].
    destruct (pop_fold_inv _ _ _ _ Hinv Hpop eq_refl) as (Hcur & _ & _).
    split; [by eapply came_ok_step|].
    intros Hnone. rewrite <- Hg in Hnone. rewrite Hnone in Hcur. by destruct Hcur.
  - intros [= <-]. apply heappop_None in Hpop.
    destruct Hinv as [Hf HM]. split; [done|].
    intros Hnone m Hw. destruct (decide (m < BIG)) as [Hm|]; [|lia].
    destruct (frontier _ _ _ _ _ Hf Hw Hm) as [Hle|(e & He & _)].
    + unfold gget in Hle. destruct (a_gscore st !! g) as [k|] eqn:E; simpl in Hle;
        [|unfold BIG in *; lia].
      destruct (fi_closed _ _ _ _ _ _ _ _ Hf _ _ E) as [[par Hin]|[Hs _]]; simpl in *.
      * rewrite Hpop in Hin. by apply elem_of_nil in Hin.
      * rewrite Hnone in Hs. by destruct Hs.
    + rewrite Hpop in He. by apply elem_of_nil in He.
Qed.

Lemma astar_init_inv : astar_inv pf s g (astar_init s g).
Proof.
  split; [split|]; simpl.
  - intros e ->%list_elem_of_singleton. unfold e_f, e_d, e_cur, e_par, BIG. simpl.
    split; [lia|]. split; [lia|done].
  - intros c k [<- <-]%lookup_singleton_Some. split; [apply walk_here|unfold BIG; lia].
  - intros c k [<- <-]%lookup_singleton_Some. left. exists None.
    apply list_elem_of_singleton. done.
  - apply lookup_singleton_eq.
  - intros c par Hc. by rewrite lookup_empty in Hc.
Qed.
End astar.

(** ** The heap never holds two entries of equal (cost, cell) *)

Lemma relax_keys_ok (g : cell) (d : Z) (cur n : cell)
    (acc : list entry * gmap (Z * Z) Z) :
  keys_ok acc → keys_ok (relax g d cur acc n).
Proof.
  intros [Hnd Hle]. unfold relax. case_decide as Hlt; [|done].
  destruct acc as [pq gs]. simpl in *. split; simpl.
  - unfold heappush. rewrite fmap_app. apply NoDup_app. split; [done|]. split.
    + intros k Hk ->%list_elem_of_singleton.
      apply list_elem_of_fmap in Hk as (e & Hkey & He).
      assert (Hd : e_d e = d + 1) by (by injection Hkey).
      assert (Hc : e_cur e = n) by (by injection Hkey).
      destruct (Hle _ He) as (k & Hk & Hkd). unfold gget in Hlt.
      rewrite <- Hc, Hk in Hlt. simpl in Hlt. lia.
    + apply NoDup_singleton.
  - intros e [He|He]%elem_of_app; [|apply list_elem_of_singleton in He as ->].
    + destruct (Hle _ He) as (k & Hk & Hkd).
      destruct (decide (e_cur e = n)) as [Hc|Hc].
      * exists (d + 1). rewrite Hc, lookup_insert_eq. split; [done|].
        unfold gget in Hlt. rewrite <- Hc, Hk in Hlt. simpl in Hlt. lia.
      * exists k. by rewrite lookup_insert_ne.
    + exists (d + 1). unfold e_cur, e_d. simpl. by rewrite lookup_insert_eq.
Qed.

Lemma fold_relax_keys_ok (g : cell) (d : Z) (cur : cell) (ns : list cell)
    (acc : list entry * gmap (Z * Z) Z) :
  keys_ok acc → keys_ok (foldl (relax g d cur) acc ns).
Proof.
  revert acc. induction ns as [|n ns IH]; intros acc Hk; [done|].
  simpl. by apply IH, relax_keys_ok.
Qed.

Lemma astar_body_keys_ok (pf : PathFinder) (g : cell) (st st' : astar_state) :
  keys_ok (a_pq st, a_gscore st) → astar_body pf g st = inl st' →
  keys_ok (a_pq st', a_gscore st').
Proof.
  intros [Hnd Hle]. unfold astar_body.
  destruct (heappop (a_pq st)) as [[e pq']|] eqn:Hpop; [|done].
  cbv zeta. case_decide; [done|]. intros [= <-]. simpl in *.
  destruct (heappop_Some _ _ _ Hpop) as [Hperm _].
  rewrite <- surjective_pairing. apply fold_relax_keys_ok. split; simpl.
  - rewrite Hperm, fmap_cons in Hnd. by apply NoDup_cons in Hnd as [_ ?].
  - intros e' He'. apply Hle. rewrite Hperm. by right.
Qed.

Lemma astar_init_keys_ok (s g : cell) :
  keys_ok (a_pq (astar_init s g), a_gscore (astar_init s g)).
Proof.
  split; simpl.
  - apply NoDup_singleton.
  - intros e ->%list_elem_of_singleton. exists 0. unfold e_cur, e_d. simpl.
    by rewrite lookup_singleton_eq.
Qed.

(** In every state the search goes through, the heap holds no two
    entries of the same cost and cell. *)
Lemma astar_keys_distinct (pf : PathFinder) (s g : cell) (m : nat) (st : astar_state) :
  run (astar_body pf g) m (astar_init s g) = inl st →
  NoDup (e_key <$> a_pq st).
Proof.
  intros Hrun.
  apply (run_inv_inl (astar_body pf g) (λ st, keys_ok (a_pq st, a_gscore st))
           (astar_body_keys_ok pf g) m _ _ (astar_init_keys_ok s g) Hrun).
Qed.

(** ** The search loop terminates *)

Lemma elem_of_cells (pf : PathFinder) (c : cell) : c ∈ cells pf ↔ in_grid pf c.
Proof.
  unfold cells, in_grid. destruct c as [cx cy]. simpl.
  rewrite list_elem_of_bind. split.
  - intros (x & Hin & Hx). apply list_elem_of_bind in Hin as (y & Hin & Hy).
    apply list_elem_of_singleton in Hin. inversion Hin; subst.
    apply elem_of_range in Hx, Hy. lia.
  - intros [Hx Hy]. exists cx. split; [|apply elem_of_range; lia].
    apply list_elem_of_bind. exists cy. split; [by apply list_elem_of_singleton|].
    apply elem_of_range. lia.
Qed.

Lemma NoDup_cells (pf : PathFinder) : NoDup (cells pf).
Proof.
  unfold cells. apply NoDup_bind.
  - intros x1 x2 c _ _ (y1 & H1 & _)%list_elem_of_bind (y2 & H2 & _)%list_elem_of_bind.
    apply list_elem_of_singleton in H1, H2. congruence.
  - intros x _. apply NoDup_bind.
    + intros y1 y2 c _ _ H1%list_elem_of_singleton H2%list_elem_of_singleton. congruence.
    + intros y _. apply NoDup_singleton.
    + apply NoDup_seqZ.
  - apply NoDup_seqZ.
Qed.

Lemma length_cells (pf : PathFinder) :
  Z.of_nat (length (cells pf)) = Z.max 0 (cols pf) * Z.max 0 (rows pf).
Proof.
  unfold cells, range.
  assert (H : ∀ l : list Z,
    length (l ≫= λ cx, seqZ 0 (rows pf - 0) ≫= λ cy, [(cx, cy)]) =
    (length l * Z.to_nat (rows pf))%nat).
  { induction l as [|x l IH]; [done|]. rewrite bind_cons, length_app, IH.
    assert (H1 : ∀ l' : list Z, length (l' ≫= λ cy, [(x, cy)]) = length l').
    { induction l' as [|y l' IH']; [done|]. rewrite bind_cons, length_app, IH'. done. }
    rewrite H1, length_seqZ. simpl. f_equal. f_equal. lia. }
  rewrite H, length_seqZ. lia.
Qed.

Lemma sumZ_cons (a : Z) (l : list Z) : sumZ (a :: l) = a + sumZ l.
Proof. done. Qed.

Lemma sumZ_insert_notin (gs : gmap (Z * Z) Z) (n : cell) (v : Z) (l : list cell) :
  n ∉ l → sumZ (gget (<[n := v]> gs) <$> l) = sumZ (gget gs <$> l).
Proof.
  induction l as [|a l IH]; [done|]. intros Hn.
  apply not_elem_of_cons in Hn as [Hne Hn].
  rewrite !fmap_cons, !sumZ_cons, IH by done.
  unfold gget at 1. by rewrite lookup_insert_ne.
Qed.

Lemma sumZ_insert (gs : gmap (Z * Z) Z) (n : cell) (v : Z) (l : list cell) :
  NoDup l → n ∈ l →
  sumZ (gget (<[n := v]> gs) <$> l) = sumZ (gget gs <$> l) - gget gs n + v.
Proof.
  induction 1 as [|a l Ha Hnd IH]; intros Hn; [by apply elem_of_nil in Hn|].
  rewrite !fmap_cons, !sumZ_cons. apply elem_of_cons in Hn as [->|Hn].
  - rewrite sumZ_insert_notin by done. unfold gget at 1.
    rewrite lookup_insert_eq. simpl. lia.
  - rewrite IH by done. unfold gget at 1.
    rewrite lookup_insert_ne; [|intros ->; done]. fold (gget gs a). lia.
Qed.

Lemma sumZ_bounds (f : cell → Z) (l : list cell) (b : Z) :
  (∀ c, 0 ≤ f c ≤ b) → 0 ≤ sumZ (f <$> l) ≤ b * Z.of_nat (length l).
Proof.
  intros Hf. induction l as [|a l IH]; [simpl; lia|].
  rewrite fmap_cons, sumZ_cons, length_cons. specialize (Hf a). lia.
Qed.

Lemma relax_potential (pf : PathFinder) (g : cell) (d : Z) (cur n : cell)
    (acc : list entry * gmap (Z * Z) Z) :
  n ∈ neighbors pf cur →
  potential pf (relax g d cur acc n) ≤ potential pf acc.
Proof.
  intros Hn. unfold relax. case_decide as Hlt; [|lia].
  unfold potential, heappush. simpl. rewrite length_app. simpl.
  rewrite sumZ_insert.
  - lia.
  - apply NoDup_cells.
  - apply elem_of_cells. apply elem_of_neighbors in Hn as [[? _] _]. done.
Qed.

Lemma fold_relax_potential (pf : PathFinder) (g : cell) (d : Z) (cur : cell)
    (pend : list cell) (acc : list entry * gmap (Z * Z) Z) :
  (∀ n, n ∈ pend → n ∈ neighbors pf cur) →
  potential pf (foldl (relax g d cur) acc pend) ≤ potential pf acc.
Proof.
  revert acc. induction pend as [|n pend IH]; intros acc Hsub; simpl; [lia|].
  etrans; [apply IH|apply relax_potential].
  - intros n' Hn'. apply Hsub. by right.
  - apply Hsub. by left.
Qed.

Lemma potential_nonneg (pf : PathFinder) (s g : cell) (st : astar_state) :
  astar_inv pf s g st → 0 ≤ potential pf (a_pq st, a_gscore st).
Proof.
  intros [[_ HW _ _] _]. simpl in HW. unfold potential. simpl.
  pose proof (sumZ_bounds (gget (a_gscore st)) (cells pf) BIG
                (λ c, gget_bounds pf s _ c HW)). lia.
Qed.

Lemma astar_body_potential (pf : PathFinder) (s g : cell) (st st' : astar_state) :
  astar_inv pf s g st → astar_body pf g st = inl st' →
  0 ≤ potential pf (a_pq st', a_gscore st') ≤ potential pf (a_pq st, a_gscore st) - 1.
Proof.
  intros Hinv Hb. split.
  { eapply potential_nonneg, astar_body_inl; eauto. }
  revert Hb. unfold astar_body.
  destruct (heappop (a_pq st)) as [[e pq']|] eqn:Hpop; [|done].
  cbv zeta. case_decide; [done|]. intros [= <-]. simpl.
  destruct (heappop_Some _ _ _ Hpop) as [Hperm _].
  pose proof (fold_relax_potential pf g (e_d e) (e_cur e) (neighbors pf (e_cur e))
                (pq', a_gscore st) (λ n H, H)) as Hle.
  destruct (foldl _ _ _) as [pq2 gs2]. simpl.
  assert (Hlen : length (a_pq st) = Datatypes.S (length pq')) by by rewrite Hperm.
  unfold potential in *. simpl in *. lia.
Qed.

Lemma astar_init_potential (pf : PathFinder) (s g : cell) :
  potential pf (a_pq (astar_init s g), a_gscore (astar_init s g))
  < Z.of_nat (2 ^ astar_fuel pf).
Proof.
  pose proof (astar_init_inv pf s g) as [[_ HW _ _] _]. simpl in HW.
  pose proof (sumZ_bounds (gget {[s := 0]}) (cells pf) BIG
                (λ c, gget_bounds pf s _ c HW)) as Hs.
  rewrite length_cells in Hs.
  assert (Hp : potential pf (a_pq (astar_init s g), a_gscore (astar_init s g))
               = 1 + 2 * sumZ (gget {[s := 0]} <$> cells pf)) by done.
  rewrite Hp. clear Hp.
  set (N := Z.max 0 (cols pf) * Z.max 0 (rows pf)) in *.
  assert (0 ≤ N) by (unfold N; lia).
  assert (HB : 0 < BIG) by (unfold BIG; lia).
  unfold astar_fuel. fold N. set (X := 2 + 2 * BIG * N).
  assert (HX : 1 < X) by (unfold X; nia).
  pose proof (Z.log2_up_spec X HX) as [_ Hup].
  pose proof (Z.log2_up_nonneg X) as Hnn.
  rewrite Nat2Z.inj_pow, (Nat2Z.inj_succ (Z.to_nat _)), Z2Nat.id by done.
  change (Z.of_nat 2) with 2. rewrite Z.pow_succ_r by done.
  unfold X in *. nia.
Qed.

Lemma astar_loop_result (pf : PathFinder) (s g : cell) :
  ∃ came, while_pow (astar_body pf g) (astar_fuel pf) (astar_init s g) = inr came ∧
          astar_post pf s g came.
Proof.
  rewrite while_pow_run.
  destruct (run_terminates (astar_body pf g) (astar_inv pf s g)
              (astar_body_inl pf s g)
              (λ st, potential pf (a_pq st, a_gscore st))
              (astar_body_potential pf s g)
              (2 ^ astar_fuel pf) (astar_init s g)) as [came Hrun].
  - apply astar_init_inv.
  - apply astar_init_potential.
  - pose proof (astar_init_potential pf s g).
    pose proof (potential_nonneg pf s g _ (astar_init_inv pf s g)). lia.
  - exists came. split; [done|].
    destruct (run_inv_inr (astar_body pf g) (astar_inv pf s g)
                (astar_body_inl pf s g) _ _ _ (astar_init_inv pf s g) Hrun)
      as (st0 & Hinv & Hb).
    by eapply astar_body_inr.
Qed.

(** ** Following the predecessor links *)

Lemma trace_run (came : gmap (Z * Z) (option (Z * Z))) (c : cell) (l acc : list cell) :
  chain came c l →
  run (trace_body came) (length l) (Some c, acc) = inl (None, acc ++ reverse l).
Proof.
  intros Hch. revert acc. induction Hch as [c Hc|c p l Hc _ IH]; intros acc.
  - simpl. unfold trace_body at 1. simpl. by rewrite Hc.
  - rewrite length_app, Nat.add_comm. simpl. unfold trace_body at 1. simpl.
    rewrite Hc, IH, reverse_snoc. by rewrite <- (assoc_L (++)).
Qed.

Lemma trace_while (came : gmap (Z * Z) (option (Z * Z))) (c : cell) (l : list cell)
    (n : nat) :
  chain came c l → (length l + 1 ≤ 2 ^ n)%nat →
  while_pow (trace_body came) n (Some c, []) = inr (Some (reverse l)).
Proof.
  intros Hch Hle. rewrite while_pow_run.
  apply run_mono with (length l + 1)%nat; [|done].
  rewrite run_add, (trace_run _ _ _ _ Hch). done.
Qed.

Lemma trace_result (came : gmap (Z * Z) (option (Z * Z))) (c : cell) (l : list cell) :
  chain came c l → steps l < BIG →
  while_pow (trace_body came) trace_fuel (Some c, []) = inr (Some (reverse l)).
Proof.
  intros Hch Hst. apply trace_while; [done|].
  apply Nat2Z.inj_le. rewrite Nat2Z.inj_pow. unfold trace_fuel.
  change (Z.of_nat 2 ^ Z.of_nat 30) with 1073741824.
  unfold steps, BIG in Hst. lia.
Qed.

(** ** What [shortest] returns *)

Lemma shortest_result (pf : PathFinder) (start_px goal_px : pt) :
  let s := pt_to_cell pf start_px in
  let g := pt_to_cell pf goal_px in
  s ∉ blocked pf → g ∉ blocked pf →
  (∃ l, shortest pf start_px goal_px = Ret (cell_to_pt <$> l) ∧
        path_from_to pf s g l ∧ steps l < BIG ∧
        ∀ m, walk pf s g m → steps l ≤ m) ∨
  (shortest pf start_px goal_px = Ret [] ∧ ∀ m, walk pf s g m → BIG ≤ m).
Proof.
  intros s g Hs Hg. unfold shortest. fold s g.
  case_decide as Hb; [tauto|].
  destruct (astar_loop_result pf s g) as (came & -> & HM & Hnone).
  destruct (came !! g) as [par|] eqn:E.
  - left. destruct (HM _ _ E) as (l & Hch & Hpath & Hst & Hopt).
    exists l. rewrite (trace_result _ _ _ Hch Hst), reverse_involutive. done.
  - right. auto.
Qed.

Lemma shortest_blocked (pf : PathFinder) (start_px goal_px : pt) :
  pt_to_cell pf start_px ∈ blocked pf ∨ pt_to_cell pf goal_px ∈ blocked pf →
  shortest pf start_px goal_px = Ret [].
Proof. intros Hb. unfold shortest. by case_decide. Qed.

Lemma walk_path (pf : PathFinder) (a c : cell) (k : Z) :
  walk pf a c k → ∃ l, path_from_to pf a c l ∧ steps l = k.
Proof.
  induction 1 as [|c n k _ (l & Hp & Hk) Hn].
  - exists [a]. done.
  - exists (l ++ [n]). split; [by eapply path_snoc|]. rewrite steps_snoc. lia.
Qed.

Lemma path_nonempty (pf : PathFinder) (s g : cell) (l : list cell) :
  path_from_to pf s g l → cell_to_pt <$> l ≠ [].
Proof. intros (Hh & _ & _). by destruct l. Qed.

(** ** The search in the long corridor *)

Lemma run_agree {S R : Type} (body : S → S + R) (m m' : nat) (s : S) (r r' : R) :
  run body m s = inr r → run body m' s = inr r' → r = r'.
Proof.
  intros H H'. destruct (Nat.le_ge_cases m m') as [Hle|Hle].
  - rewrite (run_mono _ _ _ _ _ H Hle) in H'. congruence.
  - rewrite (run_mono _ _ _ _ _ H' Hle) in H. congruence.
Qed.

Lemma corridor_free (x y : Z) : is_free corridor (x, y) ↔ 0 ≤ x ≤ BIG ∧ y = 0.
Proof.
  unfold is_free, in_grid, corridor. simpl. split.
  - intros [[? ?] _]. lia.
  - intros [? ->]. split; [lia|]. apply not_elem_of_empty.
Qed.

Lemma corridor_neighbors (k : Z) :
  0 ≤ k < BIG →
  neighbors corridor (k, 0) =
  (k + 1, 0) :: (if decide (1 ≤ k) then [(k - 1, 0)] else []).
Proof.
  intros Hk. unfold neighbors. simpl.
  rewrite filter_cons_True by (apply corridor_free; lia).
  f_equal. case_decide.
  - rewrite filter_cons_True by (apply corridor_free; lia).
    rewrite !filter_cons_False, filter_nil; [done| |];
      rewrite corridor_free; lia.
  - rewrite !filter_cons_False, filter_nil; [done| | |];
      rewrite corridor_free; lia.
Qed.

Lemma corridor_h (k : Z) : 0 ≤ k ≤ BIG → k + h (k, 0) (BIG, 0) = BIG.
Proof. intros Hk. unfold h. simpl. lia. Qed.

Lemma corridor_relax_back (k : Z) (pq : list entry) (gs : gmap (Z * Z) Z) :
  (1 ≤ k → gs !! (k - 1, 0) = Some (k - 1)) →
  foldl (relax (BIG, 0) k (k, 0)) (pq, gs)
        (if decide (1 ≤ k) then [(k - 1, 0)] else []) = (pq, gs).
Proof.
  intros Hg. case_decide; [|done]. simpl. unfold relax, gget. simpl.
  rewrite Hg by done. simpl. case_decide; [lia|done].
Qed.

Lemma corridor_step (k : Z) (st : astar_state) :
  0 ≤ k < BIG - 1 → corridor_state k st →
  ∃ st', astar_body corridor (BIG, 0) st = inl st' ∧ corridor_state (k + 1) st'.
Proof.
  intros Hk ([par Hpq] & Hgs & Hcame).
  unfold astar_body. rewrite Hpq. cbn [heappop]. cbv zeta.
  unfold e_cur, e_d, e_par. cbn [fst snd].
  rewrite (Hcame k) by lia.
  case_decide as Hg; [injection Hg; intros; exfalso; lia|].
  rewrite corridor_neighbors by lia. cbn [foldl].
  assert (Hrel : relax (BIG, 0) k (k, 0) ([], a_gscore st) (k + 1, 0) =
                 ([(BIG, k + 1, (k + 1, 0), Some (k, 0))], <[(k + 1, 0) := k + 1]> (a_gscore st))).
  { unfold relax, gget. cbn [fst snd]. rewrite (Hgs (k + 1)).
    rewrite (decide_False (P := 0 ≤ k + 1 ≤ k)) by lia. cbn [default].
    rewrite decide_True by lia. unfold heappush. cbn [app].
    by rewrite (corridor_h (k + 1)) by lia. }
  rewrite Hrel. rewrite corridor_relax_back.
  - eexists. split; [done|]. unfold corridor_state.
    cbn [a_pq a_gscore a_came fst snd]. split; [eauto|]. split.
    + intros j. destruct (decide (j = k + 1)) as [->|Hne].
      * rewrite lookup_insert_eq. by rewrite decide_True by lia.
      * rewrite lookup_insert_ne by congruence. rewrite Hgs.
        repeat case_decide; (done || lia).
    + intros j Hj. rewrite lookup_insert_ne by (intros [=]; lia). apply Hcame. lia.
  - intros Hk1. rewrite lookup_insert_ne by (intros [=]; lia). rewrite Hgs.
    by rewrite decide_True by lia.
Qed.

Lemma corridor_last (st : astar_state) :
  corridor_state (BIG - 1) st →
  ∃ st', astar_body corridor (BIG, 0) st = inl st' ∧
         a_pq st' = [] ∧ a_came st' !! (BIG, 0) = None.
Proof.
  intros ([par Hpq] & Hgs & Hcame).
  assert (HB : 2 ≤ BIG) by (unfold BIG; lia).
  unfold astar_body. rewrite Hpq. cbn [heappop]. cbv zeta.
  unfold e_cur, e_d, e_par. cbn [fst snd].
  rewrite (Hcame (BIG - 1)) by lia.
  case_decide as Hg; [injection Hg; intros; exfalso; lia|].
  rewrite corridor_neighbors by lia. cbn [foldl].
  assert (Hrel : relax (BIG, 0) (BIG - 1) (BIG - 1, 0) ([], a_gscore st) (BIG - 1 + 1, 0) =
                 ([], a_gscore st)).
  { unfold relax, gget. cbn [fst snd]. rewrite (Hgs (BIG - 1 + 1)).
    rewrite (decide_False (P := 0 ≤ BIG - 1 + 1 ≤ BIG - 1)) by lia. cbn [default].
    by rewrite decide_False by lia. }
  rewrite Hrel. rewrite corridor_relax_back.
  - eexists. split; [done|]. cbn [a_pq a_came fst snd]. split; [done|].
    rewrite lookup_insert_ne by (intros [=]; lia). apply Hcame. lia.
  - intros _. rewrite Hgs. by rewrite decide_True by lia.
Qed.

Lemma corridor_run (n : nat) (k : Z) (st : astar_state) :
  Z.of_nat n = BIG - 1 - k → 0 ≤ k → corridor_state k st →
  ∃ m came, run (astar_body corridor (BIG, 0)) m st = inr came ∧
            came !! (BIG, 0) = None.
Proof.
  revert k st. induction n as [|n IH]; intros k st Hn Hk Hst.
  - replace k with (BIG - 1) in Hst by lia.
    destruct (corridor_last _ Hst) as (st' & Hb & Hpq & Hc).
    exists 2%nat, (a_came st'). split; [|done].
    cbn [run]. rewrite Hb. unfold astar_body. by rewrite Hpq.
  - destruct (corridor_step k st ltac:(lia) Hst) as (st' & Hb & Hst').
    destruct (IH (k + 1) st' ltac:(lia) ltac:(lia) Hst') as (m & came & Hrun & Hc).
    exists (Datatypes.S m), came. split; [|done]. cbn [run]. by rewrite Hb.
Qed.

Lemma corridor_cells :
  pt_to_cell corridor corridor_start = (0, 0) ∧
  pt_to_cell corridor corridor_goal = (BIG, 0).
Proof. by vm_compute. Qed.

Lemma corridor_init : corridor_state 0 (astar_init (0, 0) (BIG, 0)).
Proof.
  split; [|split].
  - exists None. done.
  - intros j. simpl. destruct (decide (j = 0)) as [->|Hne].
    + by rewrite lookup_singleton_eq.
    + rewrite lookup_singleton_ne by congruence. by rewrite decide_False by lia.
  - intros j _. apply lookup_empty.
Qed.

(** In the corridor the goal is never reached: the search gives up one
    step before it. *)
Lemma corridor_shortest : shortest corridor corridor_start corridor_goal = Ret [].
Proof.
  unfold shortest. destruct corridor_cells as [-> ->].
  rewrite decide_False.
  2:{ intros [H|H]; by apply not_elem_of_empty in H. }
  destruct (astar_loop_result corridor (0, 0) (BIG, 0)) as (came & Hw & _).
  rewrite Hw. rewrite while_pow_run in Hw.
  destruct (corridor_run (Z.to_nat (BIG - 1)) 0 _ ltac:(unfold BIG; lia) ltac:(lia)
              corridor_init) as (m & came' & Hrun & Hc).
  rewrite (run_agree _ _ _ _ _ _ Hw Hrun). by rewrite Hc.
Qed.

Lemma corridor_walk (n : nat) :
  Z.of_nat n ≤ BIG → walk corridor (0, 0) (Z.of_nat n, 0) (Z.of_nat n).
Proof.
  induction n as [|n IH]; intros Hn; [apply walk_here|].
  rewrite Nat2Z.inj_succ. unfold Z.succ.
  eapply walk_step; [apply IH; lia|].
  rewrite corridor_neighbors by lia. left.
Qed.

Lemma corridor_connected :
  ∃ l, path_from_to corridor (0, 0) (BIG, 0) l.
Proof.
  pose proof (corridor_walk (Z.to_nat BIG)) as Hw.
  rewrite Z2Nat.id in Hw by (unfold BIG; lia).
  destruct (walk_path _ _ _ _ (Hw ltac:(lia))) as (l & Hp & _). eauto.
Qed.


(** * Claims about the shortest route *)

(** C9: when the start and the goal point fall into one unblocked cell,
    [shortest] returns exactly one waypoint, the centre of that cell. *)
Theorem shortest_same_cell (pf : PathFinder) (start_px goal_px : pt) :
  pt_to_cell pf start_px = pt_to_cell pf goal_px →
  pt_to_cell pf start_px ∉ blocked pf →
  shortest pf start_px goal_px = Ret [cell_to_pt (pt_to_cell pf start_px)].
Proof.
  intros Heq Hs.
  destruct (shortest_result pf start_px goal_px Hs) as [(l & -> & Hp & _ & Hopt)|[_ Hfar]].
  - by rewrite <- Heq.
  - rewrite <- Heq in *. specialize (Hopt 0 (walk_here _ _)).
    destruct Hp as (Hh & _ & _). destruct l as [|a [|b l]]; [done| |].
    + by injection Hh as ->.
    + unfold steps in Hopt. simpl in Hopt. lia.
  - rewrite <- Heq in Hfar. specialize (Hfar 0 (walk_here _ _)). unfold BIG in Hfar. lia.
Qed.

Example shortest_same_cell_witness :
  pt_to_cell (PathFinder_init ring_level) (5, 5) =
    pt_to_cell (PathFinder_init ring_level) (30, 10) ∧
  (pt_to_cell (PathFinder_init ring_level) (5, 5)
     ∉ blocked (PathFinder_init ring_level)) ∧
  shortest (PathFinder_init ring_level) (5, 5) (30, 10) = Ret [(20, 20)].
Proof.
  assert (H1 : pt_to_cell (PathFinder_init ring_level) (5, 5) =
               pt_to_cell (PathFinder_init ring_level) (30, 10)) by reflexivity.
  assert (H2 : pt_to_cell (PathFinder_init ring_level) (5, 5)
               ∉ blocked (PathFinder_init ring_level))
    by (apply (bool_decide_unpack _); vm_compute; exact I).
  split; [exact H1|]. split; [exact H2|].
  exact (shortest_same_cell (PathFinder_init ring_level) (5, 5) (30, 10) H1 H2).
Defined.

(** C3 as stated fails: in the corridor the start and goal cells are
    free and joined by a path, yet the route returned is empty. *)
Lemma corridor_empty_but_connected :
  ¬ (shortest corridor corridor_start corridor_goal = Ret [] ↔
     pt_to_cell corridor corridor_start ∈ blocked corridor ∨
     pt_to_cell corridor corridor_goal ∈ blocked corridor ∨
     ¬ ∃ l, path_from_to corridor (pt_to_cell corridor corridor_start)
                         (pt_to_cell corridor corridor_goal) l).
Proof.
  destruct corridor_cells as [-> ->]. intros [H _].
  destruct (H corridor_shortest) as [Hb|[Hb|Hno]].
  - by apply not_elem_of_empty in Hb.
  - by apply not_elem_of_empty in Hb.
  - apply Hno, corridor_connected.
Qed.

(** C3, as the code has it: [shortest] always returns a route, and the
    route is empty exactly when the start cell is blocked, or the goal
    cell is blocked, or no path of fewer than [BIG] = 10^9 steps joins
    them. *)
Theorem shortest_empty_iff (pf : PathFinder) (start_px goal_px : pt) :
  (∃ r, shortest pf start_px goal_px = Ret r) ∧
  (shortest pf start_px goal_px = Ret [] ↔
   pt_to_cell pf start_px ∈ blocked pf ∨ pt_to_cell pf goal_px ∈ blocked pf ∨
   ¬ ∃ l, path_from_to pf (pt_to_cell pf start_px) (pt_to_cell pf goal_px) l ∧
          steps l < BIG).
Proof.
  destruct (decide (pt_to_cell pf start_px ∈ blocked pf)) as [Hs|Hs].
  { rewrite shortest_blocked by auto. split; [eauto|]. split; auto. }
  destruct (decide (pt_to_cell pf goal_px ∈ blocked pf)) as [Hg|Hg].
  { rewrite shortest_blocked by auto. split; [eauto|]. split; auto. }
  destruct (shortest_result pf start_px goal_px Hs Hg)
    as [(l & -> & Hp & Hst & _)|[-> Hfar]].
  - split; [eauto|]. split.
    + intros [= E]. by apply path_nonempty in Hp.
    + intros [?|[?|Hno]]; [done|done|]. destruct Hno. eauto.
  - split; [eauto|]. split; [|done]. intros _. right. right.
    intros (l & Hp & Hst). apply path_walk in Hp. specialize (Hfar _ Hp). lia.
Qed.

(** C1 as stated fails: in the corridor the start and goal cells are
    free and connected, yet what [shortest] returns is not a shortest
    path between them. *)
Lemma corridor_not_optimal :
  (pt_to_cell corridor corridor_start ∉ blocked corridor) ∧
  (pt_to_cell corridor corridor_goal ∉ blocked corridor) ∧
  (∃ l, path_from_to corridor (pt_to_cell corridor corridor_start)
                     (pt_to_cell corridor corridor_goal) l) ∧
  ¬ ∃ l, shortest corridor corridor_start corridor_goal = Ret (cell_to_pt <$> l) ∧
         path_from_to corridor (pt_to_cell corridor corridor_start)
                      (pt_to_cell corridor corridor_goal) l.
Proof.
  destruct corridor_cells as [-> ->].
  split; [apply not_elem_of_empty|]. split; [apply not_elem_of_empty|].
  split; [apply corridor_connected|].
  intros (l & Hr & Hp). rewrite corridor_shortest in Hr.
  injection Hr as Hr. symmetry in Hr. by apply path_nonempty in Hp.
Qed.

(** C1, as the code has it: when the start and goal cells are unblocked
    and joined by a path of fewer than [BIG] = 10^9 steps, [shortest]
    returns the waypoints of a path from start to goal, and its number of
    waypoints minus one is at most the number of steps of any path from
    start to goal. *)
Theorem shortest_optimal (pf : PathFinder) (start_px goal_px : pt) (p0 : list cell) :
  pt_to_cell pf start_px ∉ blocked pf →
  pt_to_cell pf goal_px ∉ blocked pf →
  path_from_to pf (pt_to_cell pf start_px) (pt_to_cell pf goal_px) p0 →
  steps p0 < BIG →
  ∃ l, shortest pf start_px goal_px = Ret (cell_to_pt <$> l) ∧
       path_from_to pf (pt_to_cell pf start_px) (pt_to_cell pf goal_px) l ∧
       ∀ p, path_from_to pf (pt_to_cell pf start_px) (pt_to_cell pf goal_px) p →
            steps (cell_to_pt <$> l) ≤ steps p.
Proof.
  intros Hs Hg Hp0 Hst0.
  destruct (shortest_result pf start_px goal_px Hs Hg)
    as [(l & -> & Hp & _ & Hopt)|[_ Hfar]].
  - exists l. split; [done|]. split; [done|]. intros p Hp'.
    unfold steps at 1. rewrite length_fmap. apply Hopt. by apply path_walk.
  - apply path_walk in Hp0. specialize (Hfar _ Hp0). lia.
Qed.

Example shortest_optimal_witness :
  ∃ l, shortest (PathFinder_init ring_level) (0, 0) (119, 119) = Ret (cell_to_pt <$> l) ∧
       path_from_to (PathFinder_init ring_level) (0, 0) (2, 2) l ∧
       ∀ p, path_from_to (PathFinder_init ring_level) (0, 0) (2, 2) p →
            steps (cell_to_pt <$> l) ≤ steps p.
Proof.
  apply (shortest_optimal (PathFinder_init ring_level) (0, 0) (119, 119)
           [(0, 0); (1, 0); (2, 0); (2, 1); (2, 2)]).
  - apply (bool_decide_unpack _); vm_compute; exact I.
  - apply (bool_decide_unpack _); vm_compute; exact I.
  - apply (bool_decide_unpack _); vm_compute; exact I.
  - vm_compute. reflexivity.
Defined.

(** ** The breadth-first search always returns *)

Lemma sumZ_point (f f' : cell → Z) (n : cell) (l : list cell) :
  NoDup l → n ∈ l → (∀ c, c ≠ n → f' c = f c) →
  sumZ (f' <$> l) = sumZ (f <$> l) - f n + f' n.
Proof.
  intros Hnd Hn Hoff. induction Hnd as [|a l Ha Hnd IH]; [by apply elem_of_nil in Hn|].
  rewrite !fmap_cons, !sumZ_cons. apply elem_of_cons in Hn as [->|Hn].
  - assert (E : f' <$> l = f <$> l).
    { apply list_fmap_ext. intros i c Hc. apply Hoff. intros ->.
      apply Ha. by eapply list_elem_of_lookup_2. }
    rewrite E. lia.
  - rewrite IH by done. rewrite (Hoff a) by (intros ->; done). lia.
Qed.

Lemma dist_get_None (dist : list (cell * Z)) (c : cell) :
  dist_get dist c = None ↔ c ∉ dist.*1.
Proof.
  induction dist as [|[k v] dist IH].
  - split; [intros _; apply not_elem_of_nil|done].
  - cbn [dist_get]. rewrite fmap_cons, not_elem_of_cons. cbn [fst].
    case_decide as Hk.
    + split; [done|]. intros [Hne _]. by destruct Hne.
    + rewrite IH. split; [intros ?; split; [congruence|done]|by intros [_ ?]].
Qed.

Lemma dist_get_snoc (dist : list (cell * Z)) (n c : cell) (v : Z) :
  dist_get (dist ++ [(n, v)]) c =
  match dist_get dist c with
  | Some x => Some x
  | None => if decide (n = c) then Some v else None
  end.
Proof.
  induction dist as [|[k w] dist IH].
  - cbn [app dist_get]. by case_decide.
  - cbn [app dist_get]. destruct (decide (k = c)); [done|apply IH].
Qed.

Lemma unseen_bounds (dist : list (cell * Z)) (c : cell) : 0 ≤ unseen dist c ≤ 1.
Proof. unfold unseen. destruct (dist_get dist c); lia. Qed.

Section bfs_facts.
Variables (pf : PathFinder) (start : cell).

Lemma visit_ok (c n : cell) (st : bfs_state) :
  bfs_inv pf start st → is_Some (dist_get (b_dist st) c) → n ∈ neighbors pf c →
  ∃ st', visit c st n = Some st' ∧ bfs_inv pf start st' ∧
         is_Some (dist_get (b_dist st') c) ∧
         bfs_potential pf st' ≤ bfs_potential pf st.
Proof.
  intros Hinv [dc Hc] Hn. unfold visit.
  destruct (dist_get (b_dist st) n) as [x|] eqn:En.
  { exists st. split; [done|]. split; [done|]. split; [eauto|lia]. }
  rewrite Hc. eexists. split; [reflexivity|].
  destruct Hinv as [Hs Hq Hch Hp Hb Hnd Hk].
  assert (Hin : in_grid pf n) by (apply elem_of_neighbors in Hn as [[? _] _]; done).
  split; [split; simpl|split].
  - rewrite dist_get_snoc. destruct Hs as [x ->]. eauto.
  - intros c' [Hc'|Hc']%elem_of_app; rewrite dist_get_snoc.
    + destruct (Hq _ Hc') as [x ->]. eauto.
    + apply list_elem_of_singleton in Hc' as ->.
      rewrite En. rewrite decide_True by done. eauto.
  - intros c' v. rewrite dist_get_snoc.
    destruct (dist_get (b_dist st) c') as [x|] eqn:Ec'.
    + intros [= <-]. destruct (Hch _ _ Ec') as (l & Hl & Hlen).
      exists l. split; [|done]. apply chain_insert; [by apply Hp|done].
    + case_decide as Hnc; [|done]. intros [= <-]. subst c'.
      destruct (Hch _ _ Hc) as (l & Hl & Hlen).
      exists (l ++ [n]). split.
      * apply chain_link with c; [by rewrite lookup_insert_eq|].
        apply chain_insert; [by apply Hp|done].
      * rewrite length_app. simpl. lia.
  - intros c'. rewrite dist_get_snoc.
    destruct (dist_get (b_dist st) c') eqn:Ec'; [done|].
    case_decide; [done|]. intros _. rewrite lookup_insert_ne by done. by apply Hp.
  - intros c' v. rewrite dist_get_snoc, length_app. simpl.
    destruct (dist_get (b_dist st) c') as [x|] eqn:Ec'.
    + intros [= <-]. specialize (Hb _ _ Ec'). lia.
    + case_decide; [|done]. intros [= <-]. specialize (Hb _ _ Hc). lia.
  - rewrite fmap_app. apply NoDup_app. split; [done|]. split; [|apply NoDup_singleton].
    intros k Hk' ->%list_elem_of_singleton. by apply dist_get_None in En.
  - intros c'. rewrite fmap_app.
    intros [Hc'|Hc']%elem_of_app; [auto|].
    apply list_elem_of_singleton in Hc' as ->. by right.
  - simpl. rewrite dist_get_snoc, Hc. eauto.
  - unfold bfs_potential. simpl. rewrite length_app. simpl.
    rewrite (sumZ_point (unseen (b_dist st)) (unseen (b_dist st ++ [(n, dc + 1)])) n).
    + unfold unseen at 2 3. rewrite dist_get_snoc, En.
      rewrite decide_True by done. lia.
    + apply NoDup_cells.
    + by apply elem_of_cells.
    + intros c' Hne. unfold unseen. rewrite dist_get_snoc.
      destruct (dist_get (b_dist st) c'); [done|]. by rewrite decide_False.
Qed.

Lemma fold_visit_ok (c : cell) (ns : list cell) (st : bfs_state) :
  bfs_inv pf start st → is_Some (dist_get (b_dist st) c) →
  (∀ n, n ∈ ns → n ∈ neighbors pf c) →
  ∃ st', foldl (λ acc n, acc ≫= λ st', visit c st' n) (Some st) ns = Some st' ∧
         bfs_inv pf start st' ∧ bfs_potential pf st' ≤ bfs_potential pf st.
Proof.
  revert st. induction ns as [|n ns IH]; intros st Hinv Hc Hsub.
  - exists st. split; [done|]. split; [done|lia].
  - destruct (visit_ok c n st Hinv Hc) as (st1 & Hv & Hinv1 & Hc1 & Hpot1).
    { apply Hsub. by left. }
    destruct (IH st1 Hinv1 Hc1) as (st2 & Hf & Hinv2 & Hpot2).
    { intros n' Hn'. apply Hsub. by right. }
    exists st2. simpl. rewrite Hv. simpl. split; [done|]. split; [done|lia].
Qed.

Lemma bfs_body_ok (st : bfs_state) :
  bfs_inv pf start st →
  (b_q st = [] ∧ bfs_body pf st = inr (Some (b_dist st, b_par st))) ∨
  (∃ st', bfs_body pf st = inl st' ∧ bfs_inv pf start st' ∧
          bfs_potential pf st' ≤ bfs_potential pf st - 1).
Proof.
  intros Hinv. unfold bfs_body. destruct (b_q st) as [|c q'] eqn:Eq; [by left|].
  right.
  assert (Hinv0 : bfs_inv pf start (mkBfs q' (b_dist st) (b_par st))).
  { destruct Hinv as [Hs Hq Hch Hp Hb Hnd Hk]. split; simpl; try done.
    intros c' Hc'. apply Hq. rewrite Eq. by right. }
  assert (Hc : is_Some (dist_get (b_dist st) c)).
  { apply (bi_queue _ _ _ Hinv). rewrite Eq. left. }
  destruct (fold_visit_ok c (neighbors pf c) _ Hinv0 Hc (λ n H, H))
    as (st' & -> & Hinv' & Hpot).
  exists st'. split; [done|]. split; [done|].
  unfold bfs_potential in *. simpl in *. rewrite Eq. simpl. lia.
Qed.

Lemma bfs_potential_nonneg (st : bfs_state) : 0 ≤ bfs_potential pf st.
Proof.
  unfold bfs_potential.
  pose proof (sumZ_bounds (unseen (b_dist st)) (cells pf) 1
                (unseen_bounds (b_dist st))). lia.
Qed.

Lemma bfs_init_inv : bfs_inv pf start (mkBfs [start] [(start, 0)] {[ start := None ]}).
Proof.
  split; simpl.
  - rewrite decide_True by done. eauto.
  - intros c ->%list_elem_of_singleton. rewrite decide_True by done. eauto.
  - intros c v. case_decide as Hc; [|done]. intros [= <-]. subst c.
    exists [start]. split; [|done]. apply chain_root. by rewrite lookup_singleton_eq.
  - intros c. case_decide; [done|]. intros _. by rewrite lookup_singleton_ne.
  - intros c v. case_decide; [|done]. intros [= <-]. lia.
  - apply NoDup_singleton.
  - intros c ->%list_elem_of_singleton. by left.
Qed.

Lemma pow2_bfs_fuel :
  2 * (2 + Z.max 0 (cols pf) * Z.max 0 (rows pf)) ≤ Z.of_nat (2 ^ bfs_fuel pf).
Proof.
  unfold bfs_fuel. set (X := 2 + Z.max 0 (cols pf) * Z.max 0 (rows pf)).
  assert (HX : 1 < X) by (unfold X; nia).
  pose proof (Z.log2_up_spec X HX) as [_ Hup].
  pose proof (Z.log2_up_nonneg X) as Hnn.
  rewrite Nat2Z.inj_pow, (Nat2Z.inj_succ (Z.to_nat _)), Z2Nat.id by done.
  change (Z.of_nat 2) with 2. rewrite Z.pow_succ_r by done. lia.
Qed.

(** [bfs] returns the farthest cell and a predecessor map in which that
    cell has a chain back to the start, not longer than the grid allows. *)
Lemma bfs_returns :
  ∃ far par l, bfs pf start = Ret (far, par) ∧ chain par far l ∧
               (length l + 1 ≤ 2 ^ bfs_fuel pf)%nat.
Proof.
  unfold bfs. rewrite while_pow_run.
  set (st0 := mkBfs [start] [(start, 0)] {[ start := None ]}).
  pose proof pow2_bfs_fuel as Hfuel.
  assert (Hstep : ∀ st st', bfs_inv pf start st → bfs_body pf st = inl st' →
                            bfs_inv pf start st').
  { intros st st' Hinv Hb. destruct (bfs_body_ok st Hinv) as [[_ E]|(st2 & E & ? & _)];
      congruence. }
  destruct (run_terminates (bfs_body pf) (bfs_inv pf start) Hstep (bfs_potential pf))
    with (m := (2 ^ bfs_fuel pf)%nat) (s := st0) as [r Hrun].
  - intros st st' Hinv Hb. split; [apply bfs_potential_nonneg|].
    destruct (bfs_body_ok st Hinv) as [[_ E]|(st2 & E & _ & Hpot)]; congruence.
  - apply bfs_init_inv.
  - pose proof (sumZ_bounds (unseen (b_dist st0)) (cells pf) 1
                  (unseen_bounds (b_dist st0))) as Hs.
    rewrite length_cells in Hs. unfold bfs_potential. simpl length. lia.
  - lia.
  - rewrite Hrun.
    destruct (run_inv_inr (bfs_body pf) (bfs_inv pf start) Hstep _ _ _ bfs_init_inv Hrun)
      as (st1 & Hinv & Hb).
    destruct (bfs_body_ok st1 Hinv) as [[_ E]|(st2 & E & _ & _)]; [|congruence].
    rewrite E in Hb. injection Hb as <-.
    assert (Hfar : is_Some (dist_get (b_dist st1) (far_of start (b_dist st1)))).
    { unfold far_of.
      assert (Hgen : ∀ dist best,
                is_Some (dist_get (b_dist st1) best.1) →
                (∀ kv, kv ∈ dist → is_Some (dist_get (b_dist st1) kv.1)) →
                is_Some (dist_get (b_dist st1)
                  (foldl (λ best kv, if decide (best.2 < kv.2) then kv else best)
                         best dist).1)).
      { induction dist as [|kv dist IH]; intros best Hbest Hall; [done|].
        simpl. apply IH.
        - case_decide; [apply Hall; left|done].
        - intros kv' Hkv'. apply Hall. by right. }
      apply Hgen; [apply (bi_start _ _ _ Hinv)|].
      intros kv Hkv. destruct (dist_get (b_dist st1) kv.1) eqn:E1; [eauto|].
      apply dist_get_None in E1. destruct E1. by apply list_elem_of_fmap_2. }
    destruct Hfar as [v Hv].
    destruct (bi_chain _ _ _ Hinv _ _ Hv) as (l & Hl & Hlen).
    exists (far_of start (b_dist st1)), (b_par st1), l. split; [done|]. split; [done|].
    pose proof (bi_bound _ _ _ Hinv _ _ Hv) as Hb.
    assert (Hkeys : (length (b_dist st1).*1 ≤ length (start :: cells pf))%nat).
    { apply submseteq_length, NoDup_submseteq; [apply (bi_nodup _ _ _ Hinv)|].
      intros c Hc. destruct (bi_keys _ _ _ Hinv c Hc) as [->|Hin]; [left|right].
      by apply elem_of_cells. }
    rewrite length_fmap in Hkeys. simpl in Hkeys.
    pose proof (length_cells pf). lia.
Qed.
End bfs_facts.

(** [longest_approx] always returns a route, and never an empty one. *)
Lemma longest_approx_returns (pf : PathFinder) (start_px : pt) :
  ∃ route, longest_approx pf start_px = Ret route ∧ route ≠ [].
Proof.
  unfold longest_approx. cbv zeta.
  set (s := if decide (pt_to_cell pf start_px ∈ blocked pf)
            then default (pt_to_cell pf start_px) (first_free pf)
            else pt_to_cell pf start_px).
  destruct (bfs_returns pf s) as (A & par1 & l1 & -> & _ & _).
  destruct (bfs_returns pf A) as (B & par & l & -> & Hl & Hlen).
  rewrite (trace_while _ _ _ _ Hl Hlen), reverse_involutive.
  eexists. split; [done|]. destruct Hl as [c ?|c p l' ? ?]; [done|by destruct l'].
Qed.

(** * Claims about the approximate longest route *)

Section fully_blocked.
Variable pf : PathFinder.
Hypothesis all_blocked : ∀ c, in_grid pf c → c ∈ blocked pf.

Lemma blocked_no_neighbors (c : cell) : neighbors pf c = [].
Proof.
  destruct (neighbors pf c) as [|n l] eqn:E; [done|].
  assert (Hn : n ∈ neighbors pf c) by (rewrite E; left).
  apply elem_of_neighbors in Hn as [[Hin Hnb] _]. destruct Hnb. auto.
Qed.

Lemma blocked_first_free : first_free pf = None.
Proof.
  unfold first_free.
  destruct (filter _ _) as [|c l] eqn:E; [done|].
  assert (Hc : c ∈ filter (λ c, c ∉ blocked pf)
                 (cy ← range 0 (rows pf); cx ← range 0 (cols pf); [(cx, cy)]))
    by (rewrite E; left).
  apply list_elem_of_filter in Hc as [Hnb Hc]. destruct Hnb. apply all_blocked.
  apply list_elem_of_bind in Hc as (y & Hc & Hy).
  apply list_elem_of_bind in Hc as (x & Hc & Hx).
  apply list_elem_of_singleton in Hc as ->.
  apply elem_of_range in Hx, Hy. unfold in_grid. simpl. lia.
Qed.

Lemma blocked_bfs (s : cell) : bfs pf s = Ret (s, {[ s := None ]}).
Proof.
  unfold bfs. rewrite while_pow_run.
  rewrite (run_mono _ 2 _ _ (Some ([(s, 0)], {[ s := None ]}))).
  - done.
  - cbn [run]. unfold bfs_body at 1. cbn [b_q]. rewrite blocked_no_neighbors. done.
  - unfold bfs_fuel. rewrite Nat.pow_succ_r'.
    pose proof (Nat.pow_nonzero 2 (Z.to_nat (Z.log2_up
      (2 + Z.max 0 (cols pf) * Z.max 0 (rows pf)))) ltac:(lia)). lia.
Qed.

Lemma blocked_longest (start_px : pt) :
  longest_approx pf start_px = Ret [cell_to_pt (pt_to_cell pf start_px)].
Proof.
  unfold longest_approx. rewrite blocked_first_free. cbn [default].
  assert (Hs : (if decide (pt_to_cell pf start_px ∈ blocked pf)
                then pt_to_cell pf start_px else pt_to_cell pf start_px)
               = pt_to_cell pf start_px) by (by case_decide).
  rewrite Hs, !blocked_bfs.
  rewrite (trace_while _ _ [pt_to_cell pf start_px]).
  - done.
  - apply chain_root. by rewrite lookup_singleton_eq.
  - unfold bfs_fuel. rewrite Nat.pow_succ_r'.
    pose proof (Nat.pow_nonzero 2 (Z.to_nat (Z.log2_up
      (2 + Z.max 0 (cols pf) * Z.max 0 (rows pf)))) ltac:(lia)). simpl. lia.
Qed.
End fully_blocked.

(** C4, as the code has it: on a grid all of whose cells are blocked,
    [longest_approx] returns a route of exactly one waypoint, the centre
    of the cell of the start point. *)
Theorem fully_blocked_longest (pf : PathFinder) (start_px : pt) :
  (∀ c, in_grid pf c → c ∈ blocked pf) →
  longest_approx pf start_px = Ret [cell_to_pt (pt_to_cell pf start_px)].
Proof. intros Hall. by apply blocked_longest. Qed.

Lemma walled_all_blocked (c : cell) :
  in_grid (PathFinder_init walled_level) c → c ∈ blocked (PathFinder_init walled_level).
Proof.
  destruct c as [x y]. intros [Hx Hy].
  assert (E : cols (PathFinder_init walled_level) = 1 ∧
              rows (PathFinder_init walled_level) = 1) by (by vm_compute).
  destruct E as [E1 E2]. rewrite E1 in Hx. rewrite E2 in Hy. simpl in Hx, Hy.
  assert (x = 0) as -> by lia. assert (y = 0) as -> by lia.
  apply (bool_decide_unpack _). vm_compute. exact I.
Qed.

Example fully_blocked_longest_witness :
  (∀ c, in_grid (PathFinder_init walled_level) c →
        c ∈ blocked (PathFinder_init walled_level)) ∧
  longest_approx (PathFinder_init walled_level) (5, 5) = Ret [(20, 20)].
Proof.
  split; [exact walled_all_blocked|].
  exact (fully_blocked_longest (PathFinder_init walled_level) (5, 5) walled_all_blocked).
Defined.

(** C4 as stated fails: on the one-cell grid whose cell is walled the
    route returned is not empty. *)
Lemma walled_longest_not_empty :
  (∀ c, in_grid (PathFinder_init walled_level) c →
        c ∈ blocked (PathFinder_init walled_level)) ∧
  longest_approx (PathFinder_init walled_level) (5, 5) ≠ Ret [].
Proof.
  split; [apply walled_all_blocked|].
  rewrite (blocked_longest _ walled_all_blocked). discriminate.
Qed.

(** * Claims about the trajectory recorder *)

Lemma new_list_spec {A : Type} (σ σ' : gmap nat (list A)) (l : list A) (r : nat) :
  new_list σ l = (r, σ') → σ !! r = None ∧ σ' = <[r := l]> σ.
Proof.
  unfold new_list. intros [= <- <-]. split; [|done].
  apply not_elem_of_dom, is_fresh.
Qed.

Lemma last_drop_lt {A : Type} (l : list A) (k : nat) :
  (k < length l)%nat → last (drop k l) = last l.
Proof.
  intros Hk. rewrite !last_lookup, lookup_drop, length_drop. f_equal. lia.
Qed.

Section recorder_facts.
Context {F : Type} `{Float F}.

Lemma spaced_nil (sd : F) : spaced sd [].
Proof. intros i p q Hp. by rewrite lookup_nil in Hp. Qed.

Lemma spaced_singleton (sd : F) (p : F * F) : spaced sd [p].
Proof. intros [|i] a b Ha Hb; simpl in *; by rewrite ?lookup_nil in *. Qed.

Lemma spaced_snoc (sd : F) (pts : list (F * F)) (l pos : F * F) :
  spaced sd pts → last pts = Some l →
  fle (fmul sd sd) (sqdist pos l) = true →
  spaced sd (pts ++ [pos]).
Proof.
  intros Hsp Hl Hle i p q Hp Hq.
  apply lookup_snoc_Some in Hq as [[Hlt Hq]|[Hi <-]].
  - rewrite lookup_app_l in Hp by lia. eauto.
  - rewrite lookup_app_l in Hp by lia.
    rewrite last_lookup in Hl. replace (pred (length pts)) with i in Hl by lia.
    congruence.
Qed.

Lemma spaced_drop (sd : F) (pts : list (F * F)) (k : nat) :
  spaced sd pts → spaced sd (drop k pts).
Proof.
  intros Hsp i p q Hp Hq. rewrite lookup_drop in Hp, Hq.
  apply (Hsp (k + i)%nat); [done|]. by rewrite <- Nat.add_succ_r.
Qed.

Lemma add_empty (σ : gmap nat (list (F * F))) (rec : MoveRecorder F) (pos : F * F) :
  σ !! points rec = Some [] →
  add σ rec pos =
  Ret (<[points rec := [pos]]> σ,
       mkRecorder (sample_dist rec) (max_points rec) (points rec) (Some pos)).
Proof. intros Hp. unfold add. by rewrite Hp. Qed.

Lemma add_nonempty (σ : gmap nat (list (F * F))) (rec : MoveRecorder F) (pos : F * F)
    (pts : list (F * F)) (l : F * F) :
  σ !! points rec = Some pts → pts ≠ [] → last_ rec = Some l →
  add σ rec pos =
  if fle (fmul (sample_dist rec) (sample_dist rec)) (sqdist pos l) then
    if decide (max_points rec < Z.of_nat (length (pts ++ [pos]))) then
      Ret ((new_list (<[points rec := pts ++ [pos]]> σ)
                     (py_slice_from (- max_points rec) (pts ++ [pos]))).2,
           mkRecorder (sample_dist rec) (max_points rec)
             (new_list (<[points rec := pts ++ [pos]]> σ)
                       (py_slice_from (- max_points rec) (pts ++ [pos]))).1 (Some pos))
    else
      Ret (<[points rec := pts ++ [pos]]> σ,
           mkRecorder (sample_dist rec) (max_points rec) (points rec) (Some pos))
  else Ret (σ, rec).
Proof.
  intros Hp Hne Hl. unfold add. rewrite Hp, Hl.
  destruct pts as [|p0 pts0]; [done|].
  destruct (fle _ _); [|done]. cbv zeta. by case_decide.
Qed.

(** [add] keeps the recorder sound, whatever the position. *)
Lemma add_ok (sd : F) (mp : Z) (σ : gmap nat (list (F * F))) (rec : MoveRecorder F)
    (pos : F * F) :
  recorder_ok sd mp σ rec →
  ∃ σ' rec', add σ rec pos = Ret (σ', rec') ∧ recorder_ok sd mp σ' rec'.
Proof.
  intros (Hsd & Hmax & pts & Hpts & Hlast & Hsp & Hlen).
  destruct (decide (pts = [])) as [->|Hne].
  { rewrite add_empty by done. eexists _, _. split; [reflexivity|].
    split; [exact Hsd|]. split; [exact Hmax|].
    exists [pos]. cbn [points last_]. rewrite lookup_insert_eq.
    split; [done|]. split; [done|]. split; [apply spaced_singleton|]. simpl. lia. }
  specialize (Hlast Hne).
  destruct (last_ rec) as [l|] eqn:El.
  2:{ symmetry in Hlast. by apply last_None in Hlast. }
  rewrite (add_nonempty _ _ _ pts l) by done.
  destruct (fle (fmul (sample_dist rec) (sample_dist rec)) (sqdist pos l)) eqn:Ele.
  2:{ eexists _, _. split; [reflexivity|]. split; [exact Hsd|]. split; [exact Hmax|].
      exists pts. rewrite El. done. }
  rewrite Hsd in Ele.
  assert (Hsp1 : spaced sd (pts ++ [pos])) by (by eapply spaced_snoc).
  case_decide as Hover.
  - eexists _, _. split; [reflexivity|]. split; [exact Hsd|]. split; [exact Hmax|].
    cbn [points last_]. unfold new_list. cbn [fst snd]. rewrite lookup_insert_eq.
    eexists. split; [reflexivity|].
    unfold py_slice_from. rewrite length_app in *. cbn [length] in *.
    split; [|split].
    + intros Hnn. case_decide.
      * rewrite last_drop_lt by (rewrite length_app; simpl; lia). by rewrite last_snoc.
      * destruct (decide (Z.to_nat (- max_points rec) < length (pts ++ [pos]))%nat).
        -- rewrite last_drop_lt by done. by rewrite last_snoc.
        -- rewrite drop_ge in Hnn by lia. done.
    + case_decide; by apply spaced_drop.
    + intros Hmp. rewrite decide_True by lia.
      rewrite length_drop, length_app. cbn [length]. lia.
  - eexists _, _. split; [reflexivity|]. split; [exact Hsd|]. split; [exact Hmax|].
    cbn [points last_]. rewrite lookup_insert_eq. eexists. split; [reflexivity|].
    rewrite last_snoc. split; [done|]. split; [done|].
    rewrite length_app in *. cbn [length] in *. lia.
Qed.

Lemma init_ok (sd : F) (mp : Z) (σ : gmap nat (list (F * F))) :
  recorder_ok sd mp (MoveRecorder_init σ sd mp).1 (MoveRecorder_init σ sd mp).2.
Proof.
  unfold MoveRecorder_init, new_list. simpl.
  split; [done|]. split; [done|]. exists []. rewrite lookup_insert_eq.
  split; [done|]. split; [done|]. split; [apply spaced_nil|]. simpl. lia.
Qed.

Lemma add_all_ok (sd : F) (mp : Z) (ps : list (F * F)) (σ : gmap nat (list (F * F)))
    (rec : MoveRecorder F) :
  recorder_ok sd mp σ rec →
  ∃ σ' rec', add_all σ rec ps = Ret (σ', rec') ∧ recorder_ok sd mp σ' rec'.
Proof.
  revert σ rec. induction ps as [|p ps IH]; intros σ rec Hok.
  - simpl. eauto.
  - simpl. destruct (add_ok sd mp σ rec p Hok) as (σ1 & rec1 & -> & Hok1).
    by apply IH.
Qed.

Lemma backtrack_nonempty (σ : gmap nat (list (F * F))) (rec : MoveRecorder F)
    (cur : F * F) (inc : bool) (pts : list (F * F)) :
  σ !! points rec = Some pts → pts ≠ [] →
  backtrack_from σ rec cur inc =
  let back := take ((nearest_scan cur 0 (0%nat, finf) pts).1 + 1) pts in
  let back' := if inc && bool_decide (back ≠ [])
               then <[(length back - 1)%nat := cur]> back else back in
  Ret (fresh (dom σ),
       <[fresh (dom σ) := reverse back']> (<[fresh (dom σ) := back']>
         (<[fresh (dom σ) := back]> σ))).
Proof.
  intros Hp Hne. unfold backtrack_from. rewrite Hp.
  destruct pts as [|p0 pts0]; done.
Qed.
End recorder_facts.

(** C10: [backtrack_from] returns a list of its own and leaves every list
    of the store as it was, the recorder's samples among them. *)
Theorem backtrack_keeps_history {F : Type} `{Float F}
    (σ : gmap nat (list (F * F))) (rec : MoveRecorder F) (cur : F * F) (inc : bool)
    (pts : list (F * F)) :
  σ !! points rec = Some pts →
  ∃ rb σ', backtrack_from σ rec cur inc = Ret (rb, σ') ∧
           σ' !! points rec = Some pts ∧
           rb ≠ points rec ∧ σ !! rb = None ∧
           ∀ r, r ≠ rb → σ' !! r = σ !! r.
Proof.
  intros Hp.
  assert (Hfresh : σ !! fresh (dom σ) = None) by apply not_elem_of_dom, is_fresh.
  assert (Hneq : fresh (dom σ) ≠ points rec) by congruence.
  destruct (decide (pts = [])) as [->|Hne].
  - unfold backtrack_from. rewrite Hp. unfold new_list.
    eexists _, _. split; [reflexivity|].
    split; [by rewrite lookup_insert_ne|]. split; [done|]. split; [done|].
    intros r Hr. by rewrite lookup_insert_ne.
  - rewrite (backtrack_nonempty _ _ _ _ pts) by done. cbv zeta.
    eexists _, _. split; [reflexivity|].
    split; [by rewrite !lookup_insert_ne|]. split; [done|]. split; [done|].
    intros r Hr. by rewrite !lookup_insert_ne.
Qed.

Section nearest_sample.
Context {F : Type} `{Float F}.

(** What the comparison of distances is assumed to be: a strict weak
    order with infinity on top (as [<] on floats other than NaN). *)
Hypothesis flt_irrefl : ∀ a, flt a a = false.
Hypothesis flt_trans : ∀ a b c, flt a b = true → flt b c = true → flt a c = true.
Hypothesis flt_negtrans : ∀ a b c, flt a c = true → flt a b = true ∨ flt b c = true.
Hypothesis finf_top : ∀ a, flt finf a = false.

Lemma scan_not_below (cur : F * F) (seen : list (F * F)) (best : nat * F)
    (j : nat) (q' : F * F) :
  scan_inv cur seen best → seen !! j = Some q' → flt (sqdist q' cur) best.2 = false.
Proof.
  intros [[-> Hall]|[Hb (q & Hq & Hmin & _)]] Hj.
  - simpl. eauto.
  - rewrite Hb, Hq. simpl. eauto.
Qed.

Lemma scan_step (cur p : F * F) (seen : list (F * F)) (best : nat * F) :
  scan_inv cur seen best →
  scan_inv cur (seen ++ [p])
    (if flt (sqdist p cur) best.2 then (length seen, sqdist p cur) else best).
Proof.
  intros Hinv. destruct (flt (sqdist p cur) best.2) eqn:Elt.
  - right. cbn [fst snd]. rewrite list_lookup_middle by done. split; [done|].
    exists p. split; [by rewrite list_lookup_middle|]. split.
    + intros j q' [[Hlt Hj]|[_ <-]]%lookup_snoc_Some; [|apply flt_irrefl].
      pose proof (scan_not_below _ _ _ _ _ Hinv Hj) as Hnb.
      destruct (flt (sqdist q' cur) (sqdist p cur)) eqn:E; [|done].
      by rewrite (flt_trans _ _ _ E Elt) in Hnb.
    + intros j q' Hlt Hj. rewrite lookup_app_l in Hj by done.
      pose proof (scan_not_below _ _ _ _ _ Hinv Hj) as Hnb.
      destruct (flt_negtrans _ (sqdist q' cur) _ Elt) as [?|E]; [done|].
      by rewrite E in Hnb.
  - destruct Hinv as [[-> Hall]|[Hb (q & Hq & Hmin & Hfirst)]].
    + left. split; [done|].
      intros j q' [[Hlt Hj]|[_ <-]]%lookup_snoc_Some; [eauto|done].
    + right. pose proof (lookup_lt_Some _ _ _ Hq) as Hlt.
      rewrite lookup_app_l by done. split; [done|].
      exists q. split; [by rewrite lookup_app_l|]. split.
      * intros j q' [[Hlt' Hj]|[_ <-]]%lookup_snoc_Some; [eauto|].
        rewrite Hb, Hq in Elt. done.
      * intros j q' Hj Hq'. rewrite lookup_app_l in Hq' by lia. eauto.
Qed.

Lemma nearest_scan_inv (cur : F * F) (rest seen : list (F * F)) (best : nat * F) :
  scan_inv cur seen best →
  scan_inv cur (seen ++ rest) (nearest_scan cur (length seen) best rest).
Proof.
  revert seen best. induction rest as [|p rest IH]; intros seen best Hinv.
  - by rewrite app_nil_r.
  - cbn [nearest_scan]. replace (seen ++ p :: rest) with ((seen ++ [p]) ++ rest)
      by (by rewrite <- (assoc_L (++))).
    replace (Datatypes.S (length seen)) with (length (seen ++ [p]))
      by (rewrite length_app; simpl; lia).
    apply IH. by apply scan_step.
Qed.

Lemma nearest_scan_first (cur : F * F) (pts : list (F * F)) :
  pts ≠ [] → first_nearest pts cur (nearest_scan cur 0 (0%nat, finf) pts).1.
Proof.
  intros Hne.
  assert (H0 : scan_inv cur [] (0%nat, finf)).
  { left. split; [done|]. intros j q' Hj. by rewrite lookup_nil in Hj. }
  pose proof (nearest_scan_inv cur pts [] (0%nat, finf) H0) as Hinv.
  cbn [length app] in Hinv. destruct Hinv as [[E Hall]|[_ Hfn]]; [|done].
  rewrite E. cbn [fst].
  destruct pts as [|q0 pts]; [done|]. exists q0. split; [done|]. split.
  - intros j q' Hj. destruct (flt (sqdist q' cur) (sqdist q0 cur)) eqn:E1; [|done].
    destruct (flt_negtrans _ finf _ E1) as [E'|E'].
    + by rewrite (Hall _ _ Hj) in E'.
    + by rewrite finf_top in E'.
  - intros j q' Hj. lia.
Qed.

(** C7: for a non-empty history, the list [backtrack_from] returns with
    [include_current] set is, read backwards, the samples before the one
    nearest to the query point (the first among equally near ones),
    followed by the query point itself. *)
Theorem backtrack_reversed_prefix (σ : gmap nat (list (F * F)))
    (rec : MoveRecorder F) (cur : F * F) (pts : list (F * F)) :
  σ !! points rec = Some pts → pts ≠ [] →
  ∃ rb σ' route i,
    backtrack_from σ rec cur true = Ret (rb, σ') ∧
    σ' !! rb = Some route ∧
    first_nearest pts cur i ∧
    reverse route = take i pts ++ [cur].
Proof.
  intros Hp Hne. rewrite (backtrack_nonempty _ _ _ _ pts) by done. cbv zeta.
  pose proof (nearest_scan_first cur pts Hne) as Hfn.
  set (i := (nearest_scan cur 0 (0%nat, finf) pts).1) in *.
  destruct Hfn as (q & Hq & Hfn).
  assert (Htake : take (i + 1) pts = take i pts ++ [q]).
  { rewrite Nat.add_1_r. by apply take_S_r. }
  pose proof (lookup_lt_Some _ _ _ Hq) as Hlt.
  eexists _, _, _, i. split; [reflexivity|]. rewrite lookup_insert_eq.
  split; [reflexivity|]. split; [by exists q|].
  rewrite reverse_involutive, Htake.
  rewrite bool_decide_true by (by destruct (take i pts)). cbn [andb].
  rewrite length_app, length_take_le by lia. cbn [length].
  replace (i + 1 - 1)%nat with (length (take i pts) + 0)%nat
    by (rewrite length_take_le; lia).
  by rewrite insert_app_r.
Qed.
End nearest_sample.

Lemma xlt_irrefl (a : xnum) : xlt a a = false.
Proof. destruct a; simpl; [|done]. apply bool_decide_eq_false. lia. Qed.

Lemma xlt_trans (a b c : xnum) : xlt a b = true → xlt b c = true → xlt a c = true.
Proof.
  destruct a, b, c; simpl; try done.
  rewrite !bool_decide_eq_true. lia.
Qed.

Lemma xlt_negtrans (a b c : xnum) : xlt a c = true → xlt a b = true ∨ xlt b c = true.
Proof.
  destruct a, b, c; simpl; try done; rewrite ?bool_decide_eq_true; auto.
  intros Hac. destruct (decide (z < z0)); [auto|right; lia].
Qed.

Lemma xinf_top (a : xnum) : xlt Inf a = false.
Proof. done. Qed.

Example backtrack_reversed_prefix_witness :
  line_store !! points line_recorder = Some sample_line ∧ sample_line ≠ [] ∧
  ∃ rb σ' route i,
    backtrack_from line_store line_recorder (Fin 9, Fin 1) true = Ret (rb, σ') ∧
    σ' !! rb = Some route ∧
    first_nearest sample_line (Fin 9, Fin 1) i ∧
    reverse route = take i sample_line ++ [(Fin 9, Fin 1)].
Proof.
  assert (H1 : line_store !! points line_recorder = Some sample_line) by reflexivity.
  assert (H2 : sample_line ≠ []) by discriminate.
  split; [exact H1|]. split; [exact H2|].
  exact (backtrack_reversed_prefix xlt_irrefl xlt_trans xlt_negtrans xinf_top
           line_store line_recorder (Fin 9, Fin 1) sample_line H1 H2).
Defined.

Example backtrack_keeps_history_witness :
  line_store !! points line_recorder = Some sample_line ∧
  ∃ rb σ', backtrack_from line_store line_recorder (Fin 9, Fin 1) true = Ret (rb, σ') ∧
           σ' !! points line_recorder = Some sample_line ∧
           rb ≠ points line_recorder ∧ line_store !! rb = None ∧
           ∀ r, r ≠ rb → σ' !! r = line_store !! r.
Proof.
  assert (H1 : line_store !! points line_recorder = Some sample_line) by reflexivity.
  split; [exact H1|].
  exact (backtrack_keeps_history line_store line_recorder (Fin 9, Fin 1) true
           sample_line H1).
Defined.

(** C6, as the code has it: after any sequence of [add] calls on a new
    recorder every two consecutive stored samples pass the spacing test
    (squared distance at least [sample_dist] squared), and when
    [max_points] is at least 1 the number of stored samples does not
    exceed it. *)
Theorem recorder_spacing_and_bound {F : Type} `{Float F}
    (σ : gmap nat (list (F * F))) (sd : F) (mp : Z) (ps : list (F * F)) :
  ∃ σ' rec' pts,
    add_all (MoveRecorder_init σ sd mp).1 (MoveRecorder_init σ sd mp).2 ps
      = Ret (σ', rec') ∧
    σ' !! points rec' = Some pts ∧
    spaced sd pts ∧
    (1 ≤ mp → Z.of_nat (length pts) ≤ mp).
Proof.
  destruct (add_all_ok sd mp ps _ _ (init_ok sd mp σ))
    as (σ' & rec' & Hrun & _ & _ & pts & Hpts & _ & Hsp & Hlen).
  exists σ', rec', pts. done.
Qed.

Example recorder_spacing_and_bound_witness :
  ∃ σ' rec' pts,
    add_all (MoveRecorder_init ∅ (Fin 8) 3).1 (MoveRecorder_init ∅ (Fin 8) 3).2
            sample_line = Ret (σ', rec') ∧
    σ' !! points rec' = Some pts ∧
    spaced (Fin 8) pts ∧
    (1 ≤ 3 → Z.of_nat (length pts) ≤ 3).
Proof. exact (recorder_spacing_and_bound ∅ (Fin 8) 3 sample_line). Defined.

(** C6 as stated fails: with [max_points = 0] the first sample is
    stored all the same, one more than the bound. *)
Lemma zero_capacity_overflows :
  ∃ σ' rec' pts,
    add_all (MoveRecorder_init ∅ (Fin 8) 0).1 (MoveRecorder_init ∅ (Fin 8) 0).2
            [(Fin 0, Fin 0)] = Ret (σ', rec') ∧
    σ' !! points rec' = Some pts ∧
    ¬ Z.of_nat (length pts) ≤ max_points rec'.
Proof.
  eexists _, _, _. split; [reflexivity|]. split; [reflexivity|]. simpl. lia.
Qed.

(** * Claims about the autopilot *)

(** C5, as the code has it: on a tick of the autopilot in which the
    player is within the arrival threshold of the current target, the
    index moves to the next waypoint and the tick steers nowhere (the
    vector is zero: nothing is computed against the new target in that
    tick); when the index thereby passes the last waypoint the autopilot
    is switched off, otherwise it stays on. *)
Theorem arrival_advances {F : Type} `{Float F} (arrive : F) (gm : Game F)
    (center manual t : F * F) :
  auto_mode gm = true →
  2 ≤ Z.of_nat (length (auto_path gm)) →
  auto_index gm < Z.of_nat (length (auto_path gm)) →
  py_index (auto_path gm) (auto_index gm) = Some t →
  flt (fhypot (fsub t.1 center.1) (fsub t.2 center.2)) arrive = true →
  ∃ gm', auto_follow arrive gm center manual = Ret (gm', (f0, f0)) ∧
         auto_index gm' = auto_index gm + 1 ∧
         auto_path gm' = auto_path gm ∧
         (auto_index gm + 1 < Z.of_nat (length (auto_path gm)) →
          auto_mode gm' = true ∧ reverse_mode gm' = reverse_mode gm) ∧
         (Z.of_nat (length (auto_path gm)) ≤ auto_index gm + 1 →
          auto_mode gm' = false ∧ reverse_mode gm' = false).
Proof.
  intros Hmode Hlen Hidx Ht Harr. unfold auto_follow. cbv zeta.
  rewrite Hmode, !bool_decide_true by done. cbn [andb]. rewrite Ht, Harr.
  case_decide as Hlast.
  - eexists. split; [reflexivity|]. cbn. split; [done|]. split; [done|].
    split; [lia|done].
  - eexists. split; [reflexivity|]. cbn. split; [done|]. split; [done|].
    split; [done|lia].
Qed.

Example arrival_advances_witness :
  ∃ gm', auto_follow (Fin 8) row_game (Fin 40, Fin 0) (Fin 0, Fin 0)
           = Ret (gm', (Fin 0, Fin 0)) ∧
         auto_index gm' = auto_index row_game + 1 ∧
         auto_path gm' = auto_path row_game ∧
         (auto_index row_game + 1 < Z.of_nat (length (auto_path row_game)) →
          auto_mode gm' = true ∧ reverse_mode gm' = reverse_mode row_game) ∧
         (Z.of_nat (length (auto_path row_game)) ≤ auto_index row_game + 1 →
          auto_mode gm' = false ∧ reverse_mode gm' = false).
Proof.
  assert (H1 : auto_mode row_game = true) by reflexivity.
  assert (H2 : 2 ≤ Z.of_nat (length (auto_path row_game))) by (simpl; lia).
  assert (H3 : auto_index row_game < Z.of_nat (length (auto_path row_game)))
    by (simpl; lia).
  assert (H4 : py_index (auto_path row_game) (auto_index row_game)
               = Some (Fin 40, Fin 0)) by reflexivity.
  assert (H5 : flt (fhypot (fsub (Fin 40) (Fin 40)) (fsub (Fin 0) (Fin 0))) (Fin 8)
               = true) by reflexivity.
  exact (arrival_advances (Fin 8) row_game (Fin 40, Fin 0) (Fin 0, Fin 0)
           (Fin 40, Fin 0) H1 H2 H3 H4 H5).
Defined.

(** C5 as stated fails: standing on the second of three waypoints, the
    tick of the code steers nowhere, while the tick worded by the
    specification steers to the third waypoint at once. *)
Lemma arrival_tick_steers_nowhere :
  auto_follow (Fin 8) row_game (Fin 40, Fin 0) (Fin 0, Fin 0)
    = Ret (mkGame true false row_route 2, (Fin 0, Fin 0)) ∧
  spec_tick (Fin 8) (Following row_route 1) (Fin 40, Fin 0) false
    = (Following row_route 2, Some (Fin 1, Fin 0)) ∧
  (Fin 0, Fin 0) ≠ (Fin 1, Fin 0).
Proof. split; [reflexivity|]. split; [reflexivity|]. discriminate. Qed.

(** * Further properties of the grid index *)

(** X1: the blocked cells of two lists of walls taken together are the
    blocked cells of the one list and those of the other: walls block
    independently of each other and of their order. *)
Theorem blocked_walls_app (w h : Z) (ws1 ws2 : list Rect) :
  blocked (PathFinder_init (mkLevel w h (ws1 ++ ws2))) =
  blocked (PathFinder_init (mkLevel w h ws1)) ∪ blocked (PathFinder_init (mkLevel w h ws2)).
Proof.
  apply set_eq. intros c. rewrite elem_of_union, !elem_of_blocked_init. simpl. split.
  - intros (r & [Hr|Hr]%elem_of_app & Hc); [left|right]; eauto.
  - intros [(r & Hr & Hc)|(r & Hr & Hc)]; exists r; (split; [|done]);
      apply elem_of_app; auto.
Qed.

(** X2: the centre of a cell of the grid is a point of that cell:
    [_pt_to_cell] undoes [_cell_to_pt]. *)
Theorem pt_cell_round_trip (pf : PathFinder) (c : cell) :
  in_grid pf c → pt_to_cell pf (cell_to_pt c) = c.
Proof.
  destruct c as [x y]. unfold in_grid, pt_to_cell, cell_to_pt, CELL_SIZE. simpl.
  intros [Hx Hy].
  assert (Ex : (x * 40 + 40 / 2) / 40 = x).
  { change (40 / 2) with 20. symmetry. apply (Z.div_unique _ 40 x 20); lia. }
  assert (Ey : (y * 40 + 40 / 2) / 40 = y).
  { change (40 / 2) with 20. symmetry. apply (Z.div_unique _ 40 y 20); lia. }
  rewrite Ex, Ey. f_equal; lia.
Qed.

Example pt_cell_round_trip_witness :
  in_grid (PathFinder_init ring_level) (2, 1) ∧
  pt_to_cell (PathFinder_init ring_level) (cell_to_pt (2, 1)) = (2, 1).
Proof.
  assert (H : in_grid (PathFinder_init ring_level) (2, 1))
    by (apply (bool_decide_unpack _); vm_compute; exact I).
  split; [exact H|]. exact (pt_cell_round_trip (PathFinder_init ring_level) (2, 1) H).
Defined.

(** X3: a point of the grid area lies in the pixel square of its cell:
    the waypoint of that cell is at most half a cell away from the point
    in each axis. *)
Theorem cell_centre_near (pf : PathFinder) (p : pt) :
  0 ≤ p.1 < CELL_SIZE * cols pf → 0 ≤ p.2 < CELL_SIZE * rows pf →
  let q := cell_to_pt (pt_to_cell pf p) in
  (q.1 - 20 ≤ p.1 < q.1 + 20) ∧ (q.2 - 20 ≤ p.2 < q.2 + 20).
Proof.
  destruct p as [x y]. unfold pt_to_cell, cell_to_pt, CELL_SIZE. simpl.
  intros Hx Hy.
  pose proof (Z.div_mod x 40 ltac:(lia)). pose proof (Z.mod_pos_bound x 40 ltac:(lia)).
  pose proof (Z.div_mod y 40 ltac:(lia)). pose proof (Z.mod_pos_bound y 40 ltac:(lia)).
  change (40 / 2) with 20. lia.
Qed.

Example cell_centre_near_witness :
  (cell_to_pt (pt_to_cell (PathFinder_init ring_level) (119, 41))).1 - 20 ≤ 119
    < (cell_to_pt (pt_to_cell (PathFinder_init ring_level) (119, 41))).1 + 20 ∧
  (cell_to_pt (pt_to_cell (PathFinder_init ring_level) (119, 41))).2 - 20 ≤ 41
    < (cell_to_pt (pt_to_cell (PathFinder_init ring_level) (119, 41))).2 + 20.
Proof.
  assert (H1 : 0 ≤ 119 < CELL_SIZE * cols (PathFinder_init ring_level))
    by (vm_compute; intuition discriminate).
  assert (H2 : 0 ≤ 41 < CELL_SIZE * rows (PathFinder_init ring_level))
    by (vm_compute; intuition discriminate).
  exact (cell_centre_near (PathFinder_init ring_level) (119, 41) H1 H2).
Defined.

(** X4: the cells [_neighbors] yields for [c] are exactly the free cells
    at Manhattan distance 1 from [c]. *)
Theorem neighbors_spec (pf : PathFinder) (c n : cell) :
  n ∈ neighbors pf c ↔ is_free pf n ∧ h c n = 1.
Proof.
  rewrite elem_of_neighbors. destruct c as [x y], n as [x' y']. unfold h. simpl.
  split; intros [Hf Hd]; (split; [done|]).
  - destruct Hd as [E|[E|[E|E]]]; inversion E; subst; lia.
  - assert ((x' = x + 1 ∧ y' = y) ∨ (x' = x - 1 ∧ y' = y) ∨
            (x' = x ∧ y' = y + 1) ∨ (x' = x ∧ y' = y - 1))
      as [[-> ->]|[[-> ->]|[[-> ->]|[-> ->]]]] by lia; auto.
Qed.

(** X5: between free cells the neighbour relation is symmetric: the
    cell graph is undirected. *)
Theorem neighbors_sym (pf : PathFinder) (c n : cell) :
  is_free pf c → n ∈ neighbors pf c → c ∈ neighbors pf n.
Proof.
  rewrite !elem_of_neighbors. intros Hc [Hn Hadj]. split; [done|].
  destruct c as [x y], n as [x' y']. simpl in *.
  destruct Hadj as [E|[E|[E|E]]]; inversion E; subst.
  - right. left. f_equal. lia.
  - left. f_equal. lia.
  - right. right. right. f_equal. lia.
  - right. right. left. f_equal. lia.
Qed.

Example neighbors_sym_witness :
  is_free (PathFinder_init ring_level) (0, 0) ∧
  (1, 0) ∈ neighbors (PathFinder_init ring_level) (0, 0) ∧
  (0, 0) ∈ neighbors (PathFinder_init ring_level) (1, 0).
Proof.
  assert (H1 : is_free (PathFinder_init ring_level) (0, 0))
    by (apply (bool_decide_unpack _); vm_compute; exact I).
  assert (H2 : (1, 0) ∈ neighbors (PathFinder_init ring_level) (0, 0))
    by (apply (bool_decide_unpack _); vm_compute; exact I).
  split; [exact H1|]. split; [exact H2|].
  exact (neighbors_sym (PathFinder_init ring_level) (0, 0) (1, 0) H1 H2).
Defined.

(** * Properties of level generation *)

Lemma elem_of_range_step (a b x : Z) :
  x ∈ range_step a b CELL_SIZE ↔ ∃ i, 0 ≤ i ∧ x = a + CELL_SIZE * i ∧ x < b.
Proof.
  unfold range_step, CELL_SIZE. rewrite list_elem_of_fmap.
  pose proof (Z.div_mod (b - a + 40 - 1) 40 ltac:(lia)).
  pose proof (Z.mod_pos_bound (b - a + 40 - 1) 40 ltac:(lia)).
  split.
  - intros (i & -> & Hi). apply elem_of_seqZ in Hi. exists i. lia.
  - intros (i & Hi & -> & Hlt). exists i. split; [done|]. apply elem_of_seqZ. lia.
Qed.

(** The cells marked by a wall of one cell size. *)
Lemma elem_of_block_cells (ncols nrows x y : Z) (c : cell) :
  c ∈ wall_cells ncols nrows (mkRect x y CELL_SIZE CELL_SIZE) ↔
  (0 ≤ c.1 < ncols ∧ 0 ≤ c.2 < nrows) ∧
  (CELL_SIZE * c.1 - CELL_SIZE < x < CELL_SIZE * c.1 + CELL_SIZE) ∧
  (CELL_SIZE * c.2 - CELL_SIZE < y < CELL_SIZE * c.2 + CELL_SIZE).
Proof.
  rewrite elem_of_wall_cells. unfold left, top, right, bottom, CELL_SIZE. simpl.
  pose proof (Z.div_mod x 40 ltac:(lia)). pose proof (Z.mod_pos_bound x 40 ltac:(lia)).
  pose proof (Z.div_mod y 40 ltac:(lia)). pose proof (Z.mod_pos_bound y 40 ltac:(lia)).
  pose proof (Z.div_mod (x + 40 - 1) 40 ltac:(lia)).
  pose proof (Z.mod_pos_bound (x + 40 - 1) 40 ltac:(lia)).
  pose proof (Z.div_mod (y + 40 - 1) 40 ltac:(lia)).
  pose proof (Z.mod_pos_bound (y + 40 - 1) 40 ltac:(lia)).
  lia.
Qed.

Lemma elem_of_generate_walls (w h : Z) (dense : Z → Z → bool) (r : Rect) :
  r ∈ generate_walls w h dense ↔
  (∃ i, 0 ≤ i ∧ CELL_SIZE * i < w ∧
        (r = mkRect (CELL_SIZE * i) 0 CELL_SIZE CELL_SIZE ∨
         r = mkRect (CELL_SIZE * i) (h - CELL_SIZE) CELL_SIZE CELL_SIZE)) ∨
  (∃ j, 0 ≤ j ∧ CELL_SIZE * j < h ∧
        (r = mkRect 0 (CELL_SIZE * j) CELL_SIZE CELL_SIZE ∨
         r = mkRect (w - CELL_SIZE) (CELL_SIZE * j) CELL_SIZE CELL_SIZE)) ∨
  (∃ i j, 2 ≤ i ∧ CELL_SIZE * i < w - CELL_SIZE * 2 ∧
          2 ≤ j ∧ CELL_SIZE * j < h - CELL_SIZE * 2 ∧
          dense (CELL_SIZE * i) (CELL_SIZE * j) = true ∧
          r = mkRect (CELL_SIZE * i) (CELL_SIZE * j) CELL_SIZE CELL_SIZE).
Proof.
  unfold generate_walls. rewrite !elem_of_app. split.
  - intros [H|[H|H]].
    + left. apply list_elem_of_bind in H as (x & Hr & Hx).
      apply elem_of_range_step in Hx as (i & Hi & -> & Hlt). exists i.
      rewrite !elem_of_cons, elem_of_nil in Hr.
      split; [done|]. split; [lia|]. rewrite Z.add_0_l in Hr. tauto.
    + right. left. apply list_elem_of_bind in H as (y & Hr & Hy).
      apply elem_of_range_step in Hy as (j & Hj & -> & Hlt). exists j.
      rewrite !elem_of_cons, elem_of_nil in Hr.
      split; [done|]. split; [lia|]. rewrite Z.add_0_l in Hr. tauto.
    + right. right. apply list_elem_of_bind in H as (x & H & Hx).
      apply list_elem_of_bind in H as (y & Hr & Hy).
      apply elem_of_range_step in Hx as (i & Hi & -> & Hlt).
      apply elem_of_range_step in Hy as (j & Hj & -> & Hlt').
      destruct (dense _ _) eqn:Hd; [|by apply elem_of_nil in Hr].
      apply list_elem_of_singleton in Hr as ->.
      exists (i + 2), (j + 2). unfold CELL_SIZE in *.
      replace (40 * (i + 2)) with (40 * 2 + 40 * i) by lia.
      replace (40 * (j + 2)) with (40 * 2 + 40 * j) by lia.
      repeat split; try lia; done.
  - intros [(i & Hi & Hlt & Hr)|[(j & Hj & Hlt & Hr)|(i & j & Hi & Hlt & Hj & Hlt' & Hd & ->)]].
    + left. apply list_elem_of_bind. exists (CELL_SIZE * i). split.
      * rewrite !elem_of_cons. tauto.
      * apply elem_of_range_step. exists i. lia.
    + right. left. apply list_elem_of_bind. exists (CELL_SIZE * j). split.
      * rewrite !elem_of_cons. tauto.
      * apply elem_of_range_step. exists j. lia.
    + right. right. apply list_elem_of_bind. exists (CELL_SIZE * i). split.
      * apply list_elem_of_bind. exists (CELL_SIZE * j). split.
        { rewrite Hd. by apply list_elem_of_singleton. }
        apply elem_of_range_step. exists (j - 2). unfold CELL_SIZE in *. lia.
      * apply elem_of_range_step. exists (i - 2). unfold CELL_SIZE in *. lia.
Qed.

(** The cells the walls of [generate] block, in coordinates. *)
Lemma elem_of_generated_blocked (w h : Z) (dense : Z → Z → bool) (cx cy : Z) :
  (cx, cy) ∈ blocked (PathFinder_init (mkLevel w h (generate_walls w h dense))) ↔
  (0 ≤ cx < w / 40 ∧ 0 ≤ cy < h / 40) ∧
  (cx = 0 ∨ cy = 0 ∨ cx = w / 40 - 1 ∨ cy = h / 40 - 1 ∨
   (2 ≤ cx ∧ 40 * cx < w - 40 * 2 ∧ 2 ≤ cy ∧ 40 * cy < h - 40 * 2 ∧
    dense (40 * cx) (40 * cy) = true)).
Proof.
  rewrite elem_of_blocked_init. simpl.
  pose proof (Z.div_mod w 40 ltac:(lia)) as Ew.
  pose proof (Z.mod_pos_bound w 40 ltac:(lia)) as Bw.
  pose proof (Z.div_mod h 40 ltac:(lia)) as Eh.
  pose proof (Z.mod_pos_bound h 40 ltac:(lia)) as Bh.
  split.
  - intros (r & Hr & Hc). apply elem_of_generate_walls in Hr.
    destruct Hr as [(i & Hi & Hlt & [->| ->])|[(j & Hj & Hlt & [->| ->])|
      (i & j & Hi & Hlt & Hj & Hlt' & Hd & ->)]];
      apply elem_of_block_cells in Hc; unfold CELL_SIZE in *; simpl in Hc;
      (split; [lia|]).
    + right. left. lia.
    + right. right. right. left. lia.
    + left. lia.
    + right. right. left. lia.
    + right. right. right. right.
      assert (i = cx) as -> by lia. assert (j = cy) as -> by lia.
      repeat split; try lia; done.
  - intros [[Hx Hy] Hc]. unfold CELL_SIZE in *.
    destruct Hc as [->|[->|[->|[->|(H1 & H2 & H3 & H4 & Hd)]]]].
    + exists (mkRect 0 (40 * cy) 40 40). split.
      * apply elem_of_generate_walls. right. left. exists cy. unfold CELL_SIZE. split; [lia|].
        split; [lia|]. by left.
      * apply elem_of_block_cells. unfold CELL_SIZE. simpl. lia.
    + exists (mkRect (40 * cx) 0 40 40). split.
      * apply elem_of_generate_walls. left. exists cx. unfold CELL_SIZE. split; [lia|].
        split; [lia|]. by left.
      * apply elem_of_block_cells. unfold CELL_SIZE. simpl. lia.
    + exists (mkRect (w - 40) (40 * cy) 40 40). split.
      * apply elem_of_generate_walls. right. left. exists cy. unfold CELL_SIZE. split; [lia|].
        split; [lia|]. by right.
      * apply elem_of_block_cells. unfold CELL_SIZE. simpl. lia.
    + exists (mkRect (40 * cx) (h - 40) 40 40). split.
      * apply elem_of_generate_walls. left. exists cx. unfold CELL_SIZE. split; [lia|].
        split; [lia|]. by right.
      * apply elem_of_block_cells. unfold CELL_SIZE. simpl. lia.
    + exists (mkRect (40 * cx) (40 * cy) 40 40). split.
      * apply elem_of_generate_walls. right. right. exists cx, cy. unfold CELL_SIZE.
        repeat split; try lia; done.
      * apply elem_of_block_cells. unfold CELL_SIZE. simpl. lia.
Qed.

(** X6: whatever the random draws, the blocked cells of a generated
    level are exactly the outer ring of the grid and the inner cells
    whose draw came out dense. *)
Theorem generated_blocked_iff (w h : Z) (dense : Z → Z → bool) (c : cell) :
  let pf := PathFinder_init (generate w h dense).1 in
  c ∈ blocked pf ↔
  in_grid pf c ∧
  (c.1 = 0 ∨ c.2 = 0 ∨ c.1 = cols pf - 1 ∨ c.2 = rows pf - 1 ∨
   (2 ≤ c.1 ∧ CELL_SIZE * c.1 < w - CELL_SIZE * 2 ∧
    2 ≤ c.2 ∧ CELL_SIZE * c.2 < h - CELL_SIZE * 2 ∧
    dense (CELL_SIZE * c.1) (CELL_SIZE * c.2) = true)).
Proof.
  intros pf. destruct c as [cx cy].
  pose proof (elem_of_generated_blocked w h dense cx cy) as Hb.
  exact Hb.
Qed.

(** X7: the start cell of a generated level is free exactly when the
    world is at least three cells wide and high. *)
Theorem generated_start_free (w h : Z) (dense : Z → Z → bool) :
  let pf := PathFinder_init (generate w h dense).1 in
  is_free pf (pt_to_cell pf level_start) ↔ 120 ≤ w ∧ 120 ≤ h.
Proof.
  intros pf.
  pose proof (Z.div_mod w 40 ltac:(lia)) as Ew.
  pose proof (Z.mod_pos_bound w 40 ltac:(lia)) as Bw.
  pose proof (Z.div_mod h 40 ltac:(lia)) as Eh.
  pose proof (Z.mod_pos_bound h 40 ltac:(lia)) as Bh.
  assert (Ec : pt_to_cell pf level_start =
               (Z.max 0 (Z.min (w / 40 - 1) 1), Z.max 0 (Z.min (h / 40 - 1) 1))) by done.
  rewrite Ec. unfold is_free.
  change (blocked pf) with
    (blocked (PathFinder_init (mkLevel w h (generate_walls w h dense)))).
  rewrite elem_of_generated_blocked.
  change (in_grid pf (Z.max 0 (Z.min (w / 40 - 1) 1), Z.max 0 (Z.min (h / 40 - 1) 1)))
    with (0 ≤ Z.max 0 (Z.min (w / 40 - 1) 1) < w / 40 ∧
          0 ≤ Z.max 0 (Z.min (h / 40 - 1) 1) < h / 40).
  split.
  - intros [[Hx Hy] Hnb].
    destruct (decide (120 ≤ w ∧ 120 ≤ h)) as [|Hno]; [done|].
    destruct Hnb. split; [done|]. lia.
  - intros [Hw Hh]. split; [lia|]. intros [_ Hd]. lia.
Qed.

(** X8: the goal cell of a generated level is walled exactly when the
    draw for its block came out dense; the level then has no route from
    start to goal and no progress flags. *)
Theorem generated_goal_walled (w h : Z) (dense : Z → Z → bool) :
  200 ≤ w → 200 ≤ h →
  let lvl := (generate w h dense).1 in
  let pf := PathFinder_init lvl in
  let g := pt_to_cell pf (level_end lvl) in
  g = (w / CELL_SIZE - 3, h / CELL_SIZE - 3) ∧
  (g ∈ blocked pf ↔ dense (CELL_SIZE * g.1) (CELL_SIZE * g.2) = true) ∧
  (g ∈ blocked pf →
   shortest pf level_start (level_end lvl) = Ret [] ∧ (generate w h dense).2 = []).
Proof.
  intros Hw Hh lvl pf g.
  pose proof (Z.div_mod w 40 ltac:(lia)) as Ew.
  pose proof (Z.mod_pos_bound w 40 ltac:(lia)) as Bw.
  pose proof (Z.div_mod h 40 ltac:(lia)) as Eh.
  pose proof (Z.mod_pos_bound h 40 ltac:(lia)) as Bh.
  assert (Eg : g = (w / 40 - 3, h / 40 - 3)).
  { unfold g, pt_to_cell, level_end. simpl. unfold CELL_SIZE.
    assert ((w - 120) / 40 = w / 40 - 3) as ->
      by (symmetry; apply (Z.div_unique _ 40 _ (w mod 40)); lia).
    assert ((h - 120) / 40 = h / 40 - 3) as ->
      by (symmetry; apply (Z.div_unique _ 40 _ (h mod 40)); lia).
    f_equal; lia. }
  split; [exact Eg|]. split.
  - rewrite Eg.
    change (blocked pf) with
      (blocked (PathFinder_init (mkLevel w h (generate_walls w h dense)))).
    rewrite elem_of_generated_blocked. unfold CELL_SIZE. cbn [fst snd]. split.
    + intros [_ [?|[?|[?|[?|(_ & _ & _ & _ & Hd)]]]]]; try lia. done.
    + intros Hd. split; [lia|]. do 4 right. repeat split; try lia. done.
  - intros Hb. assert (Hs : shortest pf level_start (level_end lvl) = Ret []).
    { apply shortest_blocked. by right. }
    split; [done|].
    change ((generate w h dense).2) with
      (match shortest pf level_start (level_end lvl) with
       | Ret sp => place_flags sp
       | _ => []
       end).
    by rewrite Hs.
Qed.

Example generated_goal_walled_witness :
  shortest (PathFinder_init (generate 200 200 (λ _ _, true)).1) level_start
           (level_end (generate 200 200 (λ _ _, true)).1) = Ret [] ∧
  (generate 200 200 (λ _ _, true)).2 = [].
Proof.
  assert (H1 : 200 ≤ 200) by lia.
  pose proof (generated_goal_walled 200 200 (λ _ _, true) H1 H1) as (_ & Hiff & Hres).
  apply Hres, Hiff. reflexivity.
Defined.

(** X9: a route of more than eight waypoints gets exactly two flags,
    "1/4" at index [n / 4] and "1/3" at index [n / 3]; both lie strictly
    inside the route, the first before the second.  A shorter route gets
    none. *)
Theorem place_flags_spec (sp : list pt) :
  let n := Z.of_nat (length sp) in
  (n ≤ 8 → place_flags sp = []) ∧
  (8 < n →
   1 ≤ n / 4 < n / 3 ∧ n / 3 ≤ n - 2 ∧
   ∃ p q, sp !! Z.to_nat (n / 4) = Some p ∧ sp !! Z.to_nat (n / 3) = Some q ∧
          place_flags sp = [mkFlag p (Named "1/4") false; mkFlag q (Named "1/3") false]).
Proof.
  intros n. unfold place_flags. fold n. split.
  - intros Hn. by rewrite decide_False by lia.
  - intros Hn. rewrite decide_True by done.
    pose proof (Z.div_mod n 4 ltac:(lia)) as E4.
    pose proof (Z.mod_pos_bound n 4 ltac:(lia)) as B4.
    pose proof (Z.div_mod n 3 ltac:(lia)) as E3.
    pose proof (Z.mod_pos_bound n 3 ltac:(lia)) as B3.
    assert (Hab : 1 ≤ n / 4 < n / 3) by lia.
    assert (Hb : n / 3 ≤ n - 2) by lia.
    split; [done|]. split; [done|].
    destruct (lookup_lt_is_Some_2 sp (Z.to_nat (n / 4))) as [p Hp]; [lia|].
    destruct (lookup_lt_is_Some_2 sp (Z.to_nat (n / 3))) as [q Hq]; [lia|].
    exists p, q. split; [done|]. split; [done|].
    unfold sorted_set2. rewrite decide_False, decide_True by lia.
    cbn [take flag_loop].
    rewrite Z.max_r, Z.min_l by lia. unfold py_index at 1. rewrite decide_True, Hp by lia.
    rewrite Z.max_r, Z.min_l by lia. unfold py_index at 1. rewrite decide_True, Hq by lia.
    done.
Qed.

(** * Further properties of the shortest route *)

Lemma walk_free (pf : PathFinder) (a c : cell) (k : Z) :
  walk pf a c k → is_free pf a → is_free pf c.
Proof.
  induction 1 as [|c n k _ _ Hn]; [done|]. intros _.
  by apply elem_of_neighbors in Hn as [? _].
Qed.

(** The cell graph is undirected: a walk can be taken backwards. *)
Lemma walk_rev (pf : PathFinder) (a c : cell) (k : Z) :
  is_free pf a ∨ (∀ x, ¬ is_free pf x) → walk pf a c k → walk pf c a k.
Proof.
  intros Ha. induction 1 as [|c n k Hw IH Hn]; [apply walk_here|].
  apply walk_cons with c; [|done].
  pose proof Hn as [Hfn Hadj]%elem_of_neighbors.
  destruct Ha as [Ha|Hno]; [|by destruct (Hno n)].
  apply elem_of_neighbors. split; [by eapply walk_free|].
  destruct c as [x y], n as [x' y']. simpl in *.
  destruct Hadj as [E|[E|[E|E]]]; inversion E; subst.
  - right. left. f_equal. lia.
  - left. f_equal. lia.
  - right. right. right. f_equal. lia.
  - right. right. left. f_equal. lia.
Qed.


Lemma is_path_app_r (pf : PathFinder) (l1 l2 : list cell) :
  is_path pf (l1 ++ l2) → is_path pf l2.
Proof.
  induction l1 as [|a l1 IH]; [done|]. intros Hp. apply IH.
  change ((a :: l1) ++ l2) with (a :: (l1 ++ l2)) in Hp.
  destruct (l1 ++ l2) as [|b l]; [done|]. by destruct Hp.
Qed.

Lemma pt_to_cell_free (pf : PathFinder) (p : pt) :
  pt_to_cell pf p ∉ blocked pf →
  is_free pf (pt_to_cell pf p) ∨ (∀ x, ¬ is_free pf x).
Proof.
  intros Hb. destruct (decide (1 ≤ cols pf ∧ 1 ≤ rows pf)) as [[Hc Hr]|Hno].
  - left. split; [|done]. unfold in_grid, pt_to_cell. simpl. lia.
  - right. intros x [[Hx Hy] _]. lia.
Qed.

(** A path that no walk beats visits no cell twice. *)
Lemma optimal_path_NoDup (pf : PathFinder) (g : cell) (l : list cell) (a : cell) :
  is_path pf (a :: l) → last (a :: l) = Some g →
  (∀ m, walk pf a g m → steps (a :: l) ≤ m) → NoDup (a :: l).
Proof.
  revert a. induction l as [|b l IH]; intros a Hp Hl Hopt.
  - apply NoDup_singleton.
  - pose proof Hp as [Hb Hp']. rewrite last_cons_cons in Hl.
    apply NoDup_cons. split.
    + intros Ha. apply list_elem_of_split in Ha as (l1 & l2 & E).
      assert (Hsuf : is_path pf (a :: l2)) by (rewrite E in Hp'; by eapply is_path_app_r).
      assert (Hlast : last (a :: l2) = Some g).
      { rewrite E in Hl. by rewrite last_app_cons in Hl. }
      specialize (Hopt _ (is_path_walk _ _ _ _ Hsuf Hlast)).
      unfold steps in Hopt. rewrite E in Hopt. simpl in Hopt.
      rewrite length_app in Hopt. simpl in Hopt. lia.
    + apply IH; [done|done|]. intros m Hm.
      specialize (Hopt _ (walk_cons _ _ _ _ _ Hb Hm)). rewrite steps_cons in Hopt. lia.
Qed.

#[global] Instance cell_to_pt_inj : Inj (=) (=) cell_to_pt.
Proof.
  intros [x y] [x' y']. unfold cell_to_pt, CELL_SIZE. simpl. intros [= Hx Hy].
  f_equal; lia.
Qed.

Lemma path_axis_steps (pf : PathFinder) (l : list cell) :
  is_path pf l → axis_steps (cell_to_pt <$> l).
Proof.
  induction l as [|a l IH]; intros Hp i p q Hi Hsi; [done|].
  destruct l as [|b l]; [done|]. destruct Hp as [Hb Hp].
  destruct i as [|i].
  - simpl in Hi, Hsi. injection Hi as <-. injection Hsi as <-.
    apply elem_of_neighbors in Hb as [_ Hadj].
    destruct a as [x y], b as [x' y']. unfold cell_to_pt, CELL_SIZE. simpl in *.
    destruct Hadj as [E|[E|[E|E]]]; inversion E; subst; lia.
  - by apply (IH Hp i).
Qed.

(** X10: a route returned by [shortest], if not empty, is made of the
    centres of the cells of a path from the start cell to the goal cell
    that visits no cell twice. *)
Theorem shortest_route_is_path (pf : PathFinder) (start_px goal_px : pt) (r : list pt) :
  shortest pf start_px goal_px = Ret r → r ≠ [] →
  ∃ l, r = cell_to_pt <$> l ∧
       path_from_to pf (pt_to_cell pf start_px) (pt_to_cell pf goal_px) l ∧
       NoDup l.
Proof.
  intros Hr Hne.
  destruct (decide (pt_to_cell pf start_px ∈ blocked pf)) as [Hs|Hs].
  { rewrite shortest_blocked in Hr by auto. congruence. }
  destruct (decide (pt_to_cell pf goal_px ∈ blocked pf)) as [Hg|Hg].
  { rewrite shortest_blocked in Hr by auto. congruence. }
  destruct (shortest_result pf start_px goal_px Hs Hg)
    as [(l & E & Hp & _ & Hopt)|[E _]]; [|congruence].
  exists l. split; [congruence|]. split; [done|].
  destruct Hp as (Hh & Hl & Hp). destruct l as [|a l]; [done|].
  injection Hh as ->. by eapply optimal_path_NoDup.
Qed.

(** X11: in pixels, a route returned by [shortest], if not empty, starts
    at the centre of the start cell,
    ends at the centre of the goal cell, moves by exactly one cell size
    along one axis from each waypoint to the next, and passes no point
    twice. *)
Theorem shortest_route_geometry (pf : PathFinder) (start_px goal_px : pt) (r : list pt) :
  shortest pf start_px goal_px = Ret r → r ≠ [] →
  head r = Some (cell_to_pt (pt_to_cell pf start_px)) ∧
  last r = Some (cell_to_pt (pt_to_cell pf goal_px)) ∧
  axis_steps r ∧ NoDup r.
Proof.
  intros Hr Hne.
  destruct (decide (pt_to_cell pf start_px ∈ blocked pf)) as [Hs|Hs].
  { rewrite shortest_blocked in Hr by auto. congruence. }
  destruct (decide (pt_to_cell pf goal_px ∈ blocked pf)) as [Hg|Hg].
  { rewrite shortest_blocked in Hr by auto. congruence. }
  destruct (shortest_result pf start_px goal_px Hs Hg)
    as [(l & E & Hp & _ & Hopt)|[E _]]; [|congruence].
  assert (r = cell_to_pt <$> l) as -> by congruence.
  destruct Hp as (Hh & Hl & Hp).
  destruct l as [|a l]; [done|]. injection Hh as ->.
  split; [done|]. split; [by rewrite fmap_last, Hl|].
  split; [by eapply path_axis_steps|].
  apply (NoDup_fmap_2 _). by eapply optimal_path_NoDup.
Qed.

(** X12: between two unblocked cells joined by a path of fewer than
    [BIG] steps, the route back has as many waypoints as the route
    there. *)
Theorem shortest_length_symmetric (pf : PathFinder) (start_px goal_px : pt)
    (p0 : list cell) :
  pt_to_cell pf start_px ∉ blocked pf →
  pt_to_cell pf goal_px ∉ blocked pf →
  path_from_to pf (pt_to_cell pf start_px) (pt_to_cell pf goal_px) p0 →
  steps p0 < BIG →
  ∃ r r', shortest pf start_px goal_px = Ret r ∧ shortest pf goal_px start_px = Ret r' ∧
          r ≠ [] ∧ length r = length r'.
Proof.
  intros Hs Hg Hp0 Hst0.
  pose proof (pt_to_cell_free pf start_px Hs) as Hfs.
  pose proof (pt_to_cell_free pf goal_px Hg) as Hfg.
  pose proof (path_walk _ _ _ _ Hp0) as Hw0.
  destruct (shortest_result pf start_px goal_px Hs Hg)
    as [(l & -> & Hp & _ & Hopt)|[_ Hfar]];
    [|specialize (Hfar _ Hw0); lia].
  destruct (shortest_result pf goal_px start_px Hg Hs)
    as [(l' & -> & Hp' & _ & Hopt')|[_ Hfar]];
    [|specialize (Hfar _ (walk_rev _ _ _ _ Hfs Hw0)); lia].
  exists (cell_to_pt <$> l), (cell_to_pt <$> l'). split; [done|]. split; [done|].
  split; [by eapply path_nonempty|].
  rewrite !length_fmap.
  pose proof (Hopt _ (walk_rev _ _ _ _ Hfg (path_walk _ _ _ _ Hp'))).
  pose proof (Hopt' _ (walk_rev _ _ _ _ Hfs (path_walk _ _ _ _ Hp))).
  unfold steps in *. lia.
Qed.

(** X13: at every iteration of the search loop, no two entries of the
    heap agree on cost and cell: the comparison of two heap entries is
    always settled by their first three components and never reaches
    the predecessors ([None] or a cell). *)
Theorem heap_entries_never_tie (pf : PathFinder) (s g : cell) (m : nat) (st : astar_state)
    (i j : nat) (a b : entry) :
  run (astar_body pf g) m (astar_init s g) = inl st →
  a_pq st !! i = Some a → a_pq st !! j = Some b → i ≠ j →
  (e_d a, e_cur a) ≠ (e_d b, e_cur b).
Proof.
  intros Hrun Ha Hb Hij Heq.
  pose proof (astar_keys_distinct pf s g m st Hrun) as Hnd.
  apply Hij. eapply NoDup_lookup; [exact Hnd| |].
  - rewrite list_lookup_fmap, Ha. done.
  - rewrite list_lookup_fmap, Hb. simpl. unfold e_key. by rewrite Heq.
Qed.

(** The route has two waypoints or more exactly when start and goal are
    two different unblocked cells joined by a path of fewer than [BIG]
    steps. *)
Lemma shortest_two_waypoints_iff (pf : PathFinder) (start_px goal_px : pt) :
  let s := pt_to_cell pf start_px in
  let g := pt_to_cell pf goal_px in
  ∃ r, shortest pf start_px goal_px = Ret r ∧
       (2 ≤ Z.of_nat (length r) ↔
        (s ∉ blocked pf) ∧ (g ∉ blocked pf) ∧ s ≠ g ∧
        ∃ l, path_from_to pf s g l ∧ steps l < BIG) ∧
       (2 ≤ Z.of_nat (length r) →
        head r = Some (cell_to_pt s) ∧ last r = Some (cell_to_pt g)).
Proof.
  intros s g.
  destruct (decide (s ∈ blocked pf)) as [Hs|Hs].
  { exists []. split; [apply shortest_blocked; by left|]. simpl. split; [|lia].
    split; [lia|]. by intros [? _]. }
  destruct (decide (g ∈ blocked pf)) as [Hg|Hg].
  { exists []. split; [apply shortest_blocked; by right|]. simpl. split; [|lia].
    split; [lia|]. by intros (_ & ? & _). }
  pose proof (shortest_result pf start_px goal_px Hs Hg) as Hres.
  cbv zeta in Hres. fold s g in Hres.
  destruct Hres as [(l & -> & Hp & Hst & Hopt)|[-> Hfar]].
  - exists (cell_to_pt <$> l). split; [done|]. rewrite length_fmap.
    pose proof Hp as (Hh & Hl & Hpath). split; [split|].
    + intros Hlen. split; [done|]. split; [done|]. split; [|eauto].
      intros E. rewrite <- E in Hopt. specialize (Hopt 0 (walk_here _ _)).
      unfold steps in Hopt. lia.
    + intros (_ & _ & Hne & _). destruct l as [|a [|b l]]; [done| |simpl; lia].
      simpl in Hh, Hl. congruence.
    + intros _. destruct l as [|a l]; [done|]. injection Hh as ->.
      split; [done|]. by rewrite fmap_last, Hl.
  - exists []. split; [done|]. simpl. split; [|lia]. split; [lia|].
    intros (_ & _ & _ & l & Hp & Hst). apply path_walk in Hp.
    specialize (Hfar _ Hp). lia.
Qed.

Example shortest_route_is_path_witness :
  ∃ l, [(20, 20); (60, 20)] = cell_to_pt <$> l ∧
       path_from_to (PathFinder_init ring_level)
         (pt_to_cell (PathFinder_init ring_level) (5, 5))
         (pt_to_cell (PathFinder_init ring_level) (50, 5)) l ∧
       NoDup l.
Proof.
  assert (H1 : shortest (PathFinder_init ring_level) (5, 5) (50, 5)
               = Ret [(20, 20); (60, 20)]) by (vm_compute; reflexivity).
  assert (H2 : [(20, 20); (60, 20)] ≠ ([] : list pt)) by discriminate.
  exact (shortest_route_is_path (PathFinder_init ring_level) (5, 5) (50, 5) _ H1 H2).
Defined.

Example shortest_route_geometry_witness :
  head [(20, 20); (60, 20)]
    = Some (cell_to_pt (pt_to_cell (PathFinder_init ring_level) (5, 5))) ∧
  last [(20, 20); (60, 20)]
    = Some (cell_to_pt (pt_to_cell (PathFinder_init ring_level) (50, 5))) ∧
  axis_steps [(20, 20); (60, 20)] ∧ NoDup [(20, 20); (60, 20)].
Proof.
  assert (H1 : shortest (PathFinder_init ring_level) (5, 5) (50, 5)
               = Ret [(20, 20); (60, 20)]) by (vm_compute; reflexivity).
  assert (H2 : [(20, 20); (60, 20)] ≠ ([] : list pt)) by discriminate.
  exact (shortest_route_geometry (PathFinder_init ring_level) (5, 5) (50, 5) _ H1 H2).
Defined.

Example shortest_length_symmetric_witness :
  ∃ r r', shortest (PathFinder_init ring_level) (0, 0) (119, 119) = Ret r ∧
          shortest (PathFinder_init ring_level) (119, 119) (0, 0) = Ret r' ∧
          r ≠ [] ∧ length r = length r'.
Proof.
  apply (shortest_length_symmetric (PathFinder_init ring_level) (0, 0) (119, 119)
           [(0, 0); (1, 0); (2, 0); (2, 1); (2, 2)]).
  - apply (bool_decide_unpack _); vm_compute; exact I.
  - apply (bool_decide_unpack _); vm_compute; exact I.
  - apply (bool_decide_unpack _); vm_compute; exact I.
  - vm_compute. reflexivity.
Defined.

Example heap_entries_never_tie_witness :
  ∃ st a b, run (astar_body (PathFinder_init ring_level) (2, 2)) 1
                (astar_init (0, 0) (2, 2)) = inl st ∧
            a_pq st !! 0%nat = Some a ∧ a_pq st !! 1%nat = Some b ∧
            (e_d a, e_cur a) ≠ (e_d b, e_cur b).
Proof.
  eexists _, _, _.
  assert (H1 : run (astar_body (PathFinder_init ring_level) (2, 2)) 1
                 (astar_init (0, 0) (2, 2))
               = inl (mkAstar [(4, 1, (1, 0), Some (0, 0)); (4, 1, (0, 1), Some (0, 0))]
                              {[ (0, 0) := None ]}
                              (<[(0, 1) := 1]> (<[(1, 0) := 1]> {[ (0, 0) := 0 ]}))))
    by (vm_compute; reflexivity).
  split; [exact H1|]. split; [reflexivity|]. split; [reflexivity|].
  assert (H2 : (0 ≠ 1)%nat) by discriminate.
  exact (heap_entries_never_tie (PathFinder_init ring_level) (0, 0) (2, 2) 1 _
           0%nat 1%nat _ _ H1 eq_refl eq_refl H2).
Defined.

(** * Distances of the breadth-first search *)

Section bfs_distances.
Variables (pf : PathFinder) (start : cell).

Lemma visit_dist_ok (c n : cell) (pend : list cell) (dc : Z) (st st' : bfs_state) :
  bfs_inv pf start st →
  bfs_dist_inv pf start (n :: pend) c st →
  layered dc (b_q st) (b_dist st) →
  dist_get (b_dist st) c = Some dc →
  n ∈ neighbors pf c →
  visit c st n = Some st' →
  bfs_dist_inv pf start pend c st' ∧ layered dc (b_q st') (b_dist st') ∧
  dist_get (b_dist st') c = Some dc.
Proof.
  intros Hinv [Hs Hw Hr Hl Hcl] Hlay Hc Hn.
  pose proof Hlay as [(q1 & q2 & Hq & Hq1 & Hq2) Hmax]. unfold visit.
  destruct (dist_get (b_dist st) n) as [x|] eqn:En.
  - intros [= <-]. split; [split; try done|done].
    intros c' v Hc'. destruct (Hcl _ _ Hc') as [?|Hnb]; [by left|right].
    intros n' Hn'. destruct (Hnb _ Hn') as [?|[-> Hp]]; [by left|].
    apply elem_of_cons in Hp as [->|Hp]; [|by right].
    left. exists x. split; [done|]. specialize (Hmax _ _ En).
    assert (v = dc) by congruence. lia.
  - rewrite Hc. intros [= <-]. simpl.
    assert (Hold : ∀ c' v, dist_get (b_dist st) c' = Some v →
                     dist_get (b_dist st ++ [(n, dc + 1)]) c' = Some v).
    { intros c' v Hc'. by rewrite dist_get_snoc, Hc'. }
    split; [split; simpl|split].
    + by apply Hold.
    + intros c' v. rewrite dist_get_snoc.
      destruct (dist_get (b_dist st) c') as [x|] eqn:Ec'.
      * intros [= <-]. by apply Hw.
      * case_decide as Hnc; [|done]. intros [= <-]. subst c'.
        eapply walk_step; [by apply Hw|done].
    + intros c'. destruct (decide (c' = n)) as [->|Hne].
      * by rewrite lookup_insert_eq.
      * rewrite lookup_insert_ne by done. apply Hr.
    + intros c' p. destruct (decide (c' = n)) as [->|Hne].
      * rewrite lookup_insert_eq. by intros [= <-].
      * rewrite lookup_insert_ne by done. apply Hl.
    + intros c' v. simpl. rewrite dist_get_snoc.
      destruct (dist_get (b_dist st) c') as [x|] eqn:Ec'.
      * intros [= <-]. destruct (Hcl _ _ Ec') as [?|Hnb].
        { left. apply elem_of_app. by left. }
        right. intros n' Hn'. destruct (Hnb _ Hn') as [(w & Hw' & ?)|[-> Hp]].
        { left. exists w. split; [by apply Hold|done]. }
        apply elem_of_cons in Hp as [->|Hp]; [|by right].
        left. exists (dc + 1). rewrite dist_get_snoc, En, decide_True by done.
        split; [done|]. assert (x = dc) by congruence. lia.
      * case_decide as Hnc; [|done]. intros [= <-]. subst c'.
        left. apply elem_of_app. right. by apply list_elem_of_singleton.
    + split.
      * exists q1, (q2 ++ [n]). split; [by rewrite Hq, (assoc_L (++))|]. split.
        { intros m Hm. apply Hold. by apply Hq1. }
        { intros m [Hm|Hm]%elem_of_app; [apply Hold; by apply Hq2|].
          apply list_elem_of_singleton in Hm as ->.
          by rewrite dist_get_snoc, En, decide_True. }
      * intros c' v. rewrite dist_get_snoc.
        destruct (dist_get (b_dist st) c') as [x|] eqn:Ec'.
        { intros [= <-]. by eapply Hmax. }
        { case_decide; [|done]. intros [= <-]. lia. }
    + by apply Hold.
Qed.

Lemma fold_visit_dist_ok (c : cell) (dc : Z) (ns : list cell) (st st' : bfs_state) :
  bfs_inv pf start st →
  bfs_dist_inv pf start ns c st →
  layered dc (b_q st) (b_dist st) →
  dist_get (b_dist st) c = Some dc →
  (∀ n, n ∈ ns → n ∈ neighbors pf c) →
  foldl (λ acc n, acc ≫= λ st', visit c st' n) (Some st) ns = Some st' →
  bfs_dist_inv pf start [] c st' ∧ layered dc (b_q st') (b_dist st').
Proof.
  revert st. induction ns as [|n ns IH]; intros st Hinv Hd Hlay Hc Hsub Hf.
  - simpl in Hf. injection Hf as <-. done.
  - simpl in Hf.
    assert (Hn : n ∈ neighbors pf c) by (apply Hsub; left).
    destruct (visit_ok pf start c n st Hinv (ex_intro _ dc Hc) Hn)
      as (st1 & Hv & Hinv1 & _ & _).
    rewrite Hv in Hf. simpl in Hf.
    destruct (visit_dist_ok c n ns dc st st1 Hinv Hd Hlay Hc Hn Hv) as (Hd1 & Hlay1 & Hc1).
    apply (IH st1); try done. intros n' Hn'. apply Hsub. by right.
Qed.

Lemma bfs_closed_irrel (cur cur' : cell) (st : bfs_state) :
  bfs_closed pf [] cur st → bfs_closed pf [] cur' st.
Proof.
  intros Hcl c v Hc. destruct (Hcl _ _ Hc) as [?|Hnb]; [by left|right].
  intros n Hn. destruct (Hnb _ Hn) as [?|[_ Hp]]; [by left|]. by apply elem_of_nil in Hp.
Qed.

(** One iteration of [while q] keeps the distances right. *)
Lemma bfs_body_dist_ok (st st' : bfs_state) :
  bfs_inv pf start st →
  bfs_dist_inv pf start [] start st →
  (∃ d, layered d (b_q st) (b_dist st)) →
  bfs_body pf st = inl st' →
  bfs_dist_inv pf start [] start st' ∧ ∃ d, layered d (b_q st') (b_dist st').
Proof.
  intros Hinv Hd [d Hlay]. unfold bfs_body.
  destruct (b_q st) as [|c q'] eqn:Eq; [done|].
  destruct (foldl _ _ _) as [st1|] eqn:Ef; [|done]. intros [= <-].
  assert (Hinv0 : bfs_inv pf start (mkBfs q' (b_dist st) (b_par st))).
  { destruct Hinv as [Hs Hq Hch Hp Hb Hnd Hk]. split; simpl; try done.
    intros c' Hc'. apply Hq. rewrite Eq. by right. }
  assert (∃ dc, dist_get (b_dist st) c = Some dc ∧ layered dc q' (b_dist st))
    as (dc & Hc & Hlay').
  { destruct Hlay as [(q1 & q2 & Hq & Hq1 & Hq2) Hmax].
    destruct q1 as [|c1 q1].
    - simpl in Hq. subst q2. exists (d + 1). split; [apply Hq2; left|].
      split.
      + exists q', []. split; [by rewrite (right_id_L [] (++))|]. split.
        * intros m Hm. apply Hq2. by right.
        * intros m Hm. by apply elem_of_nil in Hm.
      + intros c' v Hc'. specialize (Hmax _ _ Hc'). lia.
    - injection Hq as <- ->. exists d. split; [apply Hq1; left|].
      split; [|done]. exists q1, q2. split; [done|]. split; [|done].
      intros m Hm. apply Hq1. by right. }
  assert (Hd0 : bfs_dist_inv pf start (neighbors pf c) c (mkBfs q' (b_dist st) (b_par st))).
  { destruct Hd as [Hs Hw Hr Hl Hcl]. split; simpl; try done.
    intros c' v Hc'. simpl. destruct (Hcl _ _ Hc') as [Hin|Hnb].
    - rewrite Eq in Hin. apply elem_of_cons in Hin as [->|Hin]; [|by left].
      right. intros n Hn. by right.
    - right. intros n Hn. destruct (Hnb _ Hn) as [?|[_ Hp]]; [by left|].
      by apply elem_of_nil in Hp. }
  destruct (fold_visit_dist_ok c dc (neighbors pf c) _ st1 Hinv0 Hd0 Hlay' Hc
              (λ n H, H) Ef) as [Hd1 Hlay1].
  split; [|eauto].
  destruct Hd1 as [Hs Hw Hr Hl Hcl]. split; try done.
  by eapply bfs_closed_irrel.
Qed.


Lemma dist_get_elem (dist : list (cell * Z)) (c : cell) (v : Z) :
  dist_get dist c = Some v → (c, v) ∈ dist.
Proof.
  induction dist as [|[k w] dist IH]; [done|]. cbn [dist_get].
  case_decide as Hk.
  - intros [= ->]. subst k. left.
  - intros Hc. right. by apply IH.
Qed.

Lemma elem_dist_get (dist : list (cell * Z)) (c : cell) (v : Z) :
  NoDup dist.*1 → (c, v) ∈ dist → dist_get dist c = Some v.
Proof.
  induction dist as [|[k w] dist IH]; intros Hnd Hin; [by apply elem_of_nil in Hin|].
  rewrite fmap_cons in Hnd. apply NoDup_cons in Hnd as [Hk Hnd]. cbn [dist_get].
  apply elem_of_cons in Hin as [[= -> ->]|Hin].
  - by rewrite decide_True.
  - rewrite decide_False; [by apply IH|].
    intros ->. apply Hk. simpl. by apply (list_elem_of_fmap_2 fst _ (c, v)).
Qed.

(** [far_of] returns a key of greatest value. *)
Lemma far_of_max (dist : list (cell * Z)) (best : cell * Z) :
  let r := foldl (λ best kv, if decide (best.2 < kv.2) then kv else best) best dist in
  (r = best ∨ r ∈ dist) ∧ best.2 ≤ r.2 ∧ ∀ kv, kv ∈ dist → kv.2 ≤ r.2.
Proof.
  revert best. induction dist as [|kv dist IH]; intros best; simpl.
  - split; [by left|]. split; [lia|]. intros kv Hkv. by apply elem_of_nil in Hkv.
  - destruct (IH (if decide (best.2 < kv.2) then kv else best)) as (Hin & Hle & Hmax).
    split; [|split].
    + destruct Hin as [->|Hin]; [|right; by right].
      case_decide; [right; left|by left].
    + case_decide; lia.
    + intros kv' [->|Hkv']%elem_of_cons; [|by apply Hmax]. case_decide; lia.
Qed.

Lemma chain_path (par : gmap (Z * Z) (option (Z * Z))) (c : cell) (l : list cell) :
  (∀ c, par !! c = Some None → c = start) →
  (∀ c p, par !! c = Some (Some p) → c ∈ neighbors pf p) →
  chain par c l → path_from_to pf start c l.
Proof.
  intros Hr Hl. induction 1 as [c Hc|c p l Hc _ IH].
  - apply Hr in Hc as ->. done.
  - eapply path_snoc; [done|]. by apply Hl.
Qed.

(** What [bfs] returns: a farthest cell, and predecessor links that spell
    a shortest path to it; no cell that can be reached from the start
    is farther than that. *)
Lemma bfs_spec :
  ∃ far par l, bfs pf start = Ret (far, par) ∧ chain par far l ∧
               (length l + 1 ≤ 2 ^ bfs_fuel pf)%nat ∧
               path_from_to pf start far l ∧
               (∀ m, walk pf start far m → steps l ≤ m) ∧
               (∀ c k, walk pf start c k → ∃ k', walk pf start c k' ∧ k' ≤ steps l).
Proof.
  unfold bfs. rewrite while_pow_run.
  set (st0 := mkBfs [start] [(start, 0)] {[ start := None ]}).
  set (I := λ st, bfs_inv pf start st ∧ bfs_dist_inv pf start [] start st ∧
                  ∃ d, layered d (b_q st) (b_dist st)).
  pose proof (pow2_bfs_fuel pf) as Hfuel.
  assert (Hstep : ∀ st st', I st → bfs_body pf st = inl st' → I st').
  { intros st st' (Hinv & Hd & Hlay) Hb. split.
    - destruct (bfs_body_ok pf start st Hinv) as [[_ E]|(st2 & E & ? & _)]; congruence.
    - by eapply bfs_body_dist_ok. }
  assert (HI0 : I st0).
  { split; [apply bfs_init_inv|]. split.
    - split; simpl.
      + by rewrite decide_True.
      + intros c v. case_decide as Hc; [|done]. intros [= <-]. subst c. apply walk_here.
      + intros c. destruct (decide (c = start)) as [->|Hne]; [done|].
        by rewrite lookup_singleton_ne.
      + intros c p. destruct (decide (c = start)) as [->|Hne].
        * by rewrite lookup_singleton_eq.
        * by rewrite lookup_singleton_ne.
      + intros c v. simpl. case_decide as Hc; [|done]. intros _. left. subst c. left.
    - exists 0. split.
      + exists [start], []. split; [done|]. split.
        * intros m ->%list_elem_of_singleton. simpl. by rewrite decide_True.
        * intros m Hm. by apply elem_of_nil in Hm.
      + intros c v. simpl. case_decide; [|done]. intros [= <-]. lia. }
  destruct (run_terminates (bfs_body pf) I Hstep (bfs_potential pf))
    with (m := (2 ^ bfs_fuel pf)%nat) (s := st0) as [r Hrun].
  - intros st st' (Hinv & _) Hb. split; [apply bfs_potential_nonneg|].
    destruct (bfs_body_ok pf start st Hinv) as [[_ E]|(st2 & E & _ & Hpot)]; congruence.
  - done.
  - pose proof (sumZ_bounds (unseen (b_dist st0)) (cells pf) 1
                  (unseen_bounds (b_dist st0))) as Hs.
    rewrite length_cells in Hs. unfold bfs_potential. simpl length. lia.
  - lia.
  - rewrite Hrun.
    destruct (run_inv_inr (bfs_body pf) I Hstep _ _ _ HI0 Hrun)
      as (st1 & (Hinv & Hd & _) & Hb).
    destruct (bfs_body_ok pf start st1 Hinv) as [[Eq E]|(st2 & E & _ & _)]; [|congruence].
    rewrite E in Hb. injection Hb as <-.
    destruct Hd as [Hs Hw Hr Hl Hcl].
    (* every cell seen is closed *)
    assert (Hclosed : ∀ c v n, dist_get (b_dist st1) c = Some v → n ∈ neighbors pf c →
                        ∃ w, dist_get (b_dist st1) n = Some w ∧ w ≤ v + 1).
    { intros c v n Hc Hn. destruct (Hcl _ _ Hc) as [Hin|Hnb].
      - rewrite Eq in Hin. by apply elem_of_nil in Hin.
      - destruct (Hnb _ Hn) as [?|[_ Hp]]; [done|]. by apply elem_of_nil in Hp. }
    assert (Hcomplete : ∀ c k, walk pf start c k →
                          ∃ v, dist_get (b_dist st1) c = Some v ∧ v ≤ k).
    { induction 1 as [|c n k _ (v & Hv & Hle) Hn].
      - exists 0. split; [done|lia].
      - destruct (Hclosed _ _ _ Hv Hn) as (w & Hw' & Hle'). exists w. split; [done|lia]. }
    (* the farthest cell *)
    destruct (far_of_max (b_dist st1) (start, 0)) as (Hin & _ & Hmax).
    fold (far_of start (b_dist st1)) in *.
    set (r := foldl (λ best kv, if decide (best.2 < kv.2) then kv else best)
                    (start, 0) (b_dist st1)) in *.
    assert (Hr1 : far_of start (b_dist st1) = r.1) by done.
    assert (Hfar : dist_get (b_dist st1) r.1 = Some r.2).
    { destruct Hin as [->|Hin]; [done|].
      apply elem_dist_get; [apply (bi_nodup _ _ _ Hinv)|]. by destruct r. }
    destruct (bi_chain _ _ _ Hinv _ _ Hfar) as (l & Hch & Hlen).
    exists r.1, (b_par st1), l.
    assert (Hst : steps l = r.2) by (unfold steps; lia).
    split; [done|]. split; [done|]. split; [|split; [|split]].
    + pose proof (bi_bound _ _ _ Hinv _ _ Hfar) as Hb.
      assert (Hkeys : (length (b_dist st1).*1 ≤ length (start :: cells pf))%nat).
      { apply submseteq_length, NoDup_submseteq; [apply (bi_nodup _ _ _ Hinv)|].
        intros c Hc. destruct (bi_keys _ _ _ Hinv c Hc) as [->|Hin']; [left|right].
        by apply elem_of_cells. }
      rewrite length_fmap in Hkeys. simpl in Hkeys.
      pose proof (length_cells pf). lia.
    + by apply (chain_path (b_par st1)).
    + intros m Hm. destruct (Hcomplete _ _ Hm) as (v & Hv & Hle).
      rewrite Hst. congruence.
    + intros c k Hk. destruct (Hcomplete _ _ Hk) as (v & Hv & Hle).
      exists v. split; [by apply Hw|]. rewrite Hst.
      apply (Hmax (c, v)). by apply dist_get_elem.
Qed.

End bfs_distances.

(** * Further properties of the approximate longest route *)

Lemma path_all_free (pf : PathFinder) (l : list cell) (a : cell) :
  is_path pf (a :: l) → is_free pf a → ∀ c, c ∈ a :: l → is_free pf c.
Proof.
  revert a. induction l as [|b l IH]; intros a Hp Ha c Hc.
  - by apply list_elem_of_singleton in Hc as ->.
  - destruct Hp as [Hb Hp]. apply elem_of_cons in Hc as [->|Hc]; [done|].
    apply (IH b); [done| |done]. by apply elem_of_neighbors in Hb as [? _].
Qed.

Lemma first_free_spec (pf : PathFinder) :
  match first_free pf with
  | Some c => is_free pf c
  | None => ∀ x, ¬ is_free pf x
  end.
Proof.
  unfold first_free.
  destruct (filter _ _) as [|c l] eqn:E; simpl.
  - intros [x y] [[Hx Hy] Hnb].
    assert (Hin : (x, y) ∈ filter (λ c, c ∉ blocked pf)
                    (cy ← range 0 (rows pf); cx ← range 0 (cols pf); [(cx, cy)])).
    { apply list_elem_of_filter. split; [done|].
      apply list_elem_of_bind. exists y. split; [|apply elem_of_range; simpl in *; lia].
      apply list_elem_of_bind. exists x. split; [|apply elem_of_range; simpl in *; lia].
      by apply list_elem_of_singleton. }
    rewrite E in Hin. by apply elem_of_nil in Hin.
  - assert (Hc : c ∈ filter (λ c, c ∉ blocked pf)
                   (cy ← range 0 (rows pf); cx ← range 0 (cols pf); [(cx, cy)]))
      by (rewrite E; left).
    apply list_elem_of_filter in Hc as [Hnb Hc]. split; [|done].
    apply list_elem_of_bind in Hc as (y & Hc & Hy).
    apply list_elem_of_bind in Hc as (x & Hc & Hx).
    apply list_elem_of_singleton in Hc as ->.
    apply elem_of_range in Hx, Hy. unfold in_grid. simpl. lia.
Qed.

Lemma sweep_start_free (pf : PathFinder) (start_px : pt) :
  is_free pf (sweep_start pf start_px) ∨ (∀ x, ¬ is_free pf x).
Proof.
  unfold sweep_start. cbv zeta. case_decide as Hb.
  - pose proof (first_free_spec pf) as Hff.
    destruct (first_free pf) as [c|]; simpl; [by left|by right].
  - destruct (decide (1 ≤ cols pf ∧ 1 ≤ rows pf)) as [[Hc Hr]|Hno].
    + left. split; [|done]. unfold in_grid, pt_to_cell. simpl. lia.
    + right. intros x [[Hx Hy] _]. lia.
Qed.

Lemma walk_zero (pf : PathFinder) (a c : cell) : walk pf a c 0 → c = a.
Proof.
  inversion 1 as [|c' n k Hw Hn Hk]; [done|].
  apply walk_nonneg in Hw. lia.
Qed.

Lemma walk_stuck (pf : PathFinder) (a c : cell) (k : Z) :
  neighbors pf a = [] → walk pf a c k → c = a ∧ k = 0.
Proof.
  intros Hno. induction 1 as [|c n k _ [-> ->] Hn]; [done|].
  rewrite Hno in Hn. by apply elem_of_nil in Hn.
Qed.

(** The two sweeps of [longest_approx]: the route runs from a cell [A]
    farthest from the start of the sweeps to a cell [B] farthest from
    [A], along a shortest path between the two. *)
Lemma longest_approx_spec (pf : PathFinder) (start_px : pt) :
  let s := sweep_start pf start_px in
  ∃ A B l d,
    longest_approx pf start_px = Ret (cell_to_pt <$> l) ∧
    path_from_to pf A B l ∧
    (∀ m, walk pf A B m → steps l ≤ m) ∧
    walk pf s A d ∧ d ≤ steps l ∧
    (∀ c k, walk pf s c k → ∃ k', walk pf s c k' ∧ k' ≤ d).
Proof.
  intros s. unfold longest_approx. cbv zeta. fold (sweep_start pf start_px). fold s.
  destruct (bfs_spec pf s) as (A & par1 & l1 & -> & _ & _ & Hp1 & Hopt1 & Hecc1).
  destruct (bfs_spec pf A) as (B & par & l & -> & Hch & Hlen & Hp & Hopt & Hecc).
  rewrite (trace_while _ _ _ _ Hch Hlen), reverse_involutive.
  pose proof (path_walk _ _ _ _ Hp1) as HsA.
  exists A, B, l, (steps l1). split; [done|]. split; [done|]. split; [done|].
  split; [done|]. split; [|done].
  pose proof (sweep_start_free pf start_px) as Hfs. fold s in Hfs.
  assert (HfA : is_free pf A ∨ (∀ x, ¬ is_free pf x)).
  { destruct Hfs as [Hs|Hno]; [left|by right]. by eapply walk_free. }
  destruct (Hecc s (steps l1)) as (k' & Hk' & Hle); [by apply walk_rev|].
  apply (walk_rev _ _ _ _ HfA), Hopt1 in Hk'. lia.
Qed.

(** X14: whatever the grid and the start point, [longest_approx] returns a
    route of at least one waypoint whose consecutive cells are
    neighbours; if the grid has a free cell at all, every waypoint is the
    centre of a free cell. *)
Theorem longest_route_is_path (pf : PathFinder) (start_px : pt) :
  ∃ l, longest_approx pf start_px = Ret (cell_to_pt <$> l) ∧ l ≠ [] ∧ is_path pf l ∧
       ((∃ c, is_free pf c) → ∀ c, c ∈ l → is_free pf c).
Proof.
  destruct (longest_approx_spec pf start_px)
    as (A & B & l & d & Hr & (Hh & Hl & Hp) & _ & HsA & _ & _).
  exists l. split; [done|]. split; [by destruct l|]. split; [done|].
  intros [c0 Hc0]. destruct l as [|a l]; [done|]. injection Hh as ->.
  apply path_all_free; [done|].
  destruct (sweep_start_free pf start_px) as [Hs|Hno]; [|by destruct (Hno c0)].
  by eapply walk_free.
Qed.

(** X15: the route of [longest_approx] is a shortest path between its two
    end cells: no path between them has fewer steps. *)
Theorem longest_route_is_geodesic (pf : PathFinder) (start_px : pt) :
  ∃ A B l, longest_approx pf start_px = Ret (cell_to_pt <$> l) ∧
           path_from_to pf A B l ∧
           ∀ p, path_from_to pf A B p → steps l ≤ steps p.
Proof.
  destruct (longest_approx_spec pf start_px)
    as (A & B & l & d & Hr & Hp & Hopt & _).
  exists A, B, l. split; [done|]. split; [done|].
  intros p Hp'. by apply Hopt, path_walk.
Qed.


(** The route has two waypoints or more exactly when the start cell of
    the sweeps has a free neighbour. *)
Lemma longest_two_waypoints_iff (pf : PathFinder) (start_px : pt) :
  ∃ r, longest_approx pf start_px = Ret r ∧
       (2 ≤ Z.of_nat (length r) ↔ neighbors pf (sweep_start pf start_px) ≠ []).
Proof.
  destruct (longest_approx_spec pf start_px)
    as (A & B & l & d & Hr & (Hh & Hl & Hp) & _ & HsA & Hd & HeccS).
  exists (cell_to_pt <$> l). split; [done|]. rewrite length_fmap. split.
  - intros Hlen Hno. destruct (walk_stuck _ _ _ _ Hno HsA) as [-> _].
    destruct l as [|a [|b l]]; [simpl in Hlen; lia|simpl in Hlen; lia|].
    injection Hh as ->. destruct Hp as [Hb _]. rewrite Hno in Hb.
    by apply elem_of_nil in Hb.
  - intros Hne. destruct (neighbors pf (sweep_start pf start_px)) as [|n ns] eqn:En; [done|].
    assert (Hn : n ∈ neighbors pf (sweep_start pf start_px)) by (rewrite En; left).
    destruct (HeccS n 1) as (k' & Hk' & Hle).
    { replace 1 with (0 + 1) by lia. eapply walk_step; [apply walk_here|done]. }
    assert (k' ≠ 0).
    { intros ->. apply walk_zero in Hk'. subst n.
      apply elem_of_neighbors in Hn as [_ Hadj].
      destruct (sweep_start pf start_px) as [x y]. simpl in Hadj.
      destruct Hadj as [E|[E|[E|E]]]; inversion E; lia. }
    pose proof (walk_nonneg _ _ _ _ Hk'). unfold steps in Hd. lia.
Qed.


(** * Further properties of the trajectory recorder *)

Lemma py_slice_last_n {A : Type} (k : Z) (l : list A) :
  1 ≤ k → py_slice_from (- k) l = last_n k l.
Proof.
  intros Hk. unfold py_slice_from, last_n. rewrite decide_True by lia. f_equal. lia.
Qed.

Lemma last_n_all {A : Type} (k : Z) (l : list A) :
  Z.of_nat (length l) ≤ k → last_n k l = l.
Proof. intros Hk. unfold last_n. replace (length l - Z.to_nat k)%nat with 0%nat by lia. done. Qed.

Lemma length_last_n {A : Type} (k : Z) (l : list A) :
  0 ≤ k → Z.of_nat (length (last_n k l)) = Z.min k (Z.of_nat (length l)).
Proof. intros Hk. unfold last_n. rewrite length_drop. lia. Qed.

Lemma last_n_snoc {A : Type} (k : Z) (l : list A) (p : A) :
  1 ≤ k → last_n k (last_n k l ++ [p]) = last_n k (l ++ [p]).
Proof.
  intros Hk. destruct (decide (Z.of_nat (length l) ≤ k)) as [Hle|Hgt].
  - by rewrite (last_n_all k l).
  - unfold last_n. rewrite !length_app, length_drop. cbn [length].
    rewrite !drop_app_le by (rewrite ?length_drop; lia).
    rewrite drop_drop. f_equal. f_equal. lia.
Qed.

Lemma last_last_n {A : Type} (k : Z) (l : list A) :
  1 ≤ k → last (last_n k l) = last l.
Proof.
  intros Hk. unfold last_n. destruct l as [|a l]; [done|].
  apply last_drop_lt. simpl. lia.
Qed.

Section recorder_window.
Context {F : Type} `{Float F}.

Lemma add_all_window (sd : F) (mp : Z) (ps acc : list (F * F))
    (σ : gmap nat (list (F * F))) (rec : MoveRecorder F) :
  1 ≤ mp → sample_dist rec = sd → max_points rec = mp →
  σ !! points rec = Some (last_n mp acc) →
  (acc ≠ [] → last_ rec = last acc) →
  ∃ σ' rec', add_all σ rec ps = Ret (σ', rec') ∧
             σ' !! points rec' = Some (last_n mp (acc ++ accepted sd (last acc) ps)).
Proof.
  intros Hmp. revert acc σ rec. induction ps as [|p ps IH]; intros acc σ rec Hsd Hmax Hpts Hlast.
  - simpl. rewrite app_nil_r. eauto.
  - cbn [add_all accepted]. destruct (decide (acc = [])) as [->|Hne].
    + rewrite add_empty by done. cbn [last app].
      destruct (IH [p] (<[points rec := [p]]> σ)
                  (mkRecorder (sample_dist rec) (max_points rec) (points rec) (Some p)))
        as (σ' & rec' & Hrun & Hres); try done.
      { cbn [points]. rewrite lookup_insert_eq. by rewrite last_n_all by (simpl; lia). }
      exists σ', rec'. split; [done|]. exact Hres.
    + specialize (Hlast Hne). destruct (last acc) as [l|] eqn:El.
      2:{ by apply last_None in El. }
      assert (Hne' : last_n mp acc ≠ []).
      { intros E. pose proof (last_last_n mp acc Hmp) as E'. rewrite E, El in E'. done. }
      rewrite (add_nonempty _ _ _ (last_n mp acc) l) by done. rewrite Hsd, Hmax.
      destruct (fle (fmul sd sd) (sqdist p l)) eqn:Ele.
      * replace (acc ++ p :: accepted sd (Some p) ps)
          with ((acc ++ [p]) ++ accepted sd (last (acc ++ [p])) ps)
          by (by rewrite last_snoc, <- (assoc_L (++))).
        case_decide as Hover.
        -- apply IH; try done.
           ++ cbn [points]. unfold new_list. cbn [fst snd]. rewrite lookup_insert_eq.
              f_equal. rewrite <- (last_n_snoc mp acc p) by done.
              by rewrite py_slice_last_n.
           ++ intros _. cbn [last_]. by rewrite last_snoc.
        -- apply IH; try done.
           ++ cbn [points]. rewrite lookup_insert_eq. f_equal.
              rewrite <- (last_n_snoc mp acc p) by done.
              by rewrite (last_n_all mp (_ ++ _)) by lia.
           ++ intros _. cbn [last_]. by rewrite last_snoc.
      * rewrite <- El. apply IH; try done. intros _. by rewrite El.
Qed.

End recorder_window.

(** X17: with room for at least one sample, the recorder holds after any
    sequence of [add] calls the last [max_points] of the positions that
    passed the spacing test: trimming drops the oldest samples and has
    no effect on which positions are accepted. *)
Theorem recorder_sliding_window {F : Type} `{Float F}
    (σ : gmap nat (list (F * F))) (sd : F) (mp : Z) (ps : list (F * F)) :
  1 ≤ mp →
  ∃ σ' rec',
    add_all (MoveRecorder_init σ sd mp).1 (MoveRecorder_init σ sd mp).2 ps
      = Ret (σ', rec') ∧
    σ' !! points rec' = Some (last_n mp (accepted sd None ps)).
Proof.
  intros Hmp.
  destruct (add_all_window sd mp ps [] (MoveRecorder_init σ sd mp).1
              (MoveRecorder_init σ sd mp).2 Hmp) as (σ' & rec' & Hrun & Hres); try done.
  { unfold MoveRecorder_init, new_list. simpl. by rewrite lookup_insert_eq. }
  eauto.
Qed.

Example recorder_sliding_window_witness :
  ∃ σ' rec',
    add_all (MoveRecorder_init ∅ (Fin 8) 3).1 (MoveRecorder_init ∅ (Fin 8) 3).2
      [(Fin 0, Fin 0); (Fin 5, Fin 0); (Fin 8, Fin 0); (Fin 16, Fin 0);
       (Fin 20, Fin 0); (Fin 24, Fin 0)] = Ret (σ', rec') ∧
    σ' !! points rec' = Some [(Fin 8, Fin 0); (Fin 16, Fin 0); (Fin 24, Fin 0)].
Proof.
  assert (H1 : 1 ≤ 3) by lia.
  exact (recorder_sliding_window ∅ (Fin 8) 3
           [(Fin 0, Fin 0); (Fin 5, Fin 0); (Fin 8, Fin 0); (Fin 16, Fin 0);
            (Fin 20, Fin 0); (Fin 24, Fin 0)] H1).
Defined.

(** X18: the list [backtrack_from] returns is empty exactly for an empty
    history; otherwise it is not longer than the history, begins with
    the query point when [include_current] is set, and, when it has two
    entries or more, ends with the oldest sample. *)
Theorem backtrack_route_shape {F : Type} `{Float F}
    (σ : gmap nat (list (F * F))) (rec : MoveRecorder F) (cur : F * F) (inc : bool)
    (pts : list (F * F)) :
  σ !! points rec = Some pts →
  ∃ rb σ' route,
    backtrack_from σ rec cur inc = Ret (rb, σ') ∧ σ' !! rb = Some route ∧
    (pts = [] → route = []) ∧
    (pts ≠ [] → (1 ≤ length route ≤ length pts)%nat ∧
                (inc = true → head route = Some cur) ∧
                ((2 ≤ length route)%nat → last route = head pts)).
Proof.
  intros Hp. destruct (decide (pts = [])) as [->|Hne].
  - unfold backtrack_from. rewrite Hp. unfold new_list.
    eexists _, _, _. split; [reflexivity|]. rewrite lookup_insert_eq.
    split; [reflexivity|]. done.
  - rewrite (backtrack_nonempty _ _ _ _ pts) by done. cbv zeta.
    set (i := (nearest_scan cur 0 (0%nat, finf) pts).1).
    eexists _, _, _. split; [reflexivity|]. rewrite lookup_insert_eq.
    split; [reflexivity|]. split; [done|]. intros _.
    destruct pts as [|p0 pts]; [done|].
    assert (Hlen : (1 ≤ length (take (i + 1) (p0 :: pts)) ≤ length (p0 :: pts))%nat).
    { rewrite length_take. simpl. lia. }
    set (back := take (i + 1) (p0 :: pts)) in *.
    assert (Hhead : head back = Some p0) by (unfold back; by rewrite Nat.add_1_r).
    assert (Hback : back ≠ []) by (intros E; rewrite E in Hlen; simpl in Hlen; lia).
    rewrite bool_decide_true by done. rewrite andb_true_r.
    split; [|split].
    + rewrite length_reverse. destruct inc; [by rewrite length_insert|done].
    + intros ->. rewrite head_reverse.
      rewrite last_lookup, length_insert.
      replace (pred (length back)) with (length back - 1)%nat by lia.
      rewrite list_lookup_insert_eq by lia. done.
    + rewrite length_reverse, last_reverse. destruct inc; [|by intros _].
      rewrite length_insert. intros H2.
      destruct back as [|b0 [|b1 back']]; [done|simpl in H2; lia|].
      simpl in Hhead. injection Hhead as ->.
      replace (length (p0 :: b1 :: back') - 1)%nat with (Datatypes.S (length back'))
        by (simpl; lia).
      done.
Qed.

Example backtrack_route_shape_witness :
  ∃ rb σ' route,
    backtrack_from line_store line_recorder (Fin 17, Fin 1) true = Ret (rb, σ') ∧
    σ' !! rb = Some route ∧ (sample_line = [] → route = []) ∧
    (sample_line ≠ [] → (1 ≤ length route ≤ length sample_line)%nat ∧
       (true = true → head route = Some (Fin 17, Fin 1)) ∧
       ((2 ≤ length route)%nat → last route = head sample_line)).
Proof.
  assert (H1 : line_store !! points line_recorder = Some sample_line) by reflexivity.
  exact (backtrack_route_shape line_store line_recorder (Fin 17, Fin 1) true
           sample_line H1).
Defined.

Section nearest_sample_kept.
Context {F : Type} `{Float F}.
Hypothesis flt_irrefl : ∀ a, flt a a = false.
Hypothesis flt_trans : ∀ a b c, flt a b = true → flt b c = true → flt a c = true.
Hypothesis flt_negtrans : ∀ a b c, flt a c = true → flt a b = true ∨ flt b c = true.
Hypothesis finf_top : ∀ a, flt finf a = false.

(** X19: without [include_current] the list returned is, read backwards,
    the history up to and including the sample nearest to the query
    point. *)
Theorem backtrack_without_current (σ : gmap nat (list (F * F)))
    (rec : MoveRecorder F) (cur : F * F) (pts : list (F * F)) :
  σ !! points rec = Some pts → pts ≠ [] →
  ∃ rb σ' route i,
    backtrack_from σ rec cur false = Ret (rb, σ') ∧
    σ' !! rb = Some route ∧
    first_nearest pts cur i ∧
    reverse route = take (i + 1) pts ∧ head route = pts !! i.
Proof.
  intros Hp Hne. rewrite (backtrack_nonempty _ _ _ _ pts) by done. cbv zeta.
  pose proof (nearest_scan_first flt_irrefl flt_trans flt_negtrans finf_top cur pts Hne)
    as Hfn.
  set (i := (nearest_scan cur 0 (0%nat, finf) pts).1) in *.
  eexists _, _, _, i. split; [reflexivity|]. rewrite lookup_insert_eq.
  split; [reflexivity|]. split; [done|]. cbn [andb].
  rewrite reverse_involutive. split; [done|].
  destruct Hfn as (q & Hq & _). rewrite head_reverse, Hq.
  rewrite Nat.add_1_r, (take_S_r _ _ q) by done. by rewrite last_snoc.
Qed.
End nearest_sample_kept.

Example backtrack_without_current_witness :
  ∃ rb σ' route i,
    backtrack_from line_store line_recorder (Fin 17, Fin 1) false = Ret (rb, σ') ∧
    σ' !! rb = Some route ∧
    first_nearest sample_line (Fin 17, Fin 1) i ∧
    reverse route = take (i + 1) sample_line ∧ head route = sample_line !! i.
Proof.
  assert (H1 : line_store !! points line_recorder = Some sample_line) by reflexivity.
  assert (H2 : sample_line ≠ []) by discriminate.
  exact (backtrack_without_current xlt_irrefl xlt_trans xlt_negtrans xinf_top
           line_store line_recorder (Fin 17, Fin 1) sample_line H1 H2).
Defined.

(** * Properties of the autopilot through a session *)

Section game_facts.
Context {F : Type} `{Float F}.
Variable of_int : Z → F.
Variable arrive : F.

Lemma auto_follow_ok (gm gm' : Game F) (center manual v : F * F) :
  auto_ok gm → auto_follow arrive gm center manual = Ret (gm', v) → auto_ok gm'.
Proof.
  intros Hok. pose proof Hok as (Hidx & Hon & Hrev). unfold auto_follow. cbv zeta.
  destruct (auto_mode gm) eqn:Em; cbn [andb]; [|by intros [= <- _]].
  destruct (Hon eq_refl) as [Hlen Hi].
  rewrite !bool_decide_true by lia. cbn [andb].
  destruct (py_index _ _) as [t|]; [|done].
  destruct (flt _ arrive).
  - case_decide as Hlast; intros [= <- _]; unfold auto_ok; cbn.
    + split; [lia|]. split; done.
    + rewrite ?Em. split; [lia|]. split; [intros _; lia|done].
  - destruct (negb _); by intros [= <- _].
Qed.

(** What [auto_follow] does with the index: an [IndexError] for an index
    below minus the length of the route, a result otherwise. *)
Lemma auto_follow_cases (gm : Game F) (center manual : F * F) :
  (auto_mode gm = true ∧ 2 ≤ Z.of_nat (length (auto_path gm)) ∧
   auto_index gm < - Z.of_nat (length (auto_path gm)) ∧
   auto_follow arrive gm center manual = Raise IndexError) ∨
  (¬ (auto_mode gm = true ∧ 2 ≤ Z.of_nat (length (auto_path gm)) ∧
      auto_index gm < - Z.of_nat (length (auto_path gm))) ∧
   ∃ r, auto_follow arrive gm center manual = Ret r).
Proof.
  unfold auto_follow. cbv zeta.
  destruct (auto_mode gm); cbn [andb]; [|right; split; [by intros [? _]|eauto]].
  destruct (decide (2 ≤ Z.of_nat (length (auto_path gm)))) as [Hlen|Hlen].
  2:{ rewrite bool_decide_false by done. cbn [andb]. right. split; [tauto|eauto]. }
  rewrite bool_decide_true by done. cbn [andb].
  destruct (decide (auto_index gm < Z.of_nat (length (auto_path gm)))) as [Hi|Hi].
  2:{ rewrite bool_decide_false by done. right. split; [lia|eauto]. }
  rewrite bool_decide_true by done.
  unfold py_index. destruct (decide (0 ≤ auto_index gm)) as [H0|H0].
  - destruct (lookup_lt_is_Some_2 (auto_path gm) (Z.to_nat (auto_index gm)))
      as [t ->]; [lia|].
    right. split; [lia|]. destruct (flt _ _); [case_decide|destruct (negb _)]; eauto.
  - destruct (decide (- Z.of_nat (length (auto_path gm)) ≤ auto_index gm)) as [H1|H1].
    + destruct (lookup_lt_is_Some_2 (auto_path gm)
                  (Z.to_nat (Z.of_nat (length (auto_path gm)) + auto_index gm)))
        as [t ->]; [lia|].
      right. split; [lia|]. destruct (flt _ _); [case_decide|destruct (negb _)]; eauto.
    + left. split; [done|]. split; [done|]. split; [lia|done].
Qed.

(** X20: in every state the session can reach, the target index lies
    within the route, a switched-on autopilot has a route of at least two
    waypoints and a target index from 1 up to the last one, the reverse
    flag is set only while the autopilot is on, and the autopilot block
    of [update] returns (the lookup [self.auto_path[self.auto_index]]
    raises no [IndexError]). *)
Theorem reachable_auto_ok (gm : Game F) :
  reachable of_int arrive gm →
  auto_ok gm ∧ ∀ center manual, ∃ r, auto_follow arrive gm center manual = Ret r.
Proof.
  intros Hr.
  assert (Hok : auto_ok gm).
  { induction Hr as [|gm _ _|gm ty lvl key px gm' ty' _ IH Hsel
                     |gm ty σ rec c σ' gm' ty' _ IH Hrev
                     |gm center manual gm' v _ IH Hf|gm _ IH].
    - unfold auto_ok. simpl. split; [lia|]. split; done.
    - unfold auto_ok. simpl. split; [lia|]. split; done.
    - unfold auto_select in Hsel. cbv zeta in Hsel.
      destruct (fst _) as [path| |]; [|done|done].
      case_decide as Hlen; injection Hsel as <- _; [|done].
      unfold auto_ok. cbn. rewrite length_fmap. split; [lia|]. split; [lia|done].
    - unfold reverse_moves in Hrev.
      destruct (backtrack_from _ _ _ _) as [[rb σ1]| |]; [|done|done].
      destruct (σ1 !! rb) as [path|]; [|done].
      case_decide as Hlen; injection Hrev as _ <- _; [|done].
      unfold auto_ok. cbn. split; [lia|]. split; [lia|done].
    - by eapply auto_follow_ok.
    - destruct IH as (Hidx & _ & _). unfold auto_ok, auto_off. cbn. done. }
  split; [done|]. intros center manual.
  destruct Hok as (Hidx & _ & _).
  destruct (auto_follow_cases gm center manual) as [(_ & _ & Hneg & _)|[_ ?]]; [lia|done].
Qed.

(** X21: the autopilot block of [update] raises (the [IndexError] of
    [self.auto_path[self.auto_index]]) exactly when the autopilot is on
    with a route of two waypoints or more and an index below minus the
    length of the route; in every other state it returns. *)
Theorem auto_follow_raises_iff (gm : Game F) (center manual : F * F) :
  ((∃ e, auto_follow arrive gm center manual = Raise e) ↔
   auto_mode gm = true ∧ 2 ≤ Z.of_nat (length (auto_path gm)) ∧
   auto_index gm < - Z.of_nat (length (auto_path gm))) ∧
  ((∃ r, auto_follow arrive gm center manual = Ret r) ↔
   ¬ (auto_mode gm = true ∧ 2 ≤ Z.of_nat (length (auto_path gm)) ∧
      auto_index gm < - Z.of_nat (length (auto_path gm)))).
Proof.
  destruct (auto_follow_cases gm center manual) as [(H1 & H2 & H3 & E)|[Hno [r E]]].
  - split; split.
    + intros _. done.
    + intros _. rewrite E. eauto.
    + intros [r Hr]. rewrite E in Hr. done.
    + intros Hn. exfalso. apply Hn. done.
  - split; split.
    + intros [e He]. rewrite E in He. done.
    + intros Hc. done.
    + intros _. done.
    + intros _. eauto.
Qed.

(** X22: choosing "Longest (Approx)" switches the autopilot on, aimed at
    the second waypoint, exactly when the start cell of the sweeps has a
    free neighbour; otherwise the autopilot fields stay as they were.
    [auto_type] is set either way. *)
Theorem auto_select_long (lvl : Level) (key : string) (px : pt)
    (st : Game F * option string) :
  key ≠ "short" →
  let pf := PathFinder_init lvl in
  ∃ st', auto_select of_int lvl key px st = Ret st' ∧ st'.2 = Some "long" ∧
         (neighbors pf (sweep_start pf px) ≠ [] →
          auto_mode st'.1 = true ∧ reverse_mode st'.1 = false ∧
          auto_index st'.1 = 1 ∧ 2 ≤ Z.of_nat (length (auto_path st'.1))) ∧
         (neighbors pf (sweep_start pf px) = [] → st'.1 = st.1).
Proof.
  intros Hkey pf. unfold auto_select. cbv zeta. rewrite decide_False by done.
  cbn [fst snd]. fold pf.
  destruct (longest_two_waypoints_iff pf px) as (r & -> & Hiff).
  case_decide as Hlen.
  - eexists. split; [reflexivity|]. split; [done|]. cbn. rewrite length_fmap. split.
    + done.
    + intros Hno. apply Hiff in Hlen. done.
  - eexists. split; [reflexivity|]. split; [done|]. cbn. split.
    + intros Hne. apply Hiff in Hne. done.
    + done.
Qed.

(** X23: choosing "Shortest (A-star)" switches the autopilot on exactly when
    the player's cell and the goal cell are two different unblocked cells
    joined by a path of fewer than [BIG] steps; the route then leads from
    the centre of the player's cell to the centre of the goal cell. *)
Theorem auto_select_short (lvl : Level) (px : pt) (st : Game F * option string) :
  let pf := PathFinder_init lvl in
  let s := pt_to_cell pf px in
  let g := pt_to_cell pf (level_end lvl) in
  let joined := (s ∉ blocked pf) ∧ (g ∉ blocked pf) ∧ s ≠ g ∧
                ∃ l, path_from_to pf s g l ∧ steps l < BIG in
  ∃ st', auto_select of_int lvl "short" px st = Ret st' ∧ st'.2 = Some "short" ∧
         (joined →
          auto_mode st'.1 = true ∧ reverse_mode st'.1 = false ∧ auto_index st'.1 = 1 ∧
          head (auto_path st'.1) = Some (waypoint of_int (cell_to_pt s)) ∧
          last (auto_path st'.1) = Some (waypoint of_int (cell_to_pt g))) ∧
         (¬ joined → st'.1 = st.1).
Proof.
  intros pf s g joined. unfold auto_select. cbv zeta. rewrite decide_True by done.
  cbn [fst snd]. fold pf.
  destruct (shortest_two_waypoints_iff pf px (level_end lvl)) as (r & -> & Hiff & Hends).
  fold s g in Hiff, Hends. fold joined in Hiff.
  case_decide as Hlen.
  - eexists. split; [reflexivity|]. split; [done|]. cbn. split.
    + intros _. destruct (Hends Hlen) as [Hh Hl].
      split; [done|]. split; [done|]. split; [done|].
      split; [|by rewrite fmap_last, Hl].
      destruct r as [|a r]; [done|]. simpl in Hh. injection Hh as ->. done.
    + intros Hno. apply Hiff in Hlen. done.
  - eexists. split; [reflexivity|]. split; [done|]. cbn. split.
    + intros Hj. apply Hiff in Hj. done.
    + done.
Qed.

(** X24: right after [start_level] the recorder holds the one sample of
    the player's centre, and REVERSE leaves the autopilot off. *)
Theorem reverse_after_start (σ : gmap nat (list (F * F))) (rec : MoveRecorder F)
    (center cur : F * F) (pts : list (F * F)) :
  σ !! points rec = Some pts →
  ∃ σ2 rec2 st σ3,
    start_level σ rec center = Ret (σ2, rec2, st) ∧
    σ2 !! points rec2 = Some [center] ∧ points rec2 = points rec ∧
    reverse_moves σ2 rec2 cur st = Ret (σ3, st) ∧ auto_mode st.1 = false.
Proof.
  intros Hp. unfold start_level, clear. rewrite Hp.
  rewrite add_empty by (cbn [points]; by rewrite lookup_insert_eq).
  cbn [points sample_dist max_points].
  eexists _, _, _, _. split; [reflexivity|]. cbn [points].
  rewrite lookup_insert_eq. split; [done|]. split; [done|].
  unfold reverse_moves.
  rewrite (backtrack_nonempty _ _ _ _ [center]) by (by rewrite ?lookup_insert_eq).
  assert (Hone : ∀ i, take (i + 1) [center] = [center]).
  { intros i. rewrite Nat.add_1_r. simpl. by rewrite take_nil. }
  cbv beta iota zeta. rewrite Hone, lookup_insert_eq. cbn. done.
Qed.

End game_facts.



Example reverse_after_start_witness :
  ∃ σ2 rec2 st σ3,
    start_level line_store line_recorder (Fin 64, Fin 64) = Ret (σ2, rec2, st) ∧
    σ2 !! points rec2 = Some [(Fin 64, Fin 64)] ∧
    points rec2 = points line_recorder ∧
    reverse_moves σ2 rec2 (Fin 70, Fin 64) st = Ret (σ3, st) ∧ auto_mode st.1 = false.
Proof.
  assert (H1 : line_store !! points line_recorder = Some sample_line) by reflexivity.
  exact (reverse_after_start line_store line_recorder (Fin 64, Fin 64) (Fin 70, Fin 64)
           sample_line H1).
Defined.

Example auto_select_long_witness :
  "long" ≠ "short" ∧
  ∃ st', auto_select Fin ring_level "long" (5, 5)
           (mkGame false false [] 0, None) = Ret st' ∧ st'.2 = Some "long" ∧
         (neighbors (PathFinder_init ring_level)
            (sweep_start (PathFinder_init ring_level) (5, 5)) ≠ [] →
          auto_mode st'.1 = true ∧ reverse_mode st'.1 = false ∧
          auto_index st'.1 = 1 ∧ 2 ≤ Z.of_nat (length (auto_path st'.1))) ∧
         (neighbors (PathFinder_init ring_level)
            (sweep_start (PathFinder_init ring_level) (5, 5)) = [] →
          st'.1 = (mkGame (F := xnum) false false [] 0, @None string).1).
Proof.
  assert (H1 : "long" ≠ "short") by discriminate.
  split; [exact H1|].
  exact (auto_select_long Fin ring_level "long" (5, 5)
           (mkGame false false [] 0, None) H1).
Defined.

Example reachable_auto_ok_witness :
  reachable Fin (Fin 8) (mkGame true true row_route 2) ∧
  auto_ok (mkGame true true row_route 2) ∧
  ∀ center manual,
    ∃ r, auto_follow (Fin 8) (mkGame true true row_route 2) center manual = Ret r.
Proof.
  assert (H1 : reachable Fin (Fin 8) (mkGame true true row_route 2)).
  { eapply (reach_follow Fin (Fin 8) (mkGame true true row_route 1)
              (Fin 40, Fin 0) (Fin 0, Fin 0) _ (Fin 0, Fin 0)).
    - eapply (reach_reverse Fin (Fin 8) (mkGame false false [] 0) None
               {[ 0%nat := [(Fin 80, Fin 0); (Fin 40, Fin 0); (Fin 0, Fin 0)] ]}
               (mkRecorder (Fin 8) 20000 0%nat (Some (Fin 0, Fin 0)))
               (Fin 0, Fin 0)).
      + apply reach_init.
      + vm_compute. reflexivity.
    - vm_compute. reflexivity. }
  split; [exact H1|]. exact (reachable_auto_ok Fin (Fin 8) _ H1).
Defined.

(** * Properties of slow motion *)

Section time_facts.
Context {F : Type} (slow full : F).

Lemma tm_reachable_inv (tm : TimeManipulator F) :
  tm_reachable slow full tm →
  max_cooldown tm = 300 ∧ 0 ≤ cooldown tm ≤ 300 ∧
  (active tm = true ↔ 0 < cooldown tm) ∧
  time_scale tm = (if active tm then slow else full).
Proof.
  induction 1 as [|tm _ (Hm & Hc & Ha & Hs)|tm _ (Hm & Hc & Ha & Hs)].
  - simpl. split; [done|]. split; [lia|]. split; [|done]. split; [done|lia].
  - unfold activate. case_decide as Hcd; [|done]. cbn.
    destruct (active tm) eqn:Ea.
    + assert (0 < cooldown tm) by (by apply Ha). lia.
    + cbn. rewrite Hm. split; [done|]. split; [lia|]. split; [|done].
      split; [lia|done].
  - unfold TimeManipulator_update. case_decide as Hcd; [|done].
    assert (Eact : active tm = true) by (by apply Ha). rewrite Eact.
    destruct (decide (cooldown tm - 1 ≤ 0)) as [Hz|Hz].
    + rewrite bool_decide_true by done. cbn. split; [done|]. split; [lia|].
      split; [|done]. split; [done|lia].
    + rewrite bool_decide_false by done. cbn. split; [done|]. split; [lia|].
      rewrite Eact in Hs. split; [|done]. split; [lia|done].
Qed.

(** X25: in every state a manipulator goes through, it is active exactly
    while the cooldown runs, the time scale is [0.3] while it is active
    and [1.0] otherwise, and [activate] never switches slow motion off:
    it succeeds only on an idle manipulator, which it switches on with a
    cooldown of 300. *)
Theorem slow_motion_invariant (tm : TimeManipulator F) :
  tm_reachable slow full tm →
  0 ≤ cooldown tm ≤ 300 ∧
  (active tm = true ↔ 0 < cooldown tm) ∧
  time_scale tm = (if active tm then slow else full) ∧
  ((activate slow full tm).2 = true →
   active tm = false ∧ (activate slow full tm).1 = mkTime true slow 300 300).
Proof.
  intros Hr. destruct (tm_reachable_inv tm Hr) as (Hm & Hc & Ha & Hs).
  repeat (split; [done|]).
  unfold activate. case_decide as Hcd; [|done]. intros _.
  destruct (active tm) eqn:Ea.
  - assert (0 < cooldown tm) by (by apply Ha). lia.
  - cbn. by rewrite Hm.
Qed.

Lemma update_iter (n : nat) (c : Z) :
  0 < c →
  Nat.iter n (TimeManipulator_update full) (mkTime true slow c 300) =
  if decide (Z.of_nat n < c) then mkTime true slow (c - Z.of_nat n) 300
  else mkTime false full 0 300.
Proof.
  intros Hc. induction n as [|n IH].
  - simpl. rewrite decide_True by lia. f_equal. lia.
  - rewrite Nat.iter_succ, IH. destruct (decide (Z.of_nat n < c)) as [Hn|Hn].
    + unfold TimeManipulator_update. cbn. rewrite decide_True by lia.
      destruct (decide (Z.of_nat (Datatypes.S n) < c)) as [Hs|Hs].
      * rewrite bool_decide_false by lia. cbn. f_equal. lia.
      * rewrite bool_decide_true by lia. cbn. f_equal. lia.
    + rewrite (decide_False (P := Z.of_nat (Datatypes.S n) < c)) by lia.
      unfold TimeManipulator_update. cbn. by rewrite decide_False by lia.
Qed.

(** X26: slow motion, once switched on, lasts exactly 300 updates: it is
    still on after fewer, and off with the time scale back at [1.0] from
    the 300th on. *)
Theorem slow_motion_lasts (tm : TimeManipulator F) (n : nat) :
  tm_reachable slow full tm → active tm = false →
  (activate slow full tm).2 = true ∧
  Nat.iter n (TimeManipulator_update full) (activate slow full tm).1 =
  if decide (Z.of_nat n < 300) then mkTime true slow (300 - Z.of_nat n) 300
  else mkTime false full 0 300.
Proof.
  intros Hr Hoff.
  destruct (tm_reachable_inv tm Hr) as (Hm & Hc & Ha & Hs).
  assert (Hcd : cooldown tm ≤ 0).
  { destruct (decide (0 < cooldown tm)) as [Hp|Hp]; [|lia].
    apply Ha in Hp. congruence. }
  unfold activate. rewrite decide_True by done. rewrite Hoff. cbn. rewrite Hm.
  split; [done|]. by apply update_iter.
Qed.

End time_facts.

Example slow_motion_invariant_witness :
  tm_reachable (Fin 3) (Fin 10) (TimeManipulator_init (Fin 10)) ∧
  0 ≤ cooldown (TimeManipulator_init (Fin 10)) ≤ 300 ∧
  (active (TimeManipulator_init (Fin 10)) = true
   ↔ 0 < cooldown (TimeManipulator_init (Fin 10))) ∧
  time_scale (TimeManipulator_init (Fin 10))
    = (if active (TimeManipulator_init (Fin 10)) then Fin 3 else Fin 10) ∧
  ((activate (Fin 3) (Fin 10) (TimeManipulator_init (Fin 10))).2 = true →
   active (TimeManipulator_init (Fin 10)) = false ∧
   (activate (Fin 3) (Fin 10) (TimeManipulator_init (Fin 10))).1
     = mkTime true (Fin 3) 300 300).
Proof.
  assert (H1 : tm_reachable (Fin 3) (Fin 10) (TimeManipulator_init (Fin 10)))
    by apply tm_init.
  split; [exact H1|].
  exact (slow_motion_invariant (Fin 3) (Fin 10) (TimeManipulator_init (Fin 10)) H1).
Defined.

Example slow_motion_lasts_witness :
  (activate (Fin 3) (Fin 10) (TimeManipulator_init (Fin 10))).2 = true ∧
  Nat.iter 299 (TimeManipulator_update (Fin 10))
    (activate (Fin 3) (Fin 10) (TimeManipulator_init (Fin 10))).1
  = (if decide (Z.of_nat 299 < 300)
     then mkTime true (Fin 3) (300 - Z.of_nat 299) 300
     else mkTime false (Fin 10) 0 300).
Proof.
  assert (H1 : tm_reachable (Fin 3) (Fin 10) (TimeManipulator_init (Fin 10)))
    by apply tm_init.
  assert (H2 : active (TimeManipulator_init (Fin 10)) = false) by reflexivity.
  exact (slow_motion_lasts (Fin 3) (Fin 10) (TimeManipulator_init (Fin 10)) 299 H1 H2).
Defined.

(** * Properties of the player *)

Section player_facts.
Context {F : Type} `{Float F}.
Variables (slowdown : F) (fneg : F → F) (collides : F → F → bool).

Lemma move_fields (p : Player F) (dx dy : F) (r : Reality) (dt : F) :
  let p' := (move slowdown fneg collides p dx dy r dt).1 in
  health p' = health p ∧ trail_max p' = trail_max p ∧
  invuln p' = (if decide (0 < invuln p) then invuln p - 1 else invuln p).
Proof. unfold move. cbv zeta. by destruct (negb _). Qed.

(** X27: a move that is not blocked appends the position left to the
    trail and drops the oldest entry when the trail is full; a blocked
    move changes neither position nor trail.  The trail never grows
    beyond [trail_max]. *)
Theorem move_trail (p : Player F) (dx dy : F) (r : Reality) (dt : F) :
  0 ≤ trail_max p → Z.of_nat (length (trail p)) ≤ trail_max p →
  let res := move slowdown fneg collides p dx dy r dt in
  Z.of_nat (length (trail res.1)) ≤ trail_max p ∧
  (res.2 = true → trail res.1 = last_n (trail_max p) (trail p ++ [(p_x p, p_y p)])) ∧
  (res.2 = false → trail res.1 = trail p ∧ p_x res.1 = p_x p ∧ p_y res.1 = p_y p).
Proof.
  intros Hmax Hlen. unfold move. cbv zeta. destruct (negb _); cbn [fst snd].
  - cbn [trail]. case_decide as Hfull.
    + rewrite length_app in Hfull. cbn [length] in Hfull.
      assert (E : drop 1 (trail p ++ [(p_x p, p_y p)]) =
                  last_n (trail_max p) (trail p ++ [(p_x p, p_y p)])).
      { unfold last_n. f_equal. rewrite length_app. simpl. lia. }
      rewrite E. split; [|split; [done|done]].
      rewrite length_last_n by done. lia.
    + rewrite last_n_all by lia. split; [lia|]. split; done.
  - cbn. split; [done|]. split; done.
Qed.

Lemma move_all_fields (p : Player F) (args : list (F * F * Reality * F)) :
  0 ≤ invuln p →
  health (move_all slowdown fneg collides p args) = health p ∧
  invuln (move_all slowdown fneg collides p args)
    = Z.max 0 (invuln p - Z.of_nat (length args)).
Proof.
  revert p. induction args as [|[[[dx dy] r] dt] args IH]; intros p Hinv.
  - simpl. split; [done|lia].
  - cbn [move_all].
    destruct (move_fields p dx dy r dt) as (Hh & _ & Hi).
    destruct (IH (move slowdown fneg collides p dx dy r dt).1) as [IHh IHi].
    { rewrite Hi. case_decide; lia. }
    rewrite IHh, IHi, Hh, Hi. split; [done|]. cbn [length]. case_decide; lia.
Qed.

(** X28: a hit that counts makes the player invulnerable for the next 24
    calls of [move]: until then [damage] changes nothing and returns
    False, whatever the moves; after 24 moves it counts again. *)
Theorem damage_cooldown (p p1 : Player F) (n m : Z)
    (args : list (F * F * Reality * F)) :
  damage p n = (p1, true) →
  let p2 := move_all slowdown fneg collides p1 args in
  health p1 = health p - n ∧ health p2 = health p1 ∧
  ((length args < 24)%nat → damage p2 m = (p2, false)) ∧
  ((24 ≤ length args)%nat → (damage p2 m).2 = true ∧
                             health (damage p2 m).1 = health p1 - m).
Proof.
  unfold damage at 1. case_decide as Hinv; [|done]. intros [= <-]. cbv zeta.
  set (p1 := mkPlayer _ _ _ _ _ _ _ _).
  destruct (move_all_fields p1 args) as [Hh Hi]; [simpl; lia|].
  split; [done|]. split; [done|]. cbn [invuln p1] in Hi. split.
  - intros Hlt. unfold damage. rewrite decide_False; [done|]. rewrite Hi. simpl. lia.
  - intros Hge. unfold damage. rewrite decide_True by (rewrite Hi; simpl; lia).
    cbn. by rewrite Hh.
Qed.

End player_facts.

Example move_trail_witness :
  Z.of_nat (length (trail (move (Fin 1) xneg no_wall new_player
                             (Fin 1) (Fin 0) NORMAL (Fin 1)).1)) ≤ 14 ∧
  ((move (Fin 1) xneg no_wall new_player (Fin 1) (Fin 0) NORMAL (Fin 1)).2 = true →
   trail (move (Fin 1) xneg no_wall new_player (Fin 1) (Fin 0) NORMAL (Fin 1)).1
     = last_n 14 ([] ++ [(Fin 50, Fin 50)])) ∧
  ((move (Fin 1) xneg no_wall new_player (Fin 1) (Fin 0) NORMAL (Fin 1)).2 = false →
   trail (move (Fin 1) xneg no_wall new_player (Fin 1) (Fin 0) NORMAL (Fin 1)).1 = [] ∧
   p_x (move (Fin 1) xneg no_wall new_player (Fin 1) (Fin 0) NORMAL (Fin 1)).1 = Fin 50 ∧
   p_y (move (Fin 1) xneg no_wall new_player (Fin 1) (Fin 0) NORMAL (Fin 1)).1 = Fin 50).
Proof.
  assert (H1 : 0 ≤ trail_max new_player) by (simpl; lia).
  assert (H2 : Z.of_nat (length (trail new_player)) ≤ trail_max new_player)
    by (simpl; lia).
  exact (move_trail (Fin 1) xneg no_wall new_player (Fin 1) (Fin 0) NORMAL (Fin 1) H1 H2).
Defined.

Example damage_cooldown_witness :
  health (damage new_player 1).1 = health new_player - 1 ∧
  health (move_all (Fin 1) xneg no_wall (damage new_player 1).1
            [(Fin 1, Fin 0, NORMAL, Fin 1)])
    = health (damage new_player 1).1 ∧
  ((length [(Fin 1, Fin 0, NORMAL, Fin 1)] < 24)%nat →
   damage (move_all (Fin 1) xneg no_wall (damage new_player 1).1
             [(Fin 1, Fin 0, NORMAL, Fin 1)]) 1
   = (move_all (Fin 1) xneg no_wall (damage new_player 1).1
        [(Fin 1, Fin 0, NORMAL, Fin 1)], false)) ∧
  ((24 ≤ length [(Fin 1, Fin 0, NORMAL, Fin 1)])%nat →
   (damage (move_all (Fin 1) xneg no_wall (damage new_player 1).1
              [(Fin 1, Fin 0, NORMAL, Fin 1)]) 1).2 = true ∧
   health (damage (move_all (Fin 1) xneg no_wall (damage new_player 1).1
                     [(Fin 1, Fin 0, NORMAL, Fin 1)]) 1).1
     = health (damage new_player 1).1 - 1).
Proof.
  assert (H1 : damage new_player 1 = ((damage new_player 1).1, true)) by reflexivity.
  exact (damage_cooldown (Fin 1) xneg no_wall new_player (damage new_player 1).1 1 1
           [(Fin 1, Fin 0, NORMAL, Fin 1)] H1).
Defined.

(** * Properties of the volume setting *)

Section volume_facts.
Context {F : Type} `{Float F}.
Variable f1 : F.
Hypothesis flt_irrefl : ∀ a, flt a a = false.
Hypothesis flt_trans : ∀ a b c, flt a b = true → flt b c = true → flt a c = true.
Hypothesis zero_lt_one : flt f0 f1 = true.

(** X29: whatever it is given, [set_volume] stores a value that is neither
    below [0.0] nor above [1.0]; a value strictly between the two is
    stored as it is, and storing the stored value again changes
    nothing. *)
Theorem set_volume_clamps (v : F) :
  let r := set_volume f1 v in
  flt r f0 = false ∧ flt f1 r = false ∧
  (flt f0 v = true → flt v f1 = true → r = v) ∧
  set_volume f1 r = r.
Proof.
  assert (Hasym : ∀ a b, flt a b = true → flt b a = false).
  { intros a b Hab. destruct (flt b a) eqn:Hba; [|done].
    pose proof (flt_trans _ _ _ Hab Hba) as E. by rewrite flt_irrefl in E. }
  pose proof (Hasym _ _ zero_lt_one) as H10.
  cbv zeta. unfold set_volume, py_min, py_max.
  destruct (flt v f1) eqn:E1; [destruct (flt f0 v) eqn:E0|];
    rewrite ?E1, ?E0, ?zero_lt_one, ?flt_irrefl, ?zero_lt_one, ?H10;
    repeat split; try done; try (by apply Hasym); try (by apply flt_irrefl).
Qed.

End volume_facts.

Example set_volume_clamps_witness :
  flt (set_volume (Fin 1) (Fin 7)) f0 = false ∧
  flt (Fin 1) (set_volume (Fin 1) (Fin 7)) = false ∧
  (flt f0 (Fin 7) = true → flt (Fin 7) (Fin 1) = true →
   set_volume (Fin 1) (Fin 7) = Fin 7) ∧
  set_volume (Fin 1) (set_volume (Fin 1) (Fin 7)) = set_volume (Fin 1) (Fin 7).
Proof.
  assert (H1 : flt f0 (Fin 1) = true) by reflexivity.
  exact (set_volume_clamps (Fin 1) xlt_irrefl xlt_trans H1 (Fin 7)).
Defined.
